(** * Resurgence: the per-frame simulation, audio envelope and vignette mapping

    A shallow embedding of the simulation core of the "resurgence" scene:
    the script with the audio envelope and the vignette pass, whose particle
    loop is the one of [src/main.js] too.

    Numbers.  A JavaScript number is modelled as an exact real extended with
    [+Infinity], [-Infinity] and [NaN]: finite arithmetic is exact (rounding,
    overflow, the sign of zero and the single precision of the position
    buffer are abstracted away), while division by zero and the propagation
    of infinities and [NaN] follow IEEE 754 as JavaScript does.  The
    real-valued functions ([sqrt], [sin], [cos], [PI]) are those of the
    Standard Library.  Where a statement would differ from the doubles by
    more than rounding, through an overflow or an underflow, it is made
    for a stated range of magnitudes in which neither occurs.

    Environment.  [Math.random()] is a stream of reals consumed in order,
    [performance.now()] and the frame timestamp are inputs of the events,
    and [requestAnimationFrame] runs the callbacks in the order they were
    requested. *)

From Stdlib Require Import Reals Lra Psatz Bool List String Arith Lia.
Import ListNotations.
Open Scope R_scope.

(** ** JavaScript numbers and the [Math] functions the scene uses *)

Inductive number : Type :=
| Num (r : R)
| PosInf
| NegInf
| NaN.

Module JS.

Definition isFinite (a : number) : bool :=
  match a with Num _ => true | _ => false end.

(** [r * Infinity] for a finite [r]: the sign of [r] decides, [0 * Infinity]
    is [NaN]. *)
Definition signedInf (r : R) : number :=
  if Rlt_dec 0 r then PosInf else if Rlt_dec r 0 then NegInf else NaN.

Definition neg (a : number) : number :=
  match a with
  | Num r => Num (- r)
  | PosInf => NegInf
  | NegInf => PosInf
  | NaN => NaN
  end.

Definition add (a b : number) : number :=
  match a, b with
  | Num x, Num y => Num (x + y)
  | NaN, _ => NaN
  | _, NaN => NaN
  | PosInf, NegInf => NaN
  | NegInf, PosInf => NaN
  | PosInf, _ => PosInf
  | _, PosInf => PosInf
  | NegInf, _ => NegInf
  | _, NegInf => NegInf
  end.

Definition sub (a b : number) : number := add a (neg b).

Definition mul (a b : number) : number :=
  match a, b with
  | Num x, Num y => Num (x * y)
  | NaN, _ => NaN
  | _, NaN => NaN
  | Num x, PosInf => signedInf x
  | Num x, NegInf => signedInf (- x)
  | PosInf, Num y => signedInf y
  | NegInf, Num y => signedInf (- y)
  | PosInf, PosInf => PosInf
  | NegInf, NegInf => PosInf
  | PosInf, NegInf => NegInf
  | NegInf, PosInf => NegInf
  end.

(** Division: a finite value divided by zero is an infinity of its sign and
    [0 / 0] is [NaN]. *)
Definition div (a b : number) : number :=
  match a, b with
  | Num x, Num y => if Req_dec_T y 0 then signedInf x else Num (x / y)
  | NaN, _ => NaN
  | _, NaN => NaN
  | Num _, _ => Num 0
  | PosInf, Num y => if Rlt_dec y 0 then NegInf else PosInf
  | NegInf, Num y => if Rlt_dec y 0 then PosInf else NegInf
  | _, _ => NaN
  end.

(** [a < b]; every comparison with [NaN] is false. *)
Definition lt (a b : number) : bool :=
  match a, b with
  | Num x, Num y => if Rlt_dec x y then true else false
  | NaN, _ => false
  | _, NaN => false
  | NegInf, NegInf => false
  | NegInf, _ => true
  | _, NegInf => false
  | PosInf, _ => false
  | Num _, PosInf => true
  end.

Definition gt (a b : number) : bool := lt b a.

(** [a !== b] *)
Definition strictNotEqual (a b : number) : bool :=
  match a, b with
  | Num x, Num y => if Req_dec_T x y then false else true
  | PosInf, PosInf => false
  | NegInf, NegInf => false
  | _, _ => true
  end.

(** Truthiness of a number, as [||] tests it: [0] and [NaN] are falsy. *)
Definition truthy (a : number) : bool :=
  match a with
  | Num x => if Req_dec_T x 0 then false else true
  | NaN => false
  | _ => true
  end.

(** [a || b] on numbers. *)
Definition orElse (a b : number) : number := if truthy a then a else b.

(** [Math.min(a, b)], [Math.max(a, b)]: [NaN] if either argument is. *)
Definition min (a b : number) : number :=
  match a, b with
  | Num x, Num y => Num (Rmin x y)
  | NaN, _ => NaN
  | _, NaN => NaN
  | NegInf, _ => NegInf
  | _, NegInf => NegInf
  | PosInf, c => c
  | c, PosInf => c
  end.

Definition max (a b : number) : number :=
  match a, b with
  | Num x, Num y => Num (Rmax x y)
  | NaN, _ => NaN
  | _, NaN => NaN
  | PosInf, _ => PosInf
  | _, PosInf => PosInf
  | NegInf, c => c
  | c, NegInf => c
  end.

(** [Math.sqrt], [Math.sin], [Math.cos] *)
Definition sqrt (a : number) : number :=
  match a with
  | Num x => if Rlt_dec x 0 then NaN else Num (R_sqrt.sqrt x)
  | PosInf => PosInf
  | _ => NaN
  end.

Definition sin (a : number) : number :=
  match a with Num x => Num (Rtrigo_def.sin x) | _ => NaN end.

Definition cos (a : number) : number :=
  match a with Num x => Num (Rtrigo_def.cos x) | _ => NaN end.

End JS.

Declare Scope js_scope.
Delimit Scope js_scope with js.
Bind Scope js_scope with number.
Infix "+" := JS.add : js_scope.
Infix "-" := JS.sub : js_scope.
Infix "*" := JS.mul : js_scope.
Infix "/" := JS.div : js_scope.
Notation "# r" := (Num r%R) (at level 5, r at level 1, format "# r").

(** ** THREE.Vector3, the methods the scene calls *)

Module Vector3.

Record t : Type := make { x : number; y : number; z : number }.

Definition isFinite (v : t) : bool :=
  JS.isFinite (x v) && JS.isFinite (y v) && JS.isFinite (z v).

Definition add (a b : t) : t :=
  make (x a + x b)%js (y a + y b)%js (z a + z b)%js.

Definition sub (a b : t) : t :=
  make (x a - x b)%js (y a - y b)%js (z a - z b)%js.

Definition multiplyScalar (a : t) (s : number) : t :=
  make (x a * s)%js (y a * s)%js (z a * s)%js.

(** [divideScalar(s)] is [multiplyScalar(1 / s)]. *)
Definition divideScalar (a : t) (s : number) : t :=
  multiplyScalar a (#1 / s)%js.

Definition addScaledVector (a v : t) (s : number) : t :=
  make (x a + x v * s)%js (y a + y v * s)%js (z a + z v * s)%js.

Definition length (a : t) : number :=
  JS.sqrt (x a * x a + y a * y a + z a * z a)%js.

(** [normalize()] is [divideScalar(length() || 1)]: the zero vector stays
    the zero vector. *)
Definition normalize (a : t) : t :=
  divideScalar a (JS.orElse (length a) (Num 1)).

(** [setLength(l)] is [normalize().multiplyScalar(l)]. *)
Definition setLength (a : t) (l : number) : t :=
  multiplyScalar (normalize a) l.

(** [lerp(v, alpha)]: [this.x += (v.x - this.x) * alpha], and so on. *)
Definition lerp (a v : t) (alpha : number) : t :=
  make (x a + (x v - x a) * alpha)%js
       (y a + (y v - y a) * alpha)%js
       (z a + (z v - z a) * alpha)%js.

End Vector3.

(** ** The audio envelope

    Free-standing variables of the source, gathered in a record.  The two
    Web Audio nodes are created by [startAudio]; of each only the parameter
    the scene writes is kept ([None] before the node exists).  The closures
    [step] that [fadeOutAudio] hands to [requestAnimationFrame] are kept in
    [pendingSteps]: each captures [start], [startTime] and [duration]. *)

Record FadeStep : Type := mkFadeStep {
  start : number;
  startTime : number;
  duration : number
}.

Record Audio : Type := mkAudio {
  audioStarted : bool;
  targetGain : number;
  currentGain : number;
  fading : bool;
  gainValue : option number;        (* gainNode.gain.value *)
  filterFrequency : option number;  (* filterNode.frequency.value *)
  playing : bool;                   (* audio.play() / audio.pause() *)
  pendingSteps : list FadeStep
}.

(** [let targetGain = 1.0, currentGain = 1.0, fading = false;] *)
Definition initialAudio : Audio :=
  mkAudio false #1 #1 false None None false [].

Definition startAudio (a : Audio) : Audio :=
  if audioStarted a then a
  else mkAudio true #0.7 #0.7 (fading a) (Some #0.7) (Some #10000) true
               (pendingSteps a).

(** [Math.max(0, Math.min(1.2, intensity))] *)
Definition clampedIntensity (intensity : number) : number :=
  JS.max #0 (JS.min #1.2 intensity).

Definition setAudioIntensity (intensity : number) (a : Audio) : Audio :=
  if negb (audioStarted a) then a
  else
    let intensity := clampedIntensity intensity in
    mkAudio (audioStarted a)
            (#0.13 + #0.95 * intensity)%js
            (currentGain a) (fading a) (gainValue a)
            (Some (#800 + #8000 * (#1 - intensity))%js)
            (playing a) (pendingSteps a).

(** [fadeOutAudio(duration = 1900)]; [now] is what [performance.now()]
    returns inside the call. *)
Definition fadeOutAudio (duration now : number) (a : Audio) : Audio :=
  if negb (audioStarted a) || fading a then a
  else mkAudio (audioStarted a) (targetGain a) (currentGain a) true
               (gainValue a) (filterFrequency a) (playing a)
               (pendingSteps a ++ [mkFadeStep (currentGain a) now duration]).

Definition defaultDuration : number := #1900.

(** The ramp position of a fade closure at timestamp [now]:
    [t = Math.min(1, elapsed / duration)]. *)
Definition fadeProgress (c : FadeStep) (now : number) : number :=
  JS.min #1 ((now - startTime c) / duration c)%js.

(** One call of the closure [step(now)]; a closure that asks for another
    frame is put back in [pendingSteps]. *)
Definition step (c : FadeStep) (now : number) (a : Audio) : Audio :=
  let t := fadeProgress c now in
  let g := (start c * (#1 - t))%js in
  if JS.lt t #1 then
    mkAudio (audioStarted a) (targetGain a) g (fading a) (Some g)
            (filterFrequency a) (playing a) (pendingSteps a ++ [c])
  else
    mkAudio false (targetGain a) #0 false (Some #0)
            (filterFrequency a) false (pendingSteps a).

(** An animation frame runs the callbacks that were pending when it began. *)
Definition runPendingSteps (now : number) (a : Audio) : Audio :=
  fold_left (fun a' c => step c now a') (pendingSteps a)
    (mkAudio (audioStarted a) (targetGain a) (currentGain a) (fading a)
             (gainValue a) (filterFrequency a) (playing a) []).

(** The smoothing block of [animate]:
    [if (audioStarted && !fading) { currentGain += (targetGain - currentGain) * 0.04; ... }] *)
Definition smoothGain (a : Audio) : Audio :=
  if audioStarted a && negb (fading a) then
    let g := (currentGain a + (targetGain a - currentGain a) * #0.04)%js in
    mkAudio (audioStarted a) (targetGain a) g (fading a) (Some g)
            (filterFrequency a) (playing a) (pendingSteps a)
  else a.

(** [let intensity = 2 - Math.min(1, dist / 160);] *)
Definition proximityIntensity (dist : number) : number :=
  (#2 - JS.min #1 (dist / #160))%js.

(** ** The scene state

    Only the state the simulation reads back is kept: the sphere, the
    particle pool, the key state, the audio envelope and the vignette
    uniform.  Sizes, alphas, the camera, the lens and the chromatic pass are
    written every frame and never read by the simulation. *)

Record MoveTarget : Type := mkMoveTarget { moveX : number; moveZ : number }.

(** Particle [i] of the pool: [positions[3i .. 3i+2]] and [velocities[i]]. *)
Record Particle : Type := mkParticle {
  position : Vector3.t;
  velocity : Vector3.t
}.

Record World : Type := mkWorld {
  hasCollided : bool;
  audio : Audio;
  spherePosition : Vector3.t;
  sphereVelocity : Vector3.t;
  moveTarget : MoveTarget;
  particles : list Particle;
  vignetteOpacity : number;   (* vignettePass.uniforms.opacity.value *)
  randomCalls : nat;          (* how many Math.random() results were consumed *)
  console : list string;      (* console.log output, oldest first *)
  fadeOutCalls : nat;         (* how many times animate called fadeOutAudio() *)
  startAudioListener : bool   (* the { once: true } keydown listener is still attached *)
}.

Definition vortexPos : Vector3.t := Vector3.make #0 #0 #(-18).
Definition PARTICLE_COUNT : nat := 1500.
Definition RANGE : number := #1500.
Definition playerAccel : number := #0.13.
Definition friction : number := #0.992.
Definition maxSpeed : number := #1.35.

(** *** The sphere *)

(** [let K = 5 + 1800 * Math.min(1, (dist - 10) / 400);] *)
Definition gravityK (dist : number) : number :=
  (#5 + #1800 * JS.min #1 ((dist - #10) / #400))%js.

(** [let gravStrength = K / (dist * dist);] *)
Definition gravStrength (dist : number) : number :=
  (gravityK dist / (dist * dist))%js.

Definition noiseAmplitude (dist : number) : number :=
  (#0.005 * JS.max #0.1 (#1 - dist / #100))%js.

Definition noiseAngle (time : number) : number :=
  (JS.sin (time * #0.0017) * #PI * #2 + JS.cos (time * #0.00113))%js.

Definition noise (time dist : number) : Vector3.t :=
  let noiseAmplitude := noiseAmplitude dist in
  let angle := noiseAngle time in
  Vector3.make
    (JS.sin (angle + #0.6) * noiseAmplitude)%js
    (JS.sin (angle - #0.3) * noiseAmplitude * #0.55)%js
    (JS.cos (angle + #0.3) * noiseAmplitude)%js.

(** Gravity, noise and player input added to the velocity. *)
Definition accelerate (time : number) (m : MoveTarget)
    (position velocity : Vector3.t) : Vector3.t :=
  let toVortex := Vector3.sub vortexPos position in
  let dist := Vector3.length toVortex in
  let dirToVortex := Vector3.normalize toVortex in
  let v := Vector3.addScaledVector velocity dirToVortex (gravStrength dist) in
  let v := Vector3.add v (noise time dist) in
  let moveVec :=
    Vector3.multiplyScalar
      (Vector3.normalize (Vector3.make (moveX m) #0 (moveZ m))) playerAccel in
  if JS.strictNotEqual (moveX m) #0 || JS.strictNotEqual (moveZ m) #0
  then Vector3.add v moveVec
  else v.

(** [if (sphereVelocity.length() > maxSpeed) sphereVelocity.setLength(maxSpeed);] *)
Definition clampSpeed (v : Vector3.t) : Vector3.t :=
  if JS.gt (Vector3.length v) maxSpeed then Vector3.setLength v maxSpeed else v.

(** [sphereVelocity.multiplyScalar(friction);] *)
Definition applyFriction (v : Vector3.t) : Vector3.t :=
  Vector3.multiplyScalar v friction.

(** *** The vignette *)

Definition vignette (dist : number) : number :=
  let maxDist := #7 in
  let minDist := #0 in
  let vignetteStrength :=
    (#1 - JS.min #1 (JS.max #0 ((dist - minDist) / (maxDist - minDist))))%js in
  (vignetteStrength * #0.92)%js.

(** *** The particles *)

Section Random.

(** The results of the successive calls of [Math.random()]. *)
Variable random : nat -> R.

(** A fresh position in the spawn volume, from three draws. *)
Definition spawn (k : nat) : Vector3.t :=
  Vector3.make
    ((#(random k) - #0.5) * RANGE)%js
    ((#(random (k + 1)) - #0.5) * RANGE * #0.5)%js
    ((#(random (k + 2)) - #0.5) * RANGE - #10)%js.

(** [let attract = Math.max(0.015, Math.min(0.07, 0.011 + 0.18 / (d * d)));
     if (d < 23) attract *= 1.6;] *)
Definition attract (d : number) : number :=
  let attract := JS.max #0.015 (JS.min #0.07 (#0.011 + #0.18 / (d * d))%js) in
  if JS.lt d #23 then (attract * #1.6)%js else attract.

(** The body of the particle loop; [k] counts the draws made so far. *)
Definition updateParticle (q : Particle) (k : nat) : Particle * nat :=
  let p := position q in
  let toVortex := Vector3.sub vortexPos p in
  let d := Vector3.length toVortex in
  let v :=
    Vector3.add (velocity q)
      (Vector3.multiplyScalar (Vector3.normalize toVortex) (attract d)) in
  let v := Vector3.multiplyScalar v #0.97 in
  let p := Vector3.add p v in
  if JS.lt d #3.5
  then (mkParticle (spawn k) (Vector3.make #0 #0 #0), (k + 3)%nat)
  else (mkParticle p v, k).

(** [for (let i = 0; i < PARTICLE_COUNT; i++) ...], in index order. *)
Fixpoint updateParticles (qs : list Particle) (k : nat)
    : list Particle * nat :=
  match qs with
  | [] => ([], k)
  | q :: rest =>
      let (q', k') := updateParticle q k in
      let (rest', k'') := updateParticles rest k' in
      (q' :: rest', k'')
  end.

(** The start-up loop: three draws for the position of each particle, one
    for its size and one for its alpha; velocities start at zero. *)
Fixpoint initialParticles (n k : nat) : list Particle :=
  match n with
  | O => []
  | S n' =>
      mkParticle (spawn k) (Vector3.make #0 #0 #0)
        :: initialParticles n' (k + 5)
  end.

(** *** One call of [animate(time)]

    [now] is the value [performance.now()] returns if [fadeOutAudio] asks
    for it during the call. *)
Definition animate (time now : number) (w : World) : World :=
  let toVortex := Vector3.sub vortexPos (spherePosition w) in
  let dist := Vector3.length toVortex in
  let intensity := proximityIntensity dist in
  let a := smoothGain (setAudioIntensity intensity (audio w)) in
  let v :=
    applyFriction
      (clampSpeed
         (accelerate time (moveTarget w) (spherePosition w) (sphereVelocity w))) in
  let p := Vector3.add (spherePosition w) v in
  let engulfed := negb (hasCollided w) && JS.lt dist #1 in
  let (qs, k) := updateParticles (particles w) (randomCalls w) in
  mkWorld
    (if engulfed then true else hasCollided w)
    (if engulfed then fadeOutAudio defaultDuration now a else a)
    p v (moveTarget w) qs (vignette dist) k
    (if engulfed then console w ++ ["Boule engloutie !"%string] else console w)
    (if engulfed then S (fadeOutCalls w) else fadeOutCalls w)
    (startAudioListener w).

(** *** Events *)

Inductive event : Type :=
| KeyDown (code : string)
| KeyUp (code : string)
| AnimationFrame (time now : number).

Definition keydown (code : string) (w : World) : World :=
  let m := moveTarget w in
  let m := if String.eqb code "ArrowLeft" then mkMoveTarget #(-1) (moveZ m) else m in
  let m := if String.eqb code "ArrowRight" then mkMoveTarget #1 (moveZ m) else m in
  let m := if String.eqb code "ArrowUp" then mkMoveTarget (moveX m) #(-1) else m in
  let m := if String.eqb code "ArrowDown" then mkMoveTarget (moveX m) #1 else m in
  mkWorld (hasCollided w)
    (if startAudioListener w then startAudio (audio w) else audio w)
    (spherePosition w) (sphereVelocity w) m (particles w) (vignetteOpacity w)
    (randomCalls w) (console w) (fadeOutCalls w) false.

Definition keyup (code : string) (w : World) : World :=
  let m := moveTarget w in
  let m :=
    if String.eqb code "ArrowLeft" || String.eqb code "ArrowRight"
    then mkMoveTarget #0 (moveZ m) else m in
  let m :=
    if String.eqb code "ArrowUp" || String.eqb code "ArrowDown"
    then mkMoveTarget (moveX m) #0 else m in
  mkWorld (hasCollided w) (audio w) (spherePosition w) (sphereVelocity w) m
    (particles w) (vignetteOpacity w) (randomCalls w) (console w)
    (fadeOutCalls w) (startAudioListener w).

(** An animation frame first runs the pending [step] closures (they were
    requested before [animate] re-requested itself), then [animate], all
    with the same timestamp. *)
Definition handle (e : event) (w : World) : World :=
  match e with
  | KeyDown code => keydown code w
  | KeyUp code => keyup code w
  | AnimationFrame time now =>
      animate time now
        (mkWorld (hasCollided w) (runPendingSteps time (audio w))
           (spherePosition w) (sphereVelocity w) (moveTarget w) (particles w)
           (vignetteOpacity w) (randomCalls w) (console w) (fadeOutCalls w)
           (startAudioListener w))
  end.

Definition run (es : list event) (w : World) : World :=
  fold_left (fun w' e => handle e w') es w.

(** The state right after the script has been loaded. *)
Definition initialWorld : World :=
  mkWorld false initialAudio
    (Vector3.make #0 #0 #1000) (Vector3.make #0 #0 #0)
    (mkMoveTarget #0 #0)
    (initialParticles PARTICLE_COUNT 0)
    #0 (5 * PARTICLE_COUNT) [] 0 true.

End Random.

(** ** Sessions

    The entry points of the envelope, as calls; [CallAnimationFrame] stands
    for the frame running the pending [step] closures. *)

Inductive audioCall : Type :=
| CallStartAudio
| CallSetAudioIntensity (intensity : number)
| CallSmoothGain
| CallFadeOutAudio (duration now : number)
| CallAnimationFrame (now : number).

Definition call (c : audioCall) (a : Audio) : Audio :=
  match c with
  | CallStartAudio => startAudio a
  | CallSetAudioIntensity intensity => setAudioIntensity intensity a
  | CallSmoothGain => smoothGain a
  | CallFadeOutAudio duration now => fadeOutAudio duration now a
  | CallAnimationFrame now => runPendingSteps now a
  end.

Definition calls (cs : list audioCall) (a : Audio) : Audio :=
  fold_left (fun a' c => call c a') cs a.

(** The clock does not run backwards and the inputs are finite: the
    intensity set is a finite number, a fade is asked for at a finite time
    with a positive duration, and a closure runs at a timestamp that is not
    before the moment it was created. *)
Definition callInOrder (a : Audio) (c : audioCall) : Prop :=
  match c with
  | CallSetAudioIntensity intensity => JS.isFinite intensity = true
  | CallFadeOutAudio duration now =>
      JS.isFinite now = true /\ exists d : R, duration = #d /\ 0 < d
  | CallAnimationFrame now =>
      exists t : R,
        now = #t /\
        Forall (fun c => exists s : R, startTime c = #s /\ s <= t)
          (pendingSteps a)
  | _ => True
  end.

Fixpoint callsInOrder (cs : list audioCall) (a : Audio) : Prop :=
  match cs with
  | [] => True
  | c :: rest => callInOrder a c /\ callsInOrder rest (call c a)
  end.

(** The states a session goes through, and how many times a flag goes from
    [false] to [true] along them. *)
Fixpoint trace (random : nat -> R) (es : list event) (w : World) : list World :=
  match es with
  | [] => [w]
  | e :: rest => w :: trace random rest (handle random e w)
  end.

Fixpoint risingEdges (flags : list bool) : nat :=
  match flags with
  | false :: ((true :: _) as rest) => S (risingEdges rest)
  | _ :: rest => risingEdges rest
  | [] => O
  end.

(** The distance [animate] measures at the start of a frame. *)
Definition sphereDistance (w : World) : number :=
  Vector3.length (Vector3.sub vortexPos (spherePosition w)).

(** The calls of the envelope an event makes, in order, and those of a
    whole session. *)
Definition audioCallsOf (e : event) (w : World) : list audioCall :=
  match e with
  | KeyDown _ => if startAudioListener w then [CallStartAudio] else []
  | KeyUp _ => []
  | AnimationFrame time now =>
      [CallAnimationFrame time;
       CallSetAudioIntensity (proximityIntensity (sphereDistance w));
       CallSmoothGain]
      ++ (if negb (hasCollided w) && JS.lt (sphereDistance w) #1
          then [CallFadeOutAudio defaultDuration now]
          else [])
  end.

Fixpoint sessionCalls (random : nat -> R) (es : list event) (w : World)
    : list audioCall :=
  match es with
  | [] => []
  | e :: rest =>
      audioCallsOf e w ++ sessionCalls random rest (handle random e w)
  end.

(** The sphere resting exactly on the vortex, nothing else changed from the
    initial state. *)
Definition sphereOnVortex : World :=
  mkWorld false initialAudio vortexPos (Vector3.make #0 #0 #0)
    (mkMoveTarget #0 #0)
    (initialParticles (fun _ => 0) PARTICLE_COUNT 0)
    #0 (5 * PARTICLE_COUNT) [] 0 true.

(** ** Invariants of the envelope *)

(** [targetGainMax = 0.13 + 0.95 * 1.2] *)
Definition targetGainMax : R := 0.13 + 0.95 * 1.2.

Definition gainInRange (a : number) : Prop :=
  exists g : R, a = #g /\ 0 <= g <= targetGainMax.

Definition fadeStepInRange (c : FadeStep) : Prop :=
  gainInRange (start c) /\
  JS.isFinite (startTime c) = true /\
  exists d : R, duration c = #d /\ 0 < d.

Definition gainsInRange (a : Audio) : Prop :=
  gainInRange (currentGain a) /\
  (exists tg : R, targetGain a = #tg /\ 0.13 <= tg <= targetGainMax) /\
  Forall fadeStepInRange (pendingSteps a).

Definition singleFade (a : Audio) : Prop :=
  (List.length (pendingSteps a) <= 1)%nat /\
  (fading a = false -> pendingSteps a = []).

(** Until the sphere is engulfed no fade has been asked for. *)
Definition noFadeYet (w : World) : Prop :=
  hasCollided w = false ->
  fading (audio w) = false /\ pendingSteps (audio w) = [].

(** ** What the frame writes for the renderer

    The values [animate] computes and hands to the meshes, the camera and
    the shader passes; the simulation never reads them back. *)

(** [const scale = 1 + 0.09 * Math.sin(time * 0.002);] *)
Definition scale (time : number) : number :=
  (#1 + #0.09 * JS.sin (time * #0.002))%js.

(** [lensPass.uniforms.strength.value], [lensPass.uniforms.radius.value] and
    [chromaPass.uniforms.amount.value]. *)
Definition lensStrength (dist : number) : number :=
  JS.max #0.14 (#0.53 - dist * #0.035)%js.

Definition lensRadius (dist : number) : number :=
  (#0.18 + JS.max #0 (#0.31 - dist * #0.014))%js.

Definition chromaAmount (dist : number) : number :=
  if JS.lt dist #10 then #0.005 else #0.0006.

(** [sizes[i]] and [alphas[i]] of particle [i], at distance [d] from the
    vortex. *)
Definition size (time d : number) (i : nat) : number :=
  let t := (time * #0.001)%js in
  let phase := (#(INR i) * #0.07)%js in
  (#0.8 + JS.min #3.5 (JS.max #0 (#8 - d)) * #0.13 + #0.20 * JS.sin (t + phase))%js.

Definition alpha (time d : number) (i : nat) : number :=
  let t := (time * #0.001)%js in
  let phase := (#(INR i) * #0.07)%js in
  (#0.11 + JS.max #0 (#0.28 - d * #0.009) + #0.10
   + #0.08 * JS.sin (phase * #3) * JS.sin (t * #0.9 + phase))%js.

(** [camTarget.copy(sphere.position).add(new THREE.Vector3(0, 2, 5));
     camera.position.lerp(camTarget, camLag);] *)
Definition camLag : number := #0.13.

Definition cameraFollow (cameraPosition spherePosition : Vector3.t) : Vector3.t :=
  let camTarget := Vector3.add spherePosition (Vector3.make #0 #2 #5) in
  Vector3.lerp cameraPosition camTarget camLag.

(** ** The earlier variant of the scene, [src/main.js]

    No audio and no vignette; the sphere follows the keys through a smoothed
    planar velocity, is pulled by a clamped force applied to its position,
    and is teleported when it comes within 4 of the vortex.  The particle
    loop is [updateParticles]. *)

Module Main.

Record XZ : Type := mkXZ { x : number; z : number }.

Inductive Emissive : Type :=
| HSL (h s l : number)
| Hex (color : nat).

Record State : Type := mkState {
  velocity : XZ;
  target : XZ;
  spherePosition : Vector3.t;
  opacity : number;          (* sphere.material.opacity *)
  emissive : Emissive;       (* sphere.material.emissive *)
  particles : list Particle;
  randomCalls : nat
}.

Definition accel : number := #0.07.
Definition friction : number := #0.987.
Definition maxSpeed : number := #0.54.

Definition keydown (code : string) (s : State) : State :=
  let t := target s in
  let t := if String.eqb code "ArrowLeft" then mkXZ (JS.neg maxSpeed) (z t) else t in
  let t := if String.eqb code "ArrowRight" then mkXZ maxSpeed (z t) else t in
  let t := if String.eqb code "ArrowUp" then mkXZ (x t) (JS.neg maxSpeed) else t in
  let t := if String.eqb code "ArrowDown" then mkXZ (x t) maxSpeed else t in
  mkState (velocity s) t (spherePosition s) (opacity s) (emissive s)
    (particles s) (randomCalls s).

Definition keyup (code : string) (s : State) : State :=
  let t := target s in
  let t :=
    if String.eqb code "ArrowLeft" || String.eqb code "ArrowRight"
    then mkXZ #0 (z t) else t in
  let t :=
    if String.eqb code "ArrowUp" || String.eqb code "ArrowDown"
    then mkXZ (x t) #0 else t in
  mkState (velocity s) t (spherePosition s) (opacity s) (emissive s)
    (particles s) (randomCalls s).

(** [velocity.x += (target.x - velocity.x) * accel; velocity.x *= friction;] *)
Definition steer (v t : number) : number :=
  ((v + (t - v) * accel) * friction)%js.

(** [let gravitationalForce = Math.max(0.008, Math.min(0.035, 0.006 + 0.09 / (dist * dist)));
     if (dist < 30) gravitationalForce *= 1.3;] *)
Definition gravitationalForce (dist : number) : number :=
  let gravitationalForce :=
    JS.max #0.008 (JS.min #0.035 (#0.006 + #0.09 / (dist * dist))%js) in
  if JS.lt dist #30 then (gravitationalForce * #1.3)%js else gravitationalForce.

(** The position after the keys and the pull, before the teleport test. *)
Definition pulled (p : Vector3.t) : Vector3.t :=
  let toVortex := Vector3.sub vortexPos p in
  let dist := Vector3.length toVortex in
  let gravityDirection := Vector3.normalize toVortex in
  Vector3.addScaledVector p gravityDirection (gravitationalForce dist).

Section Random.

Variable random : nat -> R.

(** [sphere.position.set((Math.random() - 0.5) * 80, (Math.random() - 0.5) * 40,
     (Math.random() - 0.5) * 80 + 40)] *)
Definition respawn (k : nat) : Vector3.t :=
  Vector3.make
    ((#(random k) - #0.5) * #80)%js
    ((#(random (k + 1)) - #0.5) * #40)%js
    ((#(random (k + 2)) - #0.5) * #80 + #40)%js.

Definition animate (s : State) : State :=
  let vx := steer (x (velocity s)) (x (target s)) in
  let vz := steer (z (velocity s)) (z (target s)) in
  let p := spherePosition s in
  let p := Vector3.make (Vector3.x p + vx)%js (Vector3.y p) (Vector3.z p + vz)%js in
  let dist := Vector3.length (Vector3.sub vortexPos p) in
  let p := pulled p in
  let k := randomCalls s in
  let near := JS.lt dist #25 in
  let o := if near then #0.77 else #0.40 in
  let e := if near then HSL #(random k) #0.7 #0.49 else Hex 4386%nat in   (* 0x001122 *)
  let k := if near then S k else k in
  let engulfed := JS.lt dist #4 in
  let p := if engulfed then respawn k else p in
  let k := if engulfed then (k + 3)%nat else k in
  let (qs, k) := updateParticles random (particles s) k in
  mkState (mkXZ vx vz) (target s) p o e qs k.

Inductive event : Type :=
| KeyDown (code : string)
| KeyUp (code : string)
| AnimationFrame.

Definition handle (e : event) (s : State) : State :=
  match e with
  | KeyDown code => keydown code s
  | KeyUp code => keyup code s
  | AnimationFrame => animate s
  end.

Definition run (es : list event) (s : State) : State :=
  fold_left (fun s' e => handle e s') es s.

(** The state right after the script has been loaded. *)
Definition initialState : State :=
  mkState (mkXZ #0 #0) (mkXZ #0 #0) (Vector3.make #0 #0 #500) #0.4 (Hex 4386)
    (initialParticles random PARTICLE_COUNT 0) (5 * PARTICLE_COUNT).

End Random.

(** An axis of [target] is [-maxSpeed], 0 or [maxSpeed]; an axis of
    [velocity] stays within [friction * maxSpeed]. *)
Definition targetValue (a : number) : Prop :=
  a = #(- 0.54) \/ a = #0 \/ a = #0.54.

Definition steered (a : number) : Prop :=
  exists v : R, a = #v /\ Rabs v <= 0.987 * 0.54.

Definition steering (s : State) : Prop :=
  targetValue (x (target s)) /\ targetValue (z (target s)) /\
  steered (x (velocity s)) /\ steered (z (velocity s)).

End Main.

(** The values the key handlers give an axis of [moveTarget]. *)
Definition axisValue (a : number) : Prop := a = #(-1) \/ a = #0 \/ a = #1.

(** ** The three phases of the audio: before the first key, playing,
    stopped after the fade *)

Definition audioRunning (a : Audio) : Prop :=
  audioStarted a = true /\ playing a = true /\ singleFade a.

Definition audioStopped (a : Audio) : Prop :=
  audioStarted a = false /\ fading a = false /\ pendingSteps a = [] /\
  currentGain a = #0 /\ gainValue a = Some #0 /\ playing a = false.

Inductive phase (w : World) : Prop :=
| NotStarted :
    startAudioListener w = true -> audio w = initialAudio -> phase w
| Running :
    startAudioListener w = false -> audioRunning (audio w) ->
    (fading (audio w) = true -> hasCollided w = true) -> phase w
| Stopped :
    startAudioListener w = false -> audioStopped (audio w) ->
    hasCollided w = true -> phase w.

(** ** Invariants of the particle pool *)


(** A finite particle slower than [b]. *)
Definition particleSlowerThan (b : R) (q : Particle) : Prop :=
  exists px py pz vx vy vz : R,
    q = mkParticle (Vector3.make #px #py #pz) (Vector3.make #vx #vy #vz) /\
    sqrt (vx * vx + vy * vy + vz * vz) <= b.

(** ** Sessions in which the sphere never sits on the vortex *)

Definition finiteTimestamp (e : event) : Prop :=
  match e with
  | AnimationFrame time _ => JS.isFinite time = true
  | _ => True
  end.

Definition sphereFinite (w : World) : Prop :=
  Vector3.isFinite (spherePosition w) = true /\
  Vector3.isFinite (sphereVelocity w) = true.

(** ** The working range of the arithmetic

    The numbers of the model are exact, those of the script are doubles: a
    product of doubles overflows to an infinity from magnitudes near 1e154
    on and underflows to zero below 1e-162.  What is stated about a whole
    frame is therefore stated for states whose coordinates are within
    [workingRange] (the scene is about a thousand units across) and whose
    sphere is at least [nearestDistance] away from the vortex, and what is
    stated about the clamp alone for components within [squarableRange],
    whose squares do not overflow: there the doubles follow the exact values
    up to rounding. *)

Definition workingRange : R := 1e6.
Definition nearestDistance : R := 1e-6.
Definition squarableRange : R := 1e150.

Definition componentsWithin (b : R) (v : Vector3.t) : Prop :=
  exists x y z : R,
    v = Vector3.make #x #y #z /\ Rabs x <= b /\ Rabs y <= b /\ Rabs z <= b.

(** A state at the start of a frame, within the working range. *)
Definition inWorkingRange (w : World) : Prop :=
  componentsWithin workingRange (spherePosition w) /\
  componentsWithin workingRange (sphereVelocity w) /\
  axisValue (moveX (moveTarget w)) /\ axisValue (moveZ (moveTarget w)) /\
  exists d : R, sphereDistance w = #d /\ nearestDistance <= d.

(** ** The sphere kept away from the vortex

    The speed the frame leaves is at most [friction * maxSpeed]; a sphere no
    faster than that and at least [closestApproach] from the vortex is
    [keptAway]. *)

Definition frameSpeed : R := 0.992 * 1.35.
Definition closestApproach : R := 1.66.

Definition keptAway (w : World) : Prop :=
  exists px py pz vx vy vz : R,
    spherePosition w = Vector3.make #px #py #pz /\
    sphereVelocity w = Vector3.make #vx #vy #vz /\
    sqrt (vx * vx + vy * vy + vz * vz) <= frameSpeed /\
    closestApproach
    <= sqrt ((0 - px) * (0 - px) + (0 - py) * (0 - py)
             + (-18 - pz) * (-18 - pz)).

(** A state with a fade in flight: the sphere has been engulfed at time 0
    while the audio played at gain 0.7. *)
Definition fadeInFlight : World :=
  mkWorld true
    (mkAudio true #1.08 #0.7 true (Some #0.7) (Some #800) true
       [mkFadeStep #0.7 #0 #1900])
    (Vector3.make #0 #0 #1000) (Vector3.make #0 #0 #0)
    (mkMoveTarget #0 #0)
    (initialParticles (fun _ => 0) PARTICLE_COUNT 0)
    #0 (5 * PARTICLE_COUNT) ["Boule engloutie !"%string] 1 false.

(** The sphere within reach of the vortex while the audio plays, nothing
    else changed from the initial state but the key listener, spent. *)
Definition sphereOnVortexPlaying : World :=
  mkWorld false (startAudio initialAudio) vortexPos (Vector3.make #0 #0 #0)
    (mkMoveTarget #0 #0)
    (initialParticles (fun _ => 0) PARTICLE_COUNT 0)
    #0 (5 * PARTICLE_COUNT) [] 0 false.

(** * Properties *)

(** ** Evaluating the arithmetic on finite numbers *)

Ltac js_unfold :=
  cbn [JS.add JS.sub JS.neg JS.mul JS.div JS.min JS.max JS.lt JS.gt
       JS.sqrt JS.sin JS.cos JS.truthy JS.orElse JS.strictNotEqual
       JS.isFinite] in *.

(** Settles the tests on reals left by division and comparison, keeping the
    branches arithmetic cannot rule out. *)
Ltac js_cases :=
  repeat match goal with
  | |- context [Req_dec_T ?a ?b] =>
      destruct (Req_dec_T a b); try (exfalso; lra)
  | |- context [Rlt_dec ?a ?b] =>
      destruct (Rlt_dec a b); try (exfalso; lra)
  end.

Ltac js_eval := js_unfold; js_cases; js_unfold.

Lemma div_num (x y : R) : y <> 0 -> (#x / #y)%js = #(x / y).
Proof. intros Hy. js_unfold. destruct (Req_dec_T y 0); [contradiction | reflexivity]. Qed.

Lemma div_zero_pos (x : R) : 0 < x -> (#x / #0)%js = PosInf.
Proof. intros Hx. unfold JS.div, JS.signedInf. js_cases. reflexivity. Qed.

Lemma div_zero_neg (x : R) : x < 0 -> (#x / #0)%js = NegInf.
Proof. intros Hx. unfold JS.div, JS.signedInf. js_cases. reflexivity. Qed.

Lemma sqrt_num (x : R) : 0 <= x -> JS.sqrt #x = #(sqrt x).
Proof. intros Hx. js_eval. reflexivity. Qed.

Lemma lt_num_true (x y : R) : x < y -> JS.lt #x #y = true.
Proof. intros H. js_eval. reflexivity. Qed.

Lemma lt_num_false (x y : R) : y <= x -> JS.lt #x #y = false.
Proof. intros H. js_eval. reflexivity. Qed.

Lemma isFinite_num (a : number) : JS.isFinite a = true -> exists r, a = #r.
Proof. destruct a; try discriminate. intros _. now exists r. Qed.

Lemma Rmin_cases (a b : R) : (a <= b /\ Rmin a b = a) \/ (b < a /\ Rmin a b = b).
Proof. unfold Rmin. destruct (Rle_dec a b); [left | right]; split; lra. Qed.

Lemma Rmax_cases (a b : R) : (a <= b /\ Rmax a b = b) \/ (b < a /\ Rmax a b = a).
Proof. unfold Rmax. destruct (Rle_dec a b); [left | right]; split; lra. Qed.

(** Replaces every [Rmin] and [Rmax] by its value, case by case. *)
Ltac minmax_at a b cases :=
  let H := fresh in
  let E := fresh in
  destruct (cases a b) as [[H E] | [H E]]; rewrite E in *; clear E.

Ltac minmax :=
  repeat match goal with
  | |- context [Rmin ?a ?b] => minmax_at a b Rmin_cases
  | |- context [Rmax ?a ?b] => minmax_at a b Rmax_cases
  | _ : context [Rmin ?a ?b] |- _ => minmax_at a b Rmin_cases
  | _ : context [Rmax ?a ?b] |- _ => minmax_at a b Rmax_cases
  end.

(** ** C8: the vignette *)

Lemma vignette_num (d : R) :
  vignette #d = #((1 - Rmin 1 (Rmax 0 (d / 7))) * 0.92).
Proof.
  unfold vignette. js_eval. f_equal. 
  replace ((d + - 0) / (7 + - 0)) with (d / 7) by (f_equal; lra).
  lra.
Qed.

(** C8.  The vignette opacity is a clamped linear function of the distance:
    0.92 at distance 0, [0.92 * (1 - dist / 7)] between 0 and 7, and exactly
    0 from 7 on (at 14 for instance, and at [Infinity]); it is never
    negative.  Every frame stores its value at the distance from the sphere
    to the vortex. *)
Theorem vignette_clamped_ramp :
  vignette #0 = #0.92 /\
  (forall d : R, 0 <= d <= 7 -> vignette #d = #(0.92 * (1 - d / 7))) /\
  vignette #7 = #0 /\
  (forall d : R, 7 <= d -> vignette #d = #0) /\
  vignette #14 = #0 /\
  vignette PosInf = #0 /\
  (forall d : R, exists o : R, vignette #d = #o /\ 0 <= o <= 0.92) /\
  (forall (random : nat -> R) (time now : number) (w : World),
     vignetteOpacity (animate random time now w)
     = vignette (Vector3.length (Vector3.sub vortexPos (spherePosition w)))).
Proof.
  assert (Hin : forall d : R, 0 <= d <= 7 -> vignette #d = #(0.92 * (1 - d / 7))).
  { intros d Hd. rewrite vignette_num. f_equal. minmax; lra. }
  assert (Hout : forall d : R, 7 <= d -> vignette #d = #0).
  { intros d Hd. rewrite vignette_num. f_equal. minmax; lra. }
  repeat split.
  - rewrite Hin by lra. f_equal. lra.
  - exact Hin.
  - apply Hout. lra.
  - exact Hout.
  - apply Hout. lra.
  - unfold vignette. js_eval. f_equal. lra.
  - intros d. eexists. split; [apply vignette_num | minmax; lra].
  - intros random time now w. unfold animate.
    destruct (updateParticles random (particles w) (randomCalls w)).
    reflexivity.
Qed.

Lemma vignette_clamped_ramp_witness :
  vignette #3.5 = #(0.92 * (1 - 3.5 / 7)) /\ vignette #14 = #0.
Proof.
  split.
  - apply (proj1 (proj2 vignette_clamped_ramp)). lra.
  - apply (proj1 (proj2 (proj2 (proj2 vignette_clamped_ramp)))). lra.
Defined.

(** ** C9: the sign of the gravity coefficient *)

Lemma gravityK_num (d : R) :
  gravityK #d = #(5 + 1800 * Rmin 1 ((d - 10) / 400)).
Proof.
  unfold gravityK. js_eval. f_equal.
Qed.

Lemma gravStrength_num (d : R) :
  d <> 0 ->
  gravStrength #d = #((5 + 1800 * Rmin 1 ((d - 10) / 400)) / (d * d)).
Proof.
  intros Hd. unfold gravStrength. rewrite gravityK_num.
  cbn [JS.mul]. apply div_num. nra.
Qed.

Lemma length_num (a b c : R) :
  Vector3.length (Vector3.make #a #b #c) = #(sqrt (a * a + b * b + c * c)).
Proof.
  unfold Vector3.length. cbn [Vector3.x Vector3.y Vector3.z JS.mul JS.add].
  apply sqrt_num. nra.
Qed.

Lemma normalize_num (a b c : R) :
  let l := sqrt (a * a + b * b + c * c) in
  l <> 0 ->
  Vector3.normalize (Vector3.make #a #b #c)
  = Vector3.make #(a * (1 / l)) #(b * (1 / l)) #(c * (1 / l)).
Proof.
  intros l Hl. unfold Vector3.normalize. rewrite length_num. fold l.
  unfold JS.orElse, JS.truthy. destruct (Req_dec_T l 0); [contradiction |].
  unfold Vector3.divideScalar. rewrite div_num by assumption.
  reflexivity.
Qed.



(** ** C3: the speed clamp and the friction *)

Lemma sum_squares_sqrt (a b c : R) :
  sqrt (a * a + b * b + c * c) * sqrt (a * a + b * b + c * c)
  = a * a + b * b + c * c.
Proof. apply sqrt_sqrt. nra. Qed.

Lemma setLength_num (a b c m : R) :
  let l := sqrt (a * a + b * b + c * c) in
  l <> 0 ->
  Vector3.setLength (Vector3.make #a #b #c) #m
  = Vector3.make #(a * (1 / l) * m) #(b * (1 / l) * m) #(c * (1 / l) * m).
Proof.
  intros l Hl. unfold Vector3.setLength.
  rewrite normalize_num by exact Hl. reflexivity.
Qed.

Lemma rescaled_length (a b c m : R) :
  let l := sqrt (a * a + b * b + c * c) in
  l <> 0 -> 0 <= m ->
  sqrt (a * (1 / l) * m * (a * (1 / l) * m)
        + b * (1 / l) * m * (b * (1 / l) * m)
        + c * (1 / l) * m * (c * (1 / l) * m)) = m.
Proof.
  intros l Hl Hm.
  replace (a * (1 / l) * m * (a * (1 / l) * m)
           + b * (1 / l) * m * (b * (1 / l) * m)
           + c * (1 / l) * m * (c * (1 / l) * m))
    with (m * m * ((a * a + b * b + c * c) / (l * l))) by (field; exact Hl).
  rewrite <- (sum_squares_sqrt a b c). fold l.
  replace (l * l / (l * l)) with 1 by (field; exact Hl).
  rewrite Rmult_1_r. apply sqrt_square. exact Hm.
Qed.

Lemma clampSpeed_num (a b c : R) :
  let l := sqrt (a * a + b * b + c * c) in
  clampSpeed (Vector3.make #a #b #c)
  = if Rlt_dec 1.35 l
    then Vector3.make #(a * (1 / l) * 1.35) #(b * (1 / l) * 1.35)
                      #(c * (1 / l) * 1.35)
    else Vector3.make #a #b #c.
Proof.
  intros l. unfold clampSpeed, JS.gt, maxSpeed. rewrite length_num. fold l.
  cbn [JS.lt]. destruct (Rlt_dec 1.35 l) as [Hl | Hl]; [| reflexivity].
  apply setLength_num. fold l. lra.
Qed.

(** C3, as stated, fails: the clamp does not handle every magnitude.  A
    velocity with an infinite component has an infinite length, which
    exceeds [maxSpeed]; [setLength] then multiplies by [1 / Infinity] = 0,
    and [Infinity * 0] is [NaN]: the velocity after the clamp, and after the
    friction, has no magnitude at all, neither [maxSpeed] nor below it. *)
Lemma clampSpeed_infinite_velocity :
  let v := Vector3.make PosInf #0 #0 in
  JS.gt (Vector3.length v) maxSpeed = true /\
  clampSpeed v = Vector3.make NaN #0 #0 /\
  Vector3.length (clampSpeed v) = NaN /\
  JS.gt (Vector3.length (clampSpeed v)) maxSpeed = false /\
  ~ (exists m : R, Vector3.length (clampSpeed v) = #m /\ m <= 1.35) /\
  applyFriction (clampSpeed v) = Vector3.make NaN #0 #0.
Proof.
  intros v.
  assert (Hlen : Vector3.length v = PosInf).
  { unfold v, Vector3.length. cbn [Vector3.x Vector3.y Vector3.z JS.mul JS.add].
    reflexivity. }
  assert (Hc : clampSpeed v = Vector3.make NaN #0 #0).
  { unfold clampSpeed. rewrite Hlen. cbn [JS.gt JS.lt maxSpeed].
    unfold Vector3.setLength, Vector3.normalize. rewrite Hlen.
    unfold JS.orElse. cbn [JS.truthy].
    unfold Vector3.divideScalar, Vector3.multiplyScalar, v.
    cbn [Vector3.x Vector3.y Vector3.z JS.div JS.mul].
    unfold JS.signedInf. js_cases. unfold maxSpeed.
    f_equal; f_equal; lra. }
  assert (Hn : Vector3.length (Vector3.make NaN #0 #0) = NaN) by reflexivity.
  split; [rewrite Hlen; reflexivity |].
  split; [exact Hc |]. rewrite Hc, Hn.
  split; [reflexivity |]. split; [reflexivity |].
  split; [intros (m & E & _); discriminate E |].
  unfold applyFriction, Vector3.multiplyScalar, friction.
  cbn [Vector3.x Vector3.y Vector3.z JS.mul]. f_equal; f_equal; lra.
Qed.

(** C3, amended.  Whatever velocity [(a, b, c)] with components within
    [squarableRange] reaches the clamp: after the clamp its magnitude is at
    most [maxSpeed] (1.35); when its magnitude [l] exceeded [maxSpeed] the
    velocity has been rescaled by the positive factor [maxSpeed / l], so its
    direction is kept and its magnitude is exactly [maxSpeed]; otherwise it
    is unchanged.  In every frame, for every state, the velocity stored is
    the clamped velocity multiplied by the constant [friction] = 0.992 < 1,
    with no condition. *)
Theorem clampSpeed_then_friction :
  (forall a b c : R,
     Rabs a <= squarableRange -> Rabs b <= squarableRange ->
     Rabs c <= squarableRange ->
     let v := Vector3.make #a #b #c in
     let l := sqrt (a * a + b * b + c * c) in
     (exists m : R, Vector3.length (clampSpeed v) = #m /\ m <= 1.35) /\
     (1.35 < l ->
        clampSpeed v
        = Vector3.make #(1.35 / l * a) #(1.35 / l * b) #(1.35 / l * c) /\
        0 < 1.35 / l /\
        Vector3.length (clampSpeed v) = maxSpeed) /\
     (l <= 1.35 -> clampSpeed v = v)) /\
  (forall (random : nat -> R) (time now : number) (w : World),
     sphereVelocity (animate random time now w)
     = Vector3.multiplyScalar
         (clampSpeed
            (accelerate time (moveTarget w) (spherePosition w)
               (sphereVelocity w)))
         friction) /\
  (exists f : R, friction = #f /\ 0 < f < 1).
Proof.
  split; [| split].
  - intros a b c _ _ _ v l.
    assert (Hl0 : 0 <= l) by apply sqrt_pos.
    unfold v. rewrite clampSpeed_num. fold l.
    destruct (Rlt_dec 1.35 l) as [Hl | Hl].
    + assert (Hlen : Vector3.length
                (Vector3.make #(a * (1 / l) * 1.35) #(b * (1 / l) * 1.35)
                   #(c * (1 / l) * 1.35)) = #1.35).
      { rewrite length_num. f_equal.
        apply (rescaled_length a b c 1.35); fold l; lra. }
      split; [exists 1.35; split; [exact Hlen | lra] |].
      split; [| intros; lra].
      intros _. split; [| split].
      * f_equal; f_equal; field; lra.
      * apply Rdiv_lt_0_compat; lra.
      * exact Hlen.
    + split; [exists l; split; [apply length_num | lra] |].
      split; [intros; lra | reflexivity].
  - intros random time now w. unfold animate.
    destruct (updateParticles random (particles w) (randomCalls w)).
    reflexivity.
  - exists 0.992. split; [reflexivity | lra].
Qed.

Lemma clampSpeed_then_friction_witness :
  clampSpeed (Vector3.make #3 #0 #4)
  = Vector3.make #(1.35 / sqrt (3 * 3 + 0 * 0 + 4 * 4) * 3)
      #(1.35 / sqrt (3 * 3 + 0 * 0 + 4 * 4) * 0)
      #(1.35 / sqrt (3 * 3 + 0 * 0 + 4 * 4) * 4) /\
  Vector3.length (clampSpeed (Vector3.make #3 #0 #4)) = maxSpeed.
Proof.
  assert (H : 1.35 < sqrt (3 * 3 + 0 * 0 + 4 * 4)).
  { replace (3 * 3 + 0 * 0 + 4 * 4) with (5 * 5) by lra.
    rewrite sqrt_square; lra. }
  assert (R3 : Rabs 3 <= squarableRange)
    by (unfold squarableRange; rewrite Rabs_pos_eq; lra).
  assert (R0 : Rabs 0 <= squarableRange)
    by (unfold squarableRange; rewrite Rabs_R0; lra).
  assert (R4 : Rabs 4 <= squarableRange)
    by (unfold squarableRange; rewrite Rabs_pos_eq; lra).
  destruct (proj1 (proj2 (proj1 clampSpeed_then_friction 3 0 4 R3 R0 R4)) H)
    as (E & _ & L).
  split; [exact E | exact L].
Defined.

(** ** C1: the gravity of the sphere divides by the raw distance *)

Lemma finite_vector (v : Vector3.t) :
  Vector3.isFinite v = true ->
  exists a b c : R, v = Vector3.make #a #b #c.
Proof.
  destruct v as [[a | | |] [b | | |] [c | | |]]; try discriminate.
  intros _. now exists a, b, c.
Qed.

Lemma normalize_finite (a b c : R) :
  exists a' b' c' : R,
    Vector3.normalize (Vector3.make #a #b #c) = Vector3.make #a' #b' #c'.
Proof.
  unfold Vector3.normalize. rewrite length_num.
  unfold JS.orElse, JS.truthy, Vector3.divideScalar.
  destruct (Req_dec_T (sqrt (a * a + b * b + c * c)) 0) as [E | E].
  - rewrite div_num by lra. do 3 eexists. reflexivity.
  - rewrite div_num by exact E. do 3 eexists. reflexivity.
Qed.

Lemma noise_finite (t d : R) :
  exists a b c : R, noise #t #d = Vector3.make #a #b #c.
Proof.
  unfold noise, noiseAmplitude, noiseAngle. js_eval.
  do 3 eexists. reflexivity.
Qed.

Lemma toVortex_num (px py pz : R) :
  Vector3.sub vortexPos (Vector3.make #px #py #pz)
  = Vector3.make #(0 - px) #(0 - py) #(-18 - pz).
Proof. reflexivity. Qed.

Lemma square_pos (a : R) : a <> 0 -> 0 < a * a.
Proof. intros Ha. destruct (Rdichotomy _ _ Ha); nra. Qed.

Lemma sum_squares_pos (a b c : R) :
  a <> 0 \/ b <> 0 \/ c <> 0 -> 0 < a * a + b * b + c * c.
Proof.
  pose proof (Rle_0_sqr a) as Ha. pose proof (Rle_0_sqr b) as Hb.
  pose proof (Rle_0_sqr c) as Hc. unfold Rsqr in *.
  intros [H | [H | H]]; apply square_pos in H; lra.
Qed.

(** The distance is zero only at the vortex itself. *)
Lemma distance_positive (px py pz : R) :
  Vector3.make #px #py #pz <> vortexPos ->
  0 < sqrt ((0 - px) * (0 - px) + (0 - py) * (0 - py)
            + (-18 - pz) * (-18 - pz)).
Proof.
  intros Hne. apply sqrt_lt_R0, sum_squares_pos.
  destruct (Req_dec_T px 0) as [Ex | Ex]; [| left; lra].
  destruct (Req_dec_T py 0) as [Ey | Ey]; [| right; left; lra].
  destruct (Req_dec_T pz (-18)) as [Ez | Ez]; [| right; right; lra].
  exfalso. apply Hne. unfold vortexPos. now rewrite Ex, Ey, Ez.
Qed.

Lemma accelerate_finite (t mx mz px py pz vx vy vz : R) :
  Vector3.make #px #py #pz <> vortexPos ->
  exists a b c : R,
    accelerate #t (mkMoveTarget #mx #mz) (Vector3.make #px #py #pz)
      (Vector3.make #vx #vy #vz)
    = Vector3.make #a #b #c.
Proof.
  intros Hne. pose proof (distance_positive px py pz Hne) as Hd.
  unfold accelerate. rewrite toVortex_num, length_num.
  rewrite normalize_num by lra.
  rewrite gravStrength_num by lra.
  destruct (noise_finite t
              (sqrt ((0 - px) * (0 - px) + (0 - py) * (0 - py)
                     + (-18 - pz) * (-18 - pz)))) as (na & nb & nc & ->).
  cbn [moveX moveZ].
  destruct (normalize_finite mx 0 mz) as (ma & mb & mc & ->).
  destruct (JS.strictNotEqual #mx #0 || JS.strictNotEqual #mz #0);
    do 3 eexists; reflexivity.
Qed.

Lemma gravityK_bounds (d : R) :
  0 < d -> -40 < 5 + 1800 * Rmin 1 ((d - 10) / 400) <= 1805.
Proof. intros Hd. minmax; lra. Qed.

(** C1, as stated, fails: nothing clamps the distance.  With the sphere on
    the vortex the distance is 0, the force is [-Infinity], and after the
    frame both the velocity and the position of the sphere are [NaN]. *)
Lemma gravity_not_finite_on_vortex :
  Vector3.length (Vector3.sub vortexPos (spherePosition sphereOnVortex)) = #0 /\
  gravStrength #0 = NegInf /\
  sphereVelocity (animate (fun _ => 0) #0 #0 sphereOnVortex)
    = Vector3.make NaN NaN NaN /\
  spherePosition (animate (fun _ => 0) #0 #0 sphereOnVortex)
    = Vector3.make NaN NaN NaN.
Proof.
  assert (Hlen : Vector3.length (Vector3.sub vortexPos vortexPos) = #0).
  { unfold vortexPos at 2. rewrite toVortex_num, length_num. f_equal.
    replace ((0 - 0) * (0 - 0) + (0 - 0) * (0 - 0)
             + (-18 - -18) * (-18 - -18)) with 0 by lra.
    apply sqrt_0. }
  assert (Hg : gravStrength #0 = NegInf).
  { unfold gravStrength. rewrite gravityK_num. cbn [JS.mul].
    unfold JS.div, JS.signedInf.
    destruct (Req_dec_T (0 * 0) 0) as [_ | E]; [| exfalso; lra].
    destruct (Rlt_dec 0 (5 + 1800 * Rmin 1 ((0 - 10) / 400))) as [H | _].
    { exfalso. revert H. minmax; lra. }
    destruct (Rlt_dec (5 + 1800 * Rmin 1 ((0 - 10) / 400)) 0) as [_ | H];
      [reflexivity |].
    exfalso. apply H. minmax; lra. }
  assert (Hdir : Vector3.normalize (Vector3.sub vortexPos vortexPos)
                 = Vector3.make #((0 - 0) * (1 / 1)) #((0 - 0) * (1 / 1))
                     #((-18 - -18) * (1 / 1))).
  { unfold Vector3.normalize. rewrite Hlen.
    unfold JS.orElse, JS.truthy.
    destruct (Req_dec_T 0 0) as [_ | E]; [| exfalso; lra].
    unfold Vector3.divideScalar. rewrite div_num by lra. reflexivity. }
  assert (Hv : accelerate #0 (mkMoveTarget #0 #0) vortexPos
                 (Vector3.make #0 #0 #0) = Vector3.make NaN NaN NaN).
  { unfold accelerate. rewrite Hlen, Hg, Hdir.
    unfold Vector3.addScaledVector, Vector3.add.
    cbn [Vector3.x Vector3.y Vector3.z moveX moveZ JS.mul JS.strictNotEqual].
    unfold JS.signedInf. js_cases. cbn. reflexivity. }
  split; [exact Hlen | split; [exact Hg |]].
  unfold animate.
  destruct (updateParticles _ (particles sphereOnVortex) _).
  cbn [sphereVelocity spherePosition]. cbn [sphereOnVortex sphereVelocity spherePosition moveTarget].
  rewrite Hv. split; reflexivity.
Qed.

Lemma gravStrength_small_distance (d : R) :
  0 < d <= 1 ->
  (5 + 1800 * Rmin 1 ((d - 10) / 400)) / (d * d) <= - 35.5 / (d * d).
Proof.
  intros Hd. unfold Rdiv. apply Rmult_le_compat_r.
  - left. apply Rinv_0_lt_compat. nra.
  - minmax; lra.
Qed.

Lemma axisValue_num (a : number) :
  axisValue a -> exists r : R, a = #r /\ -1 <= r <= 1.
Proof.
  intros [-> | [-> | ->]]; eexists; (split; [reflexivity | lra]).
Qed.

Lemma moveTarget_num (m : MoveTarget) :
  axisValue (moveX m) -> axisValue (moveZ m) ->
  exists mx mz : R, m = mkMoveTarget #mx #mz.
Proof.
  intros Hx Hz. destruct m as [a b]. cbn [moveX moveZ] in Hx, Hz.
  destruct (axisValue_num _ Hx) as (mx & -> & _).
  destruct (axisValue_num _ Hz) as (mz & -> & _).
  now exists mx, mz.
Qed.

Lemma sphereDistance_num (w : World) (px py pz : R) :
  spherePosition w = Vector3.make #px #py #pz ->
  sphereDistance w
  = #(sqrt ((0 - px) * (0 - px) + (0 - py) * (0 - py)
            + (-18 - pz) * (-18 - pz))).
Proof.
  intros Ep. unfold sphereDistance. now rewrite Ep, toVortex_num, length_num.
Qed.

(** A sphere measured at a positive distance is not on the vortex. *)
Lemma off_vortex (px py pz : R) :
  0 < sqrt ((0 - px) * (0 - px) + (0 - py) * (0 - py)
            + (-18 - pz) * (-18 - pz)) ->
  Vector3.make #px #py #pz <> vortexPos.
Proof.
  intros Hd E. unfold vortexPos in E. injection E as -> -> ->.
  replace ((0 - 0) * (0 - 0) + (0 - 0) * (0 - 0) + (-18 - -18) * (-18 - -18))
    with 0 in Hd by lra.
  rewrite sqrt_0 in Hd. lra.
Qed.

Lemma inWorkingRange_num (w : World) :
  inWorkingRange w ->
  exists px py pz vx vy vz mx mz : R,
    spherePosition w = Vector3.make #px #py #pz /\
    sphereVelocity w = Vector3.make #vx #vy #vz /\
    moveTarget w = mkMoveTarget #mx #mz /\
    nearestDistance
    <= sqrt ((0 - px) * (0 - px) + (0 - py) * (0 - py)
             + (-18 - pz) * (-18 - pz)).
Proof.
  intros ((px & py & pz & Ep & _) & (vx & vy & vz & Ev & _) & Hx & Hz
          & d & Ed & Hd).
  destruct (moveTarget_num _ Hx Hz) as (mx & mz & Em).
  exists px, py, pz, vx, vy, vz, mx, mz.
  rewrite (sphereDistance_num w px py pz Ep) in Ed. injection Ed as Ed.
  repeat split; try assumption. now rewrite Ed.
Qed.

(** C1, amended.  The force is [K / dist^2] with the distance as measured,
    not clamped.  At every distance between [nearestDistance] and
    [workingRange] it is finite, of magnitude at most [1805 / dist^2], hence
    at most 35.5 once [dist >= 1]; nearer than 1 the magnitude is at least
    [35.5 / dist^2], above 3.5e13 at [nearestDistance], so no bound holds for
    all positions.  In a frame that starts within the working range
    (position and velocity within [workingRange], a key state of the
    handlers, the sphere at least [nearestDistance] from the vortex) and
    with a finite time, the updated velocity and position are finite. *)
Theorem gravity_finite_off_vortex :
  (forall dist : number,
     gravStrength dist = (gravityK dist / (dist * dist))%js) /\
  (forall d : R, nearestDistance <= d <= workingRange ->
     exists g : R, gravStrength #d = #g /\ Rabs g <= 1805 / (d * d)) /\
  (forall d : R, 1 <= d <= workingRange ->
     exists g : R, gravStrength #d = #g /\ Rabs g <= 35.5) /\
  (forall d : R, nearestDistance <= d <= 1 ->
     exists g : R, gravStrength #d = #g /\ g < 0 /\ 35.5 / (d * d) <= Rabs g) /\
  (exists g : R, gravStrength #nearestDistance = #g /\ 3.5e13 <= Rabs g) /\
  (forall (random : nat -> R) (time now : number) (w : World),
     JS.isFinite time = true ->
     inWorkingRange w ->
     Vector3.isFinite (sphereVelocity (animate random time now w)) = true /\
     Vector3.isFinite (spherePosition (animate random time now w)) = true).
Proof.
  assert (Hnear : forall d : R, nearestDistance <= d <= 1 ->
            exists g : R,
              gravStrength #d = #g /\ g < 0 /\ 35.5 / (d * d) <= Rabs g).
  { intros d Hd. unfold nearestDistance in Hd.
    eexists. split; [apply gravStrength_num; lra |].
    pose proof (gravStrength_small_distance d ltac:(lra)) as Hs.
    assert (Hdd : 0 < d * d) by nra.
    assert (Hq : 0 < / (d * d)) by now apply Rinv_0_lt_compat.
    set (g := (5 + 1800 * Rmin 1 ((d - 10) / 400)) / (d * d)) in *.
    unfold Rdiv in Hs |- *. set (q := / (d * d)) in *.
    split; [lra |]. rewrite Rabs_left1 by lra. lra. }
  split; [reflexivity |].
  split; [| split; [| split; [exact Hnear | split]]].
  - intros d Hd. unfold nearestDistance in Hd.
    assert (Hd0 : 0 < d) by lra.
    eexists. split; [apply gravStrength_num; lra |].
    pose proof (gravityK_bounds d Hd0) as HK.
    assert (Hdd : 0 < d * d) by nra.
    unfold Rdiv. rewrite Rabs_mult, (Rabs_pos_eq (/ (d * d))).
    + apply Rmult_le_compat_r.
      * left. now apply Rinv_0_lt_compat.
      * apply Rabs_le. lra.
    + left. now apply Rinv_0_lt_compat.
  - intros d [Hd _]. eexists. split; [apply gravStrength_num; lra |].
    assert (Hdd : 0 < d * d) by nra.
    apply Rabs_le. split.
    + apply Rmult_le_reg_r with (d * d); [exact Hdd |].
      unfold Rdiv. rewrite Rmult_assoc, Rinv_l, Rmult_1_r by lra.
      minmax; nra.
    + apply Rmult_le_reg_r with (d * d); [exact Hdd |].
      unfold Rdiv. rewrite Rmult_assoc, Rinv_l, Rmult_1_r by lra.
      minmax; nra.
  - destruct (Hnear nearestDistance) as (g & Eg & _ & Hg).
    { unfold nearestDistance. lra. }
    exists g. split; [exact Eg |].
    unfold nearestDistance in Hg.
    replace (35.5 / (1e-6 * 1e-6)) with 3.55e13 in Hg by lra. lra.
  - intros random time now w Ht Hw.
    destruct (isFinite_num _ Ht) as (t & ->).
    destruct (inWorkingRange_num w Hw)
      as (px & py & pz & vx & vy & vz & mx & mz & Ep & Ev & Em & Hd).
    unfold nearestDistance in Hd.
    assert (Hne : Vector3.make #px #py #pz <> vortexPos)
      by (apply off_vortex; lra).
    unfold animate.
    destruct (updateParticles random (particles w) (randomCalls w)).
    cbn [sphereVelocity spherePosition].
    rewrite Em, Ep, Ev.
    destruct (accelerate_finite t mx mz px py pz vx vy vz Hne)
      as (a & b & c & ->).
    rewrite clampSpeed_num.
    destruct (Rlt_dec 1.35 (sqrt (a * a + b * b + c * c)));
      split; reflexivity.
Qed.

Lemma initialWorld_inWorkingRange (random : nat -> R) :
  inWorkingRange (initialWorld random).
Proof.
  unfold inWorkingRange, componentsWithin, workingRange, nearestDistance.
  cbn [initialWorld spherePosition sphereVelocity moveTarget moveX moveZ].
  split; [exists 0, 0, 1000 | split; [exists 0, 0, 0 | split; [| split]]].
  - rewrite Rabs_R0, Rabs_pos_eq by lra. repeat split; lra.
  - rewrite Rabs_R0. repeat split; lra.
  - right. now left.
  - right. now left.
  - eexists. split.
    + apply sphereDistance_num. reflexivity.
    + replace ((0 - 0) * (0 - 0) + (0 - 0) * (0 - 0)
               + (-18 - 1000) * (-18 - 1000)) with (1018 * 1018) by lra.
      rewrite sqrt_square; lra.
Qed.

Lemma gravity_finite_off_vortex_witness :
  (exists g : R, gravStrength #2 = #g /\ Rabs g <= 35.5) /\
  (exists g : R,
     gravStrength #0.5 = #g /\ g < 0 /\ 35.5 / (0.5 * 0.5) <= Rabs g) /\
  Vector3.isFinite
    (sphereVelocity (animate (fun _ => 0) #0 #0 (initialWorld (fun _ => 0))))
  = true.
Proof.
  split; [| split].
  - apply (proj1 (proj2 (proj2 gravity_finite_off_vortex))).
    unfold workingRange. lra.
  - apply (proj1 (proj2 (proj2 (proj2 gravity_finite_off_vortex)))).
    unfold nearestDistance. lra.
  - apply (proj2 (proj2 (proj2 (proj2 (proj2 gravity_finite_off_vortex))))).
    + reflexivity.
    + apply initialWorld_inWorkingRange.
Defined.

(** ** C4: the particle loop *)

Lemma attract_num (d : R) :
  0 < d ->
  attract #d
  = #(Rmax 0.015 (Rmin 0.07 (0.011 + 0.18 / (d * d)))
      * (if Rlt_dec d 23 then 1.6 else 1)).
Proof.
  intros Hd. unfold attract. cbn [JS.mul].
  rewrite div_num by nra. cbn [JS.add JS.min JS.max JS.lt].
  destruct (Rlt_dec d 23); cbn [JS.mul]; f_equal; lra.
Qed.

Lemma attract_range (d : R) :
  0.015 <= Rmax 0.015 (Rmin 0.07 (0.011 + 0.18 / (d * d))) <= 0.07.
Proof. minmax; lra. Qed.

(** On the vortex itself the quotient is [Infinity] and the clamp brings it
    back to its upper bound. *)
Lemma attract_zero : attract #0 = #(0.07 * 1.6).
Proof.
  unfold attract. cbn [JS.mul].
  replace (0 * 0) with 0 by lra. rewrite div_zero_pos by lra.
  cbn [JS.add JS.min JS.max JS.lt]. js_cases. cbn [JS.mul]. f_equal.
  minmax; lra.
Qed.

Lemma spawn_in_volume (random : nat -> R) (k : nat) :
  (forall n, 0 <= random n < 1) ->
  exists X Y Z : R,
    spawn random k = Vector3.make #X #Y #Z /\
    X = (random k - 0.5) * 1500 /\
    Y = (random (k + 1)%nat - 0.5) * 1500 * 0.5 /\
    Z = (random (k + 2)%nat - 0.5) * 1500 - 10 /\
    -750 <= X < 750 /\ -375 <= Y < 375 /\ -760 <= Z < 740.
Proof.
  intros Hr.
  pose proof (Hr k). pose proof (Hr (k + 1)%nat). pose proof (Hr (k + 2)%nat).
  do 3 eexists. split; [reflexivity |].
  repeat split; lra.
Qed.

(** Every point of the spawn volume is the image of exactly one triple of
    draws: the draw-to-position map is an affine bijection from the unit
    cube, so uniform draws give a uniform position. *)
Lemma spawn_onto_volume (X Y Z : R) :
  -750 <= X < 750 -> -375 <= Y < 375 -> -760 <= Z < 740 ->
  exists u1 u2 u3 : R,
    0 <= u1 < 1 /\ 0 <= u2 < 1 /\ 0 <= u3 < 1 /\
    (forall (random : nat -> R) (k : nat),
       random k = u1 -> random (k + 1)%nat = u2 -> random (k + 2)%nat = u3 ->
       spawn random k = Vector3.make #X #Y #Z) /\
    (forall v1 v2 v3 : R,
       (v1 - 0.5) * 1500 = X -> (v2 - 0.5) * 1500 * 0.5 = Y ->
       (v3 - 0.5) * 1500 - 10 = Z ->
       v1 = u1 /\ v2 = u2 /\ v3 = u3).
Proof.
  intros HX HY HZ.
  exists (X / 1500 + 0.5), (Y / 750 + 0.5), ((Z + 10) / 1500 + 0.5).
  split; [lra |]. split; [lra |]. split; [lra |]. split.
  - intros random k E1 E2 E3. unfold spawn, RANGE. rewrite E1, E2, E3.
    js_unfold. f_equal; f_equal; lra.
  - intros v1 v2 v3 H1 H2 H3. repeat split; lra.
Qed.

Lemma updateParticle_recycles (random : nat -> R) (px py pz vx vy vz : R) (k : nat) :
  sqrt ((0 - px) * (0 - px) + (0 - py) * (0 - py) + (-18 - pz) * (-18 - pz))
    < 3.5 ->
  updateParticle random
    (mkParticle (Vector3.make #px #py #pz) (Vector3.make #vx #vy #vz)) k
  = (mkParticle (spawn random k) (Vector3.make #0 #0 #0), (k + 3)%nat).
Proof.
  intros Hd. unfold updateParticle. cbn [position velocity].
  rewrite toVortex_num, length_num. rewrite lt_num_true by exact Hd.
  reflexivity.
Qed.

Lemma updateParticle_moves (random : nat -> R) (px py pz vx vy vz : R) (k : nat) :
  let tx := 0 - px in
  let ty := 0 - py in
  let tz := -18 - pz in
  let d := sqrt (tx * tx + ty * ty + tz * tz) in
  let A := Rmax 0.015 (Rmin 0.07 (0.011 + 0.18 / (d * d)))
           * (if Rlt_dec d 23 then 1.6 else 1) in
  3.5 <= d ->
  updateParticle random
    (mkParticle (Vector3.make #px #py #pz) (Vector3.make #vx #vy #vz)) k
  = (mkParticle
       (Vector3.make #(px + (vx + tx * (1 / d) * A) * 0.97)
                     #(py + (vy + ty * (1 / d) * A) * 0.97)
                     #(pz + (vz + tz * (1 / d) * A) * 0.97))
       (Vector3.make #((vx + tx * (1 / d) * A) * 0.97)
                     #((vy + ty * (1 / d) * A) * 0.97)
                     #((vz + tz * (1 / d) * A) * 0.97)),
     k).
Proof.
  intros tx ty tz d A Hd. unfold updateParticle. cbn [position velocity].
  rewrite toVortex_num, length_num. fold tx ty tz d.
  rewrite lt_num_false by exact Hd.
  rewrite normalize_num by (fold d; lra). fold d.
  rewrite attract_num by lra. fold A.
  reflexivity.
Qed.

Lemma updateParticles_length (random : nat -> R) (qs : list Particle) (k : nat) :
  List.length (fst (updateParticles random qs k)) = List.length qs.
Proof.
  revert k. induction qs as [| q rest IH]; intros k; [reflexivity |].
  cbn [updateParticles].
  destruct (updateParticle random q k) as [q' k'].
  specialize (IH k').
  destruct (updateParticles random rest k') as [rest' k''].
  cbn [fst List.length] in *. now rewrite IH.
Qed.

(** Particle [i] of the pool after the loop is the loop body applied to
    particle [i] before it, with the draws not yet consumed. *)
Lemma updateParticles_nth (random : nat -> R) (qs : list Particle) (k i : nat)
    (q : Particle) :
  nth_error qs i = Some q ->
  exists k' : nat,
    (k <= k')%nat /\
    nth_error (fst (updateParticles random qs k)) i
    = Some (fst (updateParticle random q k')).
Proof.
  revert k i. induction qs as [| q0 rest IH]; intros k i Hq.
  - destruct i; discriminate.
  - cbn [updateParticles].
    destruct (updateParticle random q0 k) as [q' k1] eqn:E0.
    assert (Hk1 : (k <= k1)%nat).
    { unfold updateParticle in E0.
      destruct (JS.lt _ _) in E0; injection E0 as _ <-; lia. }
    destruct i as [| i].
    + injection Hq as ->. exists k. split; [lia |].
      destruct (updateParticles random rest k1).
      cbn [fst nth_error]. now rewrite E0.
    + cbn [nth_error] in Hq.
      destruct (IH k1 i Hq) as (k' & Hk' & Hn).
      exists k'. split; [lia |].
      destruct (updateParticles random rest k1).
      cbn [fst nth_error] in *. exact Hn.
Qed.

Lemma animate_particles (random : nat -> R) (time now : number) (w : World) :
  particles (animate random time now w)
  = fst (updateParticles random (particles w) (randomCalls w)).
Proof.
  unfold animate.
  destruct (updateParticles random (particles w) (randomCalls w)).
  reflexivity.
Qed.

Lemma initialParticles_length (random : nat -> R) (n k : nat) :
  List.length (initialParticles random n k) = n.
Proof.
  revert k. induction n as [| n IH]; intros k; [reflexivity |].
  cbn [initialParticles List.length]. now rewrite IH.
Qed.

Lemma handle_particles_length (random : nat -> R) (e : event) (w : World) :
  List.length (particles (handle random e w)) = List.length (particles w).
Proof.
  destruct e as [code | code | time now]; cbn [handle]; try reflexivity.
  rewrite animate_particles. apply updateParticles_length.
Qed.

Lemma run_particles_length (random : nat -> R) (es : list event) (w : World) :
  List.length (particles (run random es w)) = List.length (particles w).
Proof.
  revert w. induction es as [| e rest IH]; intros w; [reflexivity |].
  unfold run. cbn [fold_left]. fold (run random rest (handle random e w)).
  now rewrite IH, handle_particles_length.
Qed.

(** C4.  In every frame the loop body rewrites every particle of the pool
    and the pool keeps its size, [PARTICLE_COUNT] throughout a session.  For
    a particle at distance [d] from the
    vortex before the update: the attraction is
    [max(0.015, min(0.07, 0.011 + 0.18 / d^2))], times 1.6 when [d < 23], and
    the vector added to the velocity has exactly that magnitude and points
    to the vortex; when [d >= 3.5] the new velocity is 0.97 times that sum
    and the new position is the old one plus the new velocity; when
    [d < 3.5] the particle is recycled: its velocity is exactly zero and its
    position is the affine image of three [Math.random()] draws, inside the
    spawn volume [[-750, 750) x [-375, 375) x [-760, 740)]. *)
Theorem particle_update_law (random : nat -> R) :
  (forall n, 0 <= random n < 1) ->
  (forall es : list event,
     List.length (particles (run random es (initialWorld random)))
       = PARTICLE_COUNT) /\
  (forall (time now : number) (w : World),
     List.length (particles (animate random time now w))
       = List.length (particles w) /\
     forall (i : nat) (q : Particle),
       nth_error (particles w) i = Some q ->
       exists k : nat,
         nth_error (particles (animate random time now w)) i
         = Some (fst (updateParticle random q k))) /\
  (forall (px py pz vx vy vz : R) (k : nat),
     let tx := 0 - px in
     let ty := 0 - py in
     let tz := -18 - pz in
     let d := sqrt (tx * tx + ty * ty + tz * tz) in
     let A := Rmax 0.015 (Rmin 0.07 (0.011 + 0.18 / (d * d)))
              * (if Rlt_dec d 23 then 1.6 else 1) in
     let q := mkParticle (Vector3.make #px #py #pz) (Vector3.make #vx #vy #vz) in
     Vector3.length (Vector3.sub vortexPos (position q)) = #d /\
     (0 < d ->
        attract #d = #A /\
        Vector3.multiplyScalar
          (Vector3.normalize (Vector3.sub vortexPos (position q))) (attract #d)
        = Vector3.make #(A / d * tx) #(A / d * ty) #(A / d * tz) /\
        Vector3.length
          (Vector3.multiplyScalar
             (Vector3.normalize (Vector3.sub vortexPos (position q)))
             (attract #d)) = #A) /\
     (3.5 <= d ->
        updateParticle random q k
        = (mkParticle
             (Vector3.make #(px + 0.97 * (vx + A / d * tx))
                           #(py + 0.97 * (vy + A / d * ty))
                           #(pz + 0.97 * (vz + A / d * tz)))
             (Vector3.make #(0.97 * (vx + A / d * tx))
                           #(0.97 * (vy + A / d * ty))
                           #(0.97 * (vz + A / d * tz))),
           k)) /\
     (d < 3.5 ->
        exists X Y Z : R,
          updateParticle random q k
          = (mkParticle (Vector3.make #X #Y #Z) (Vector3.make #0 #0 #0),
             (k + 3)%nat) /\
          X = (random k - 0.5) * 1500 /\
          Y = (random (k + 1)%nat - 0.5) * 1500 * 0.5 /\
          Z = (random (k + 2)%nat - 0.5) * 1500 - 10 /\
          -750 <= X < 750 /\ -375 <= Y < 375 /\ -760 <= Z < 740)).
Proof.
  intros Hr. split; [| split].
  - intros es. rewrite run_particles_length.
    apply initialParticles_length.
  - intros time now w. rewrite animate_particles. split.
    + apply updateParticles_length.
    + intros i q Hq.
      destruct (updateParticles_nth random _ (randomCalls w) i q Hq)
        as (k & _ & Hk).
      now exists k.
  - intros px py pz vx vy vz k tx ty tz d A q.
    unfold q. clear q. cbn [position].
    rewrite toVortex_num, length_num. fold tx ty tz d.
    split; [reflexivity |]. split; [| split].
    + intros Hd. rewrite attract_num by exact Hd. fold A.
      split; [reflexivity |].
      rewrite normalize_num by (fold d; lra). fold d.
      assert (HA : 0 <= A).
      { unfold A. pose proof (attract_range d).
        destruct (Rlt_dec d 23); nra. }
      split.
      * unfold Vector3.multiplyScalar.
        cbn [Vector3.x Vector3.y Vector3.z JS.mul].
        f_equal; f_equal; field; lra.
      * unfold Vector3.multiplyScalar.
        cbn [Vector3.x Vector3.y Vector3.z JS.mul].
        rewrite length_num. f_equal.
        apply (rescaled_length tx ty tz A); [fold d; lra | exact HA].
    + intros Hd.
      rewrite (updateParticle_moves random px py pz vx vy vz k) by exact Hd.
      fold tx ty tz d A.
      f_equal. f_equal; f_equal; f_equal; field; lra.
    + intros Hd.
      rewrite (updateParticle_recycles random px py pz vx vy vz k) by exact Hd.
      destruct (spawn_in_volume random k Hr)
        as (X & Y & Z & -> & HX & HY & HZ & Hb).
      exists X, Y, Z. split; [reflexivity |]. tauto.
Qed.

Lemma particle_update_law_witness :
  let random := fun _ : nat => 0 in
  (forall n, 0 <= random n < 1) /\
  (exists X Y Z : R,
     updateParticle random
       (mkParticle (Vector3.make #0 #0 #(-18)) (Vector3.make #0 #0 #0)) 0
     = (mkParticle (Vector3.make #X #Y #Z) (Vector3.make #0 #0 #0), 3%nat) /\
     X = (random 0%nat - 0.5) * 1500 /\
     Y = (random 1%nat - 0.5) * 1500 * 0.5 /\
     Z = (random 2%nat - 0.5) * 1500 - 10 /\
     -750 <= X < 750 /\ -375 <= Y < 375 /\ -760 <= Z < 740).
Proof.
  intros random.
  assert (Hr : forall n, 0 <= random n < 1) by (intros n; unfold random; lra).
  split; [exact Hr |].
  apply (proj2 (proj2 (particle_update_law random Hr)) 0 0 (-18) 0 0 0 0%nat).
  replace ((0 - 0) * (0 - 0) + (0 - 0) * (0 - 0) + (-18 - -18) * (-18 - -18))
    with 0 by lra.
  rewrite sqrt_0. lra.
Defined.

(** ** Sessions of the scene as sequences of envelope calls *)

Lemma animate_audio (random : nat -> R) (time now : number) (w : World) :
  audio (animate random time now w)
  = (if negb (hasCollided w) && JS.lt (sphereDistance w) #1
     then fadeOutAudio defaultDuration now
            (smoothGain
               (setAudioIntensity (proximityIntensity (sphereDistance w))
                  (audio w)))
     else smoothGain
            (setAudioIntensity (proximityIntensity (sphereDistance w))
               (audio w))).
Proof.
  unfold animate, sphereDistance.
  destruct (updateParticles random (particles w) (randomCalls w)).
  reflexivity.
Qed.

Lemma audio_handle (random : nat -> R) (e : event) (w : World) :
  audio (handle random e w) = calls (audioCallsOf e w) (audio w).
Proof.
  destruct e as [code | code | time now]; cbn [handle audioCallsOf].
  - cbn [keydown audio]. destruct (startAudioListener w); reflexivity.
  - reflexivity.
  - rewrite animate_audio. cbn [hasCollided audio].
    change (sphereDistance (mkWorld _ _ (spherePosition w) _ _ _ _ _ _ _ _))
      with (sphereDistance w).
    destruct (negb (hasCollided w) && JS.lt (sphereDistance w) #1);
      reflexivity.
Qed.

Lemma audio_run (random : nat -> R) (es : list event) (w : World) :
  audio (run random es w) = calls (sessionCalls random es w) (audio w).
Proof.
  revert w. induction es as [| e rest IH]; intros w; [reflexivity |].
  unfold run. cbn [fold_left sessionCalls].
  fold (run random rest (handle random e w)).
  rewrite IH, audio_handle. unfold calls. now rewrite fold_left_app.
Qed.

(** ** C7: [setAudioIntensity] *)

Lemma clampedIntensity_num (v : R) :
  clampedIntensity #v = #(Rmax 0 (Rmin 1.2 v)).
Proof. reflexivity. Qed.

Lemma clampedIntensity_range (v : R) : 0 <= Rmax 0 (Rmin 1.2 v) <= 1.2.
Proof. minmax; lra. Qed.

(** C7, as stated, fails before the audio is started: the call returns at
    its first line and the target gain keeps its initial value 1. *)
Lemma setAudioIntensity_ignored_before_start :
  audioStarted initialAudio = false /\
  targetGain (setAudioIntensity #0.5 initialAudio)
    <> (#0.13 + #0.95 * clampedIntensity #0.5)%js.
Proof.
  split; [reflexivity |].
  rewrite clampedIntensity_num. cbn. intros H. injection H as H.
  revert H. minmax; lra.
Qed.

(** C7, amended.  Once the audio is started, for every input [v] (finite or
    not) [setAudioIntensity] clamps [v] with [max(0, min(1.2, v))], sets
    [targetGain] to [0.13 + 0.95 * clamped] and the filter frequency to
    [800 + 8000 * (1 - clamped)] and leaves every other field, [currentGain]
    included, as it was; for a finite [v] the clamped value lies in
    [[0, 1.2]] and is [v] itself when [v] already does.  While the audio is
    not started the call changes nothing. *)
Theorem setAudioIntensity_spec (v : number) (a : Audio) :
  (audioStarted a = true ->
     setAudioIntensity v a
     = mkAudio (audioStarted a)
         (#0.13 + #0.95 * clampedIntensity v)%js
         (currentGain a) (fading a) (gainValue a)
         (Some (#800 + #8000 * (#1 - clampedIntensity v))%js)
         (playing a) (pendingSteps a)) /\
  (audioStarted a = false -> setAudioIntensity v a = a) /\
  (forall r : R,
     v = #r ->
     exists c : R,
       clampedIntensity v = #c /\ 0 <= c <= 1.2 /\
       (0 <= r <= 1.2 -> c = r) /\
       (audioStarted a = true ->
          targetGain (setAudioIntensity v a) = #(0.13 + 0.95 * c) /\
          filterFrequency (setAudioIntensity v a)
            = Some #(800 + 8000 * (1 - c)))).
Proof.
  split; [| split].
  - intros Hs. unfold setAudioIntensity, clampedIntensity. now rewrite Hs.
  - intros Hs. unfold setAudioIntensity. now rewrite Hs.
  - intros r ->. exists (Rmax 0 (Rmin 1.2 r)).
    split; [apply clampedIntensity_num |].
    split; [apply clampedIntensity_range |].
    split; [intros Hr; minmax; lra |].
    intros Hs. unfold setAudioIntensity. rewrite Hs. cbn. split; reflexivity.
Qed.

Lemma setAudioIntensity_spec_witness :
  let a := startAudio initialAudio in
  audioStarted a = true /\
  targetGain (setAudioIntensity #0.5 a) = (#0.13 + #0.95 * clampedIntensity #0.5)%js /\
  setAudioIntensity #0.5 initialAudio = initialAudio.
Proof.
  intros a. split; [reflexivity | split].
  - rewrite (proj1 (setAudioIntensity_spec #0.5 a)); reflexivity.
  - apply (proj1 (proj2 (setAudioIntensity_spec #0.5 initialAudio))). reflexivity.
Defined.

(** ** C10: the intensity the frame passes to the envelope *)

Lemma proximityIntensity_num (d : R) :
  proximityIntensity #d = #(2 - Rmin 1 (d / 160)).
Proof.
  unfold proximityIntensity. js_eval. reflexivity.
Qed.

Lemma smoothGain_keeps_target (a : Audio) :
  targetGain (smoothGain a) = targetGain a /\
  filterFrequency (smoothGain a) = filterFrequency a.
Proof.
  unfold smoothGain. destruct (audioStarted a && negb (fading a));
    split; reflexivity.
Qed.

Lemma fadeOutAudio_keeps_target (dur now : number) (a : Audio) :
  targetGain (fadeOutAudio dur now a) = targetGain a /\
  filterFrequency (fadeOutAudio dur now a) = filterFrequency a.
Proof.
  unfold fadeOutAudio. destruct (negb (audioStarted a) || fading a);
    split; reflexivity.
Qed.

Lemma frame_target (random : nat -> R) (time now : number) (w : World) :
  targetGain (audio (animate random time now w))
  = targetGain
      (setAudioIntensity (proximityIntensity (sphereDistance w)) (audio w)) /\
  filterFrequency (audio (animate random time now w))
  = filterFrequency
      (setAudioIntensity (proximityIntensity (sphereDistance w)) (audio w)).
Proof.
  rewrite animate_audio.
  destruct (negb (hasCollided w) && JS.lt (sphereDistance w) #1).
  - rewrite (proj1 (fadeOutAudio_keeps_target _ _ _)),
      (proj2 (fadeOutAudio_keeps_target _ _ _)),
      (proj1 (smoothGain_keeps_target _)),
      (proj2 (smoothGain_keeps_target _)).
    split; reflexivity.
  - rewrite (proj1 (smoothGain_keeps_target _)),
      (proj2 (smoothGain_keeps_target _)).
    split; reflexivity.
Qed.

(** C10.  The intensity the frame passes to the envelope is
    [2 - min(1, dist / 160)]: [2 - dist / 160] up to distance 160 and exactly
    1 from 160 on, so at least 1 (and at most 2) for every [dist >= 0].
    When the audio is started, the call of [setAudioIntensity] clamps it to
    [c = min(1.2, intensity)], which lies in [[1, 1.2]], and writes the
    target gain [0.13 + 0.95 * c] and the filter frequency
    [800 + 8000 * (1 - c)]: 1.08 and 800 from distance 160 on, 1.27 and -800
    up to distance 128, and in between values in [[1.08, 1.27]] and
    [[-800, 800]]; the intensity below 1 is never passed, and the frequency
    written is non-positive exactly when [dist <= 144].  These are the
    target gain and the filter frequency after every frame that starts with
    the audio started and the sphere at distance [dist]. *)
Theorem proximity_intensity_at_least_one :
  (forall d : R, proximityIntensity #d = #(2 - Rmin 1 (d / 160))) /\
  (forall d : R, 0 <= d -> 1 <= 2 - Rmin 1 (d / 160) <= 2) /\
  (forall d : R, 0 <= d <= 160 -> proximityIntensity #d = #(2 - d / 160)) /\
  (forall d : R, 160 <= d -> proximityIntensity #d = #1) /\
  (forall (d : R) (a : Audio),
     0 <= d -> audioStarted a = true ->
     let c := Rmin 1.2 (2 - Rmin 1 (d / 160)) in
     let a' := setAudioIntensity (proximityIntensity #d) a in
     clampedIntensity (proximityIntensity #d) = #c /\
     1 <= c <= 1.2 /\
     targetGain a' = #(0.13 + 0.95 * c) /\
     filterFrequency a' = Some #(800 + 8000 * (1 - c)) /\
     1.08 <= 0.13 + 0.95 * c <= 1.27 /\
     -800 <= 800 + 8000 * (1 - c) <= 800 /\
     (800 + 8000 * (1 - c) <= 0 <-> d <= 144)) /\
  (forall (d : R) (a : Audio),
     160 <= d -> audioStarted a = true ->
     targetGain (setAudioIntensity (proximityIntensity #d) a) = #1.08 /\
     filterFrequency (setAudioIntensity (proximityIntensity #d) a)
     = Some #800) /\
  (forall (d : R) (a : Audio),
     0 <= d <= 128 -> audioStarted a = true ->
     targetGain (setAudioIntensity (proximityIntensity #d) a) = #1.27 /\
     filterFrequency (setAudioIntensity (proximityIntensity #d) a)
     = Some #(-800)) /\
  (forall (random : nat -> R) (time now : number) (w : World) (d : R),
     sphereDistance w = #d -> 0 <= d -> audioStarted (audio w) = true ->
     let c := Rmin 1.2 (2 - Rmin 1 (d / 160)) in
     targetGain (audio (animate random time now w)) = #(0.13 + 0.95 * c) /\
     filterFrequency (audio (animate random time now w))
     = Some #(800 + 8000 * (1 - c))).
Proof.
  assert (Hclamp : forall d : R, 0 <= d ->
            clampedIntensity (proximityIntensity #d)
            = #(Rmin 1.2 (2 - Rmin 1 (d / 160)))).
  { intros d Hd. rewrite proximityIntensity_num, clampedIntensity_num.
    f_equal. minmax; lra. }
  assert (Hset : forall (d : R) (a : Audio),
            0 <= d -> audioStarted a = true ->
            targetGain (setAudioIntensity (proximityIntensity #d) a)
            = #(0.13 + 0.95 * Rmin 1.2 (2 - Rmin 1 (d / 160))) /\
            filterFrequency (setAudioIntensity (proximityIntensity #d) a)
            = Some #(800 + 8000 * (1 - Rmin 1.2 (2 - Rmin 1 (d / 160))))).
  { intros d a Hd Hs. unfold setAudioIntensity. rewrite Hs, (Hclamp d Hd).
    cbn [negb targetGain filterFrequency]. js_unfold.
    split; [reflexivity | do 2 f_equal]. }
  split; [exact proximityIntensity_num |].
  split; [intros d Hd; minmax; lra |].
  split; [intros d Hd; rewrite proximityIntensity_num; f_equal; minmax; lra |].
  split; [intros d Hd; rewrite proximityIntensity_num; f_equal; minmax; lra |].
  split; [| split; [| split]].
  - intros d a Hd Hs c a'. destruct (Hset d a Hd Hs) as [Eg Ef].
    split; [now apply Hclamp |].
    split; [unfold c; minmax; lra |].
    split; [exact Eg |]. split; [exact Ef |].
    split; [unfold c; minmax; lra |].
    split; [unfold c; minmax; lra |].
    unfold c. minmax; split; lra.
  - intros d a Hd Hs. destruct (Hset d a ltac:(lra) Hs) as [Eg Ef].
    rewrite Eg, Ef. split; [f_equal | do 2 f_equal]; minmax; lra.
  - intros d a Hd Hs. destruct (Hset d a ltac:(lra) Hs) as [Eg Ef].
    rewrite Eg, Ef. split; [f_equal | do 2 f_equal]; minmax; lra.
  - intros random time now w d Ed Hd Hs c.
    destruct (frame_target random time now w) as [Eg Ef].
    rewrite Eg, Ef, Ed. now apply Hset.
Qed.

Lemma proximity_intensity_at_least_one_witness :
  (targetGain (setAudioIntensity (proximityIntensity #1018)
                 (startAudio initialAudio)) = #1.08 /\
   filterFrequency (setAudioIntensity (proximityIntensity #1018)
                      (startAudio initialAudio)) = Some #800) /\
  (targetGain (setAudioIntensity (proximityIntensity #80)
                 (startAudio initialAudio)) = #1.27 /\
   filterFrequency (setAudioIntensity (proximityIntensity #80)
                      (startAudio initialAudio)) = Some #(-800)) /\
  targetGain
    (audio (animate (fun _ => 0) #0 #0
              (keydown "ArrowUp" (initialWorld (fun _ => 0)))))
  = #(0.13 + 0.95 * Rmin 1.2 (2 - Rmin 1 (1018 / 160))).
Proof.
  split; [| split].
  - apply (proj1 (proj2 (proj2 (proj2 (proj2 (proj2
             proximity_intensity_at_least_one)))))).
    + lra.
    + reflexivity.
  - apply (proj1 (proj2 (proj2 (proj2 (proj2 (proj2 (proj2
             proximity_intensity_at_least_one))))))).
    + lra.
    + reflexivity.
  - apply (proj2 (proj2 (proj2 (proj2 (proj2 (proj2 (proj2
             proximity_intensity_at_least_one))))))).
    + rewrite (sphereDistance_num _ 0 0 1000) by reflexivity. f_equal.
      replace ((0 - 0) * (0 - 0) + (0 - 0) * (0 - 0)
               + (-18 - 1000) * (-18 - 1000)) with (1018 * 1018) by lra.
      rewrite sqrt_square; lra.
    + lra.
    + reflexivity.
Defined.

(** ** C6: a second [fadeOutAudio] during a fade *)

Lemma fadeOutAudio_while_fading (duration now : number) (a : Audio) :
  fading a = true -> fadeOutAudio duration now a = a.
Proof.
  intros Hf. unfold fadeOutAudio. rewrite Hf.
  now rewrite orb_true_r.
Qed.

Lemma calls_app (cs1 cs2 : list audioCall) (a : Audio) :
  calls (cs1 ++ cs2) a = calls cs2 (calls cs1 a).
Proof. apply fold_left_app. Qed.

Lemma step_singleFade (c : FadeStep) (now : number) (a : Audio) :
  pendingSteps a = [] -> fading a = true -> singleFade (step c now a).
Proof.
  intros Hp Hf. unfold step, singleFade.
  destruct (JS.lt (fadeProgress c now) #1);
    cbn [pendingSteps fading]; rewrite Hp; cbn [app List.length].
  - rewrite Hf. split; [lia | discriminate].
  - split; [lia | reflexivity].
Qed.

Lemma runPendingSteps_singleFade (now : number) (a : Audio) :
  singleFade a -> singleFade (runPendingSteps now a).
Proof.
  intros [Hlen Hnil]. unfold runPendingSteps.
  destruct (pendingSteps a) as [| c [| c' rest]] eqn:Ep.
  - cbn [fold_left]. split; cbn [pendingSteps fading]; [lia | reflexivity].
  - cbn [fold_left]. apply step_singleFade; [reflexivity |].
    cbn [fading]. destruct (fading a); [reflexivity |].
    now specialize (Hnil eq_refl).
  - cbn [List.length] in Hlen. lia.
Qed.

Lemma call_singleFade (c : audioCall) (a : Audio) :
  singleFade a -> singleFade (call c a).
Proof.
  intros Hs. destruct c as [| v | | d now | now]; cbn [call].
  - unfold startAudio. destruct (audioStarted a); [exact Hs |]. exact Hs.
  - unfold setAudioIntensity. destruct (negb (audioStarted a)); exact Hs.
  - unfold smoothGain. destruct (audioStarted a && negb (fading a)); exact Hs.
  - unfold fadeOutAudio.
    destruct (negb (audioStarted a) || fading a) eqn:Eg; [exact Hs |].
    apply orb_false_elim in Eg. destruct Eg as [_ Ef].
    destruct Hs as [_ Hnil]. rewrite (Hnil Ef).
    split; cbn [pendingSteps fading app List.length]; [lia | discriminate].
  - now apply runPendingSteps_singleFade.
Qed.

Lemma calls_singleFade (cs : list audioCall) (a : Audio) :
  singleFade a -> singleFade (calls cs a).
Proof.
  revert a. induction cs as [| c rest IH]; intros a Hs; [exact Hs |].
  apply IH, call_singleFade, Hs.
Qed.

Lemma quotient_lt_1 (e d : R) : 0 < d -> e < d -> e / d < 1.
Proof.
  intros Hd He. apply Rmult_lt_reg_r with d; [exact Hd |].
  unfold Rdiv. rewrite Rmult_assoc, Rinv_l by lra. lra.
Qed.

Lemma quotient_ge_1 (e d : R) : 0 < d -> d <= e -> 1 <= e / d.
Proof.
  intros Hd He. apply Rmult_le_reg_r with d; [exact Hd |].
  unfold Rdiv. rewrite Rmult_assoc, Rinv_l by lra. lra.
Qed.

Lemma quotient_nonneg (e d : R) : 0 < d -> 0 <= e -> 0 <= e / d.
Proof.
  intros Hd He. unfold Rdiv. apply Rmult_le_pos; [exact He |].
  left. now apply Rinv_0_lt_compat.
Qed.

Lemma fadeProgress_num (s t0 d now : R) :
  d <> 0 ->
  fadeProgress (mkFadeStep #s #t0 #d) #now = #(Rmin 1 ((now - t0) / d)).
Proof.
  intros Hd. unfold fadeProgress. cbn [startTime duration JS.sub JS.neg JS.add].
  rewrite div_num by exact Hd. reflexivity.
Qed.

(** C6.  A call of [fadeOutAudio] made while a fade is in progress returns
    the state it was given, whatever its arguments (the first call, with
    the audio started, set [fading] and queued one closure that captured
    the gain of that moment); dropping such a call
    from any sequence of calls changes nothing of what follows.  In every
    state reachable from the initial one, by calls of the envelope or by
    the events of the scene, at most one [step] closure is pending, and
    none unless [fading] is set.  The closure of the fade in
    flight sets the gain to [start * (1 - elapsed / duration)] while
    [elapsed < duration] and to 0 from then on, from its own captured
    [start] and [startTime] alone. *)
Theorem fadeOutAudio_single_fade :
  (forall (duration now : number) (a : Audio),
     fading a = true -> fadeOutAudio duration now a = a) /\
  (forall (duration now : number) (a : Audio),
     audioStarted a = true -> fading a = false ->
     fading (fadeOutAudio duration now a) = true /\
     pendingSteps (fadeOutAudio duration now a)
     = pendingSteps a ++ [mkFadeStep (currentGain a) now duration]) /\
  (forall (pre post : list audioCall) (duration now : number) (a : Audio),
     fading (calls pre a) = true ->
     calls (pre ++ CallFadeOutAudio duration now :: post) a
     = calls (pre ++ post) a) /\
  (forall cs : list audioCall,
     (List.length (pendingSteps (calls cs initialAudio)) <= 1)%nat /\
     (fading (calls cs initialAudio) = false ->
      pendingSteps (calls cs initialAudio) = [])) /\
  (forall (random : nat -> R) (es : list event),
     (List.length
        (pendingSteps (audio (run random es (initialWorld random)))) <= 1)%nat) /\
  (forall (s t0 d now : R) (a : Audio),
     0 < d -> t0 <= now ->
     (now - t0 < d ->
        currentGain (step (mkFadeStep #s #t0 #d) #now a)
        = #(s * (1 - (now - t0) / d))) /\
     (d <= now - t0 ->
        currentGain (step (mkFadeStep #s #t0 #d) #now a) = #0 /\
        fading (step (mkFadeStep #s #t0 #d) #now a) = false /\
        audioStarted (step (mkFadeStep #s #t0 #d) #now a) = false)).
Proof.
  split; [exact fadeOutAudio_while_fading |].
  split; [| split; [| split; [| split]]].
  - intros duration now a Hs Hf. unfold fadeOutAudio. rewrite Hs, Hf.
    split; reflexivity.
  - intros pre post duration now a Hf.
    rewrite !calls_app. cbn [calls fold_left call].
    now rewrite fadeOutAudio_while_fading.
  - intros cs. apply calls_singleFade.
    split; cbn; [lia | reflexivity].
  - intros random es. rewrite audio_run.
    apply calls_singleFade. split; cbn; [lia | reflexivity].
  - intros s t0 d now a Hd Hnow. unfold step.
    rewrite fadeProgress_num by lra. cbn [JS.lt start]. split.
    + intros He. pose proof (quotient_lt_1 _ _ Hd He) as Hq.
      destruct (Rlt_dec (Rmin 1 ((now - t0) / d)) 1) as [_ | Hn].
      * cbn [currentGain JS.sub JS.neg JS.add JS.mul]. f_equal.
        rewrite Rmin_right by lra. lra.
      * exfalso. apply Hn. rewrite Rmin_right; lra.
    + intros He. pose proof (quotient_ge_1 _ _ Hd He) as Hq.
      destruct (Rlt_dec (Rmin 1 ((now - t0) / d)) 1) as [Hn | _].
      * exfalso. rewrite Rmin_left in Hn; lra.
      * cbn. split; [reflexivity | split; reflexivity].
Qed.

Lemma fadeOutAudio_single_fade_witness :
  let a := fadeOutAudio defaultDuration #0 (startAudio initialAudio) in
  fading a = true /\
  fadeOutAudio defaultDuration #500 a = a /\
  currentGain (step (mkFadeStep #0.7 #0 #1900) #950 a)
  = #(0.7 * (1 - (950 - 0) / 1900)).
Proof.
  intros a. split; [reflexivity |]. split.
  - apply (proj1 fadeOutAudio_single_fade). reflexivity.
  - apply (proj2 (proj2 (proj2 (proj2 (proj2 fadeOutAudio_single_fade))))); lra.
Defined.

(** ** C5: the range of the current gain *)

Lemma targetGainMax_value : targetGainMax = 1.27.
Proof. unfold targetGainMax. lra. Qed.

Lemma startAudio_gainsInRange (a : Audio) :
  gainsInRange a -> gainsInRange (startAudio a).
Proof.
  intros Ha. unfold startAudio. destruct (audioStarted a); [exact Ha |].
  destruct Ha as (_ & _ & Hp). unfold gainsInRange, gainInRange.
  cbn [currentGain targetGain pendingSteps]. rewrite targetGainMax_value.
  split; [exists 0.7; split; [reflexivity | lra] |].
  split; [exists 0.7; split; [reflexivity | lra] | exact Hp].
Qed.

Lemma setAudioIntensity_gainsInRange (v : number) (a : Audio) :
  JS.isFinite v = true -> gainsInRange a -> gainsInRange (setAudioIntensity v a).
Proof.
  intros Hv Ha. destruct (isFinite_num v Hv) as (r & ->).
  unfold setAudioIntensity. destruct (negb (audioStarted a)); [exact Ha |].
  destruct Ha as (Hg & _ & Hp). unfold gainsInRange.
  cbn [currentGain targetGain pendingSteps].
  split; [exact Hg |]. split; [| exact Hp].
  rewrite clampedIntensity_num. cbn [JS.mul JS.add].
  eexists. split; [reflexivity |].
  pose proof (clampedIntensity_range r). unfold targetGainMax. lra.
Qed.

Lemma smoothGain_gainsInRange (a : Audio) :
  gainsInRange a -> gainsInRange (smoothGain a).
Proof.
  intros Ha. unfold smoothGain.
  destruct (audioStarted a && negb (fading a)); [| exact Ha].
  destruct Ha as ((g & Eg & Hg) & (tg & Et & Ht) & Hp).
  unfold gainsInRange, gainInRange. cbn [currentGain targetGain pendingSteps].
  rewrite Eg, Et. cbn [JS.sub JS.neg JS.add JS.mul].
  split; [| split; [exists tg; split; [reflexivity | exact Ht] | exact Hp]].
  eexists. split; [reflexivity |]. lra.
Qed.

Lemma fadeOutAudio_gainsInRange (dur now : number) (a : Audio) :
  callInOrder a (CallFadeOutAudio dur now) ->
  gainsInRange a -> gainsInRange (fadeOutAudio dur now a).
Proof.
  intros [Hnow Hd] Ha. unfold fadeOutAudio.
  destruct (negb (audioStarted a) || fading a); [exact Ha |].
  destruct Ha as (Hg & Ht & Hp). unfold gainsInRange.
  cbn [currentGain targetGain pendingSteps].
  split; [exact Hg |]. split; [exact Ht |].
  apply Forall_app. split; [exact Hp |].
  constructor; [| constructor].
  unfold fadeStepInRange. cbn [start startTime duration]. auto.
Qed.

(** The ramp position of a closure is in [[0, 1]] when the clock has not
    gone backwards, and the gain it sets is between 0 and its [start]. *)
Lemma step_gain (s t0 d now : R) (a : Audio) :
  0 <= s -> 0 < d -> t0 <= now ->
  exists t g : R,
    fadeProgress (mkFadeStep #s #t0 #d) #now = #t /\
    t = Rmin 1 ((now - t0) / d) /\ 0 <= t <= 1 /\
    currentGain (step (mkFadeStep #s #t0 #d) #now a) = #g /\
    g = s * (1 - t) /\ 0 <= g <= s.
Proof.
  intros Hs Hd Hnow.
  assert (Hq : 0 <= (now - t0) / d) by (apply quotient_nonneg; lra).
  exists (Rmin 1 ((now - t0) / d)).
  assert (Ht : 0 <= Rmin 1 ((now - t0) / d) <= 1) by (minmax; lra).
  unfold step. rewrite fadeProgress_num by lra. cbn [JS.lt start].
  destruct (Rlt_dec (Rmin 1 ((now - t0) / d)) 1) as [Hlt | Hge].
  - exists (s * (1 - Rmin 1 ((now - t0) / d))).
    split; [reflexivity |]. split; [reflexivity |]. split; [exact Ht |].
    split; [reflexivity |]. split; [reflexivity | nra].
  - exists 0. split; [reflexivity |]. split; [reflexivity |].
    split; [exact Ht |]. split; [reflexivity |].
    assert (E : Rmin 1 ((now - t0) / d) = 1) by lra.
    rewrite E. split; lra.
Qed.

Lemma step_gainsInRange (c : FadeStep) (t : R) (a : Audio) :
  fadeStepInRange c ->
  (exists s : R, startTime c = #s /\ s <= t) ->
  gainsInRange a -> gainsInRange (step c #t a).
Proof.
  intros Hc (t0 & Et0 & Ht0) (Hg & Ht & Hp).
  pose proof Hc as ((s & Es & Hs) & _ & (d & Ed & Hd)).
  destruct c as [cs ct cd]. cbn [start startTime duration] in *. subst.
  destruct (step_gain s t0 d t a (proj1 Hs) Hd Ht0)
    as (p & g & _ & _ & _ & Eg & _ & Hg').
  unfold gainsInRange. split; [exists g; split; [exact Eg | lra] |].
  unfold step.
  destruct (JS.lt _ _); cbn [targetGain pendingSteps];
    (split; [exact Ht |]); [| exact Hp].
  apply Forall_app. split; [exact Hp | constructor; [exact Hc | constructor]].
Qed.

Lemma fold_step_gainsInRange (t : R) (cs : list FadeStep) (a : Audio) :
  Forall fadeStepInRange cs ->
  Forall (fun c => exists s : R, startTime c = #s /\ s <= t) cs ->
  gainsInRange a ->
  gainsInRange (fold_left (fun a' c => step c #t a') cs a).
Proof.
  revert a. induction cs as [| c rest IH]; intros a Hr Ht Ha; [exact Ha |].
  inversion Hr; subst. inversion Ht; subst.
  cbn [fold_left]. apply IH; try assumption.
  now apply step_gainsInRange.
Qed.

Lemma call_gainsInRange (c : audioCall) (a : Audio) :
  callInOrder a c -> gainsInRange a -> gainsInRange (call c a).
Proof.
  intros Hc Ha. destruct c as [| v | | d now | now]; cbn [call].
  - now apply startAudio_gainsInRange.
  - now apply setAudioIntensity_gainsInRange.
  - now apply smoothGain_gainsInRange.
  - now apply fadeOutAudio_gainsInRange.
  - destruct Hc as (t & -> & Hord). unfold runPendingSteps.
    destruct Ha as (Hg & Ht & Hp).
    apply fold_step_gainsInRange; try assumption.
    split; [exact Hg |]. split; [exact Ht | constructor].
Qed.

Lemma calls_gainsInRange (cs : list audioCall) (a : Audio) :
  callsInOrder cs a -> gainsInRange a -> gainsInRange (calls cs a).
Proof.
  revert a. induction cs as [| c rest IH]; intros a Hcs Ha; [exact Ha |].
  destruct Hcs as [Hc Hrest]. cbn [calls fold_left].
  apply IH; [exact Hrest |]. now apply call_gainsInRange.
Qed.

Lemma initialAudio_gainsInRange : gainsInRange initialAudio.
Proof.
  unfold gainsInRange, gainInRange, initialAudio.
  cbn [currentGain targetGain pendingSteps]. rewrite targetGainMax_value.
  split; [exists 1; split; [reflexivity | lra] |].
  split; [exists 1; split; [reflexivity | lra] | constructor].
Qed.

(** C5.  With [targetGainMax = 0.13 + 0.95 * 1.2]: along every sequence of
    calls of the envelope made in order (finite intensities, a clock that
    does not go backwards), starting from the initial state, the current
    gain is a finite number in [[0, targetGainMax]]; so it is along every
    session of the scene whose calls are in order.  One smoothing step
    toward a target in [[0.13, targetGainMax]] keeps a gain of that interval
    inside it (between the old gain and the target).  During a fade the
    closure sets the gain to [start * (1 - t)] with [t] in [[0, 1]]: a value
    between 0 and [start], never negative, not increasing as time passes,
    equal to [start] at the trigger time and to 0 once the duration has
    elapsed. *)
Theorem currentGain_stays_in_range :
  targetGainMax = 0.13 + 0.95 * 1.2 /\
  (forall cs : list audioCall,
     callsInOrder cs initialAudio ->
     exists g : R,
       currentGain (calls cs initialAudio) = #g /\ 0 <= g <= targetGainMax) /\
  (forall (random : nat -> R) (es : list event),
     callsInOrder (sessionCalls random es (initialWorld random)) initialAudio ->
     exists g : R,
       currentGain (audio (run random es (initialWorld random))) = #g /\
       0 <= g <= targetGainMax) /\
  (forall (a : Audio) (g tg : R),
     audioStarted a = true -> fading a = false ->
     currentGain a = #g -> targetGain a = #tg ->
     0 <= g <= targetGainMax -> 0.13 <= tg <= targetGainMax ->
     exists g' : R,
       currentGain (smoothGain a) = #g' /\
       g' = g + (tg - g) * 0.04 /\
       0 <= g' <= targetGainMax /\ Rmin g tg <= g' <= Rmax g tg) /\
  (forall (s t0 d now : R) (a : Audio),
     0 <= s -> 0 < d -> t0 <= now ->
     exists t g : R,
       fadeProgress (mkFadeStep #s #t0 #d) #now = #t /\ 0 <= t <= 1 /\
       currentGain (step (mkFadeStep #s #t0 #d) #now a) = #g /\
       g = s * (1 - t) /\ 0 <= g <= s /\
       (now = t0 -> g = s) /\ (d <= now - t0 -> g = 0)) /\
  (forall (s t0 d now1 now2 : R) (a1 a2 : Audio),
     0 <= s -> 0 < d -> t0 <= now1 <= now2 ->
     exists g1 g2 : R,
       currentGain (step (mkFadeStep #s #t0 #d) #now1 a1) = #g1 /\
       currentGain (step (mkFadeStep #s #t0 #d) #now2 a2) = #g2 /\
       g2 <= g1).
Proof.
  split; [reflexivity |]. split; [| split; [| split; [| split]]].
  - intros cs Hcs.
    apply (calls_gainsInRange cs initialAudio Hcs initialAudio_gainsInRange).
  - intros random es Hcs. rewrite audio_run.
    apply (calls_gainsInRange _ initialAudio Hcs initialAudio_gainsInRange).
  - intros a g tg Hs Hf Eg Et Hg Ht.
    unfold smoothGain. rewrite Hs, Hf. cbn [negb andb currentGain].
    rewrite Eg, Et. cbn [JS.sub JS.neg JS.add JS.mul].
    exists (g + (tg - g) * 0.04). split; [reflexivity |].
    split; [reflexivity |]. split; [lra |]. minmax; lra.
  - intros s t0 d now a Hs Hd Hnow.
    destruct (step_gain s t0 d now a Hs Hd Hnow)
      as (t & g & Et & Etv & Ht & Eg & Egv & Hg).
    exists t, g. repeat (split; [assumption |]). split.
    + intros ->. subst g t.
      replace ((t0 - t0) / d) with 0 by (unfold Rdiv; lra).
      rewrite Rmin_right by lra. lra.
    + intros He. subst g t.
      rewrite Rmin_left by (apply quotient_ge_1; lra). lra.
  - intros s t0 d now1 now2 a1 a2 Hs Hd Hnow.
    destruct (step_gain s t0 d now1 a1 Hs Hd (proj1 Hnow))
      as (t1 & g1 & _ & Et1 & Ht1 & Eg1 & Egv1 & _).
    destruct (step_gain s t0 d now2 a2 Hs Hd ltac:(lra))
      as (t2 & g2 & _ & Et2 & Ht2 & Eg2 & Egv2 & _).
    exists g1, g2. split; [exact Eg1 |]. split; [exact Eg2 |].
    assert (Hq : (now1 - t0) / d <= (now2 - t0) / d).
    { unfold Rdiv. apply Rmult_le_compat_r; [| lra].
      left. now apply Rinv_0_lt_compat. }
    assert (Hmin : t1 <= t2) by (subst t1 t2; minmax; lra).
    subst g1 g2. nra.
Qed.

Lemma currentGain_stays_in_range_witness :
  let cs :=
    [CallStartAudio; CallSetAudioIntensity #1; CallSmoothGain;
     CallFadeOutAudio #1900 #0; CallAnimationFrame #950] in
  callsInOrder cs initialAudio /\
  exists g : R,
    currentGain (calls cs initialAudio) = #g /\ 0 <= g <= targetGainMax.
Proof.
  intros cs.
  assert (Hcs : callsInOrder cs initialAudio).
  { unfold cs. cbn [callsInOrder callInOrder JS.isFinite].
    repeat split; try reflexivity.
    - exists 1900. split; [reflexivity | lra].
    - exists 950. split; [reflexivity |].
      constructor; [| constructor].
      exists 0. split; [reflexivity | lra]. }
  split; [exact Hcs |].
  apply (proj1 (proj2 currentGain_stays_in_range) cs Hcs).
Defined.

(** ** The collision latch *)

Section Collision.

Variable random : nat -> R.

Lemma animate_fields (time now : number) (w : World) :
  let engulfed := negb (hasCollided w) && JS.lt (sphereDistance w) #1 in
  let a := smoothGain
             (setAudioIntensity (proximityIntensity (sphereDistance w)) (audio w)) in
  hasCollided (animate random time now w)
    = (if engulfed then true else hasCollided w) /\
  fadeOutCalls (animate random time now w)
    = (if engulfed then S (fadeOutCalls w) else fadeOutCalls w) /\
  audio (animate random time now w)
    = (if engulfed then fadeOutAudio defaultDuration now a else a) /\
  console (animate random time now w)
    = (if engulfed then console w ++ ["Boule engloutie !"%string] else console w) /\
  sphereVelocity (animate random time now w)
    = applyFriction
        (clampSpeed
           (accelerate time (moveTarget w) (spherePosition w) (sphereVelocity w))) /\
  spherePosition (animate random time now w)
    = Vector3.add (spherePosition w) (sphereVelocity (animate random time now w)).
Proof.
  unfold animate, sphereDistance.
  destruct (updateParticles random (particles w) (randomCalls w)).
  cbn. repeat split; reflexivity.
Qed.

(** What an event does to the flag and to the count of [fadeOutAudio()]
    calls: the count goes up by one exactly when the flag goes up. *)
Lemma handle_flag (e : event) (w : World) :
  (hasCollided w = true -> hasCollided (handle random e w) = true) /\
  fadeOutCalls (handle random e w)
  = (fadeOutCalls w
     + (if negb (hasCollided w) && hasCollided (handle random e w)
        then 1 else 0))%nat.
Proof.
  destruct e as [code | code | time now]; cbn [handle].
  - cbn. destruct (hasCollided w); split; auto; cbn; lia.
  - cbn. destruct (hasCollided w); split; auto; cbn; lia.
  - set (w0 := mkWorld _ _ _ _ _ _ _ _ _ _ _).
    destruct (animate_fields time now w0) as (Hc & Hn & _).
    rewrite Hc, Hn. cbn [w0 hasCollided fadeOutCalls].
    destruct (hasCollided w); cbn [negb andb].
    + split; [reflexivity | lia].
    + destruct (JS.lt (sphereDistance w0) #1); split;
        try discriminate; cbn; lia.
Qed.

Lemma run_snoc (es : list event) (e : event) (w : World) :
  run random (es ++ [e]) w = handle random e (run random es w).
Proof. unfold run. now rewrite fold_left_app. Qed.

Lemma trace_head (es : list event) (w : World) :
  exists l : list World, trace random es w = w :: l.
Proof. destruct es; cbn [trace]; eexists; reflexivity. Qed.

Lemma risingEdges_cons (b b' : bool) (l : list bool) :
  risingEdges (b :: b' :: l)
  = ((if negb b && b' then 1 else 0) + risingEdges (b' :: l))%nat.
Proof. destruct b, b'; reflexivity. Qed.

Lemma risingEdges_single (b : bool) : risingEdges [b] = O.
Proof. destruct b; reflexivity. Qed.

Lemma fadeOutCalls_count (es : list event) (w : World) :
  fadeOutCalls (run random es w)
  = (fadeOutCalls w + risingEdges (map hasCollided (trace random es w)))%nat.
Proof.
  revert w. induction es as [| e rest IH]; intros w.
  - cbn [trace map run fold_left]. rewrite risingEdges_single. lia.
  - cbn [trace map]. unfold run. cbn [fold_left].
    fold (run random rest (handle random e w)).
    rewrite IH.
    destruct (trace_head rest (handle random e w)) as (l & El).
    rewrite El. cbn [map]. rewrite risingEdges_cons.
    rewrite (proj2 (handle_flag e w)). lia.
Qed.

Lemma collided_stays (es : list event) (w : World) :
  hasCollided w = true ->
  hasCollided (run random es w) = true /\
  risingEdges (map hasCollided (trace random es w)) = O.
Proof.
  revert w. induction es as [| e rest IH]; intros w Hw.
  - cbn [trace map]. rewrite risingEdges_single. auto.
  - pose proof (proj1 (handle_flag e w) Hw) as Hw'.
    destruct (IH _ Hw') as [Hr Hz].
    unfold run. cbn [fold_left trace map]. split; [exact Hr |].
    destruct (trace_head rest (handle random e w)) as (l & El).
    rewrite El in *. cbn [map] in *. rewrite risingEdges_cons, Hz, Hw.
    reflexivity.
Qed.

Lemma risingEdges_at_most_one (es : list event) (w : World) :
  (risingEdges (map hasCollided (trace random es w)) <= 1)%nat /\
  (hasCollided w = false ->
   risingEdges (map hasCollided (trace random es w))
   = if hasCollided (run random es w) then 1%nat else 0%nat).
Proof.
  revert w. induction es as [| e rest IH]; intros w.
  - cbn [trace map]. rewrite risingEdges_single.
    split; [lia |]. cbn. intros ->. reflexivity.
  - cbn [trace map]. unfold run. cbn [fold_left].
    fold (run random rest (handle random e w)).
    destruct (trace_head rest (handle random e w)) as (l & El).
    destruct (IH (handle random e w)) as [Hle Heq].
    rewrite El in *. cbn [map] in *. rewrite risingEdges_cons.
    destruct (hasCollided (handle random e w)) eqn:Eh.
    + destruct (collided_stays rest _ Eh) as [Hr Hz].
      rewrite El in Hz. cbn [map] in Hz. rewrite Eh in Hz.
      rewrite Hz, Hr. split; [destruct (hasCollided w); cbn; lia |].
      intros ->. reflexivity.
    + rewrite andb_false_r. cbn [Nat.add]. split; [exact Hle |].
      intros _. now apply Heq.
Qed.

Lemma handle_noFadeYet (e : event) (w : World) :
  noFadeYet w -> noFadeYet (handle random e w).
Proof.
  intros Hw Hc. 
  destruct (hasCollided w) eqn:Ew.
  { rewrite (proj1 (handle_flag e w) Ew) in Hc. discriminate. }
  destruct (Hw Ew) as [Hf Hp].
  destruct e as [code | code | time now]; cbn [handle] in *.
  - cbn [keydown audio]. unfold startAudio.
    destruct (startAudioListener w); [| auto].
    destruct (audioStarted (audio w)); auto.
  - cbn [keyup audio]. auto.
  - set (w0 := mkWorld _ _ _ _ _ _ _ _ _ _ _) in *.
    destruct (animate_fields time now w0) as (Hc' & _ & Ha & _).
    rewrite Hc' in Hc. rewrite Ha.
    destruct (negb (hasCollided w0) && JS.lt (sphereDistance w0) #1);
      [discriminate |].
    cbn [w0 audio]. unfold runPendingSteps. rewrite Hp. cbn [fold_left].
    unfold smoothGain, setAudioIntensity.
    cbn [audioStarted fading pendingSteps].
    destruct (audioStarted (audio w)); cbn [negb andb];
      rewrite ?Hf; cbn [negb andb fading pendingSteps audioStarted];
      rewrite ?Hf; auto.
Qed.

Lemma run_noFadeYet (es : list event) (w : World) :
  noFadeYet w -> noFadeYet (run random es w).
Proof.
  revert w. induction es as [| e rest IH]; intros w Hw; [exact Hw |].
  unfold run. cbn [fold_left]. apply IH, handle_noFadeYet, Hw.
Qed.

End Collision.

Lemma handle_frame_flag (random : nat -> R) (time now : number) (w : World) :
  hasCollided (handle random (AnimationFrame time now) w)
  = hasCollided w || JS.lt (sphereDistance w) #1.
Proof.
  cbn [handle]. set (w0 := mkWorld _ _ _ _ _ _ _ _ _ _ _).
  rewrite (proj1 (animate_fields random time now w0)).
  cbn [w0 hasCollided]. change (sphereDistance w0) with (sphereDistance w).
  destruct (hasCollided w), (JS.lt (sphereDistance w) #1); reflexivity.
Qed.

Lemma handle_key_flag (random : nat -> R) (code : string) (w : World) :
  hasCollided (handle random (KeyDown code) w) = hasCollided w /\
  hasCollided (handle random (KeyUp code) w) = hasCollided w.
Proof. split; reflexivity. Qed.

(** The flag is set at the end of a session exactly when it was set at the
    start or some frame of the session measured a distance below 1. *)
Lemma collided_iff_some_frame (random : nat -> R) (es : list event) (w : World) :
  hasCollided (run random es w) = true <->
  hasCollided w = true \/
  exists (es1 : list event) (time now : number) (es2 : list event),
    es = es1 ++ AnimationFrame time now :: es2 /\
    JS.lt (sphereDistance (run random es1 w)) #1 = true.
Proof.
  induction es as [| e es IH] using rev_ind.
  - cbn. split; [auto |]. intros [H | (es1 & t & n & es2 & E & _)]; [exact H |].
    destruct es1; discriminate.
  - rewrite run_snoc. split.
    + intros H.
      destruct (hasCollided (run random es w)) eqn:Ec.
      * destruct (proj1 IH eq_refl) as [Hw | (es1 & t & n & es2 & -> & Hd)];
          [now left |].
        right. exists es1, t, n, (es2 ++ [e]).
        split; [now rewrite <- app_assoc | exact Hd].
      * destruct e as [code | code | t n].
        -- rewrite (proj1 (handle_key_flag random code _)) in H. congruence.
        -- rewrite (proj2 (handle_key_flag random code _)) in H. congruence.
        -- rewrite handle_frame_flag, Ec in H. cbn [orb] in H.
           right. exists es, t, n, []. split; [reflexivity | exact H].
    + intros H.
      assert (Hprev : hasCollided (run random es w) = true \/
                      exists t n, e = AnimationFrame t n /\
                        JS.lt (sphereDistance (run random es w)) #1 = true).
      { destruct H as [Hw | (es1 & t & n & es2 & E & Hd)].
        - left. apply IH. now left.
        - destruct es2 as [| e2 es2 _] using rev_ind.
          + apply app_inj_tail in E. destruct E as [-> ->].
            right. now exists t, n.
          + rewrite app_comm_cons, app_assoc in E.
            apply app_inj_tail in E. destruct E as [-> _].
            left. apply IH. right. now exists es1, t, n, es2. }
      destruct Hprev as [Hc | (t & n & -> & Hd)].
      * now apply (handle_flag random e).
      * rewrite handle_frame_flag, Hd. apply orb_true_r.
Qed.

(** [fading] is set by [fadeOutAudio] alone. *)
Lemma step_fading (c : FadeStep) (now : number) (a : Audio) :
  fading (step c now a) = true -> fading a = true.
Proof.
  unfold step. destruct (JS.lt (fadeProgress c now) #1); cbn [fading];
    [auto | discriminate].
Qed.

Lemma fold_step_fading (now : number) (cs : list FadeStep) (a : Audio) :
  fading (fold_left (fun a' c => step c now a') cs a) = true ->
  fading a = true.
Proof.
  revert a. induction cs as [| c rest IH]; intros a H; [exact H |].
  cbn [fold_left] in H. apply IH in H. now apply step_fading in H.
Qed.

Lemma runPendingSteps_fading (now : number) (a : Audio) :
  fading (runPendingSteps now a) = true -> fading a = true.
Proof.
  unfold runPendingSteps. intros H. now apply fold_step_fading in H.
Qed.

Lemma smoothGain_setAudioIntensity_fading (v : number) (a : Audio) :
  fading (smoothGain (setAudioIntensity v a)) = fading a.
Proof.
  unfold smoothGain, setAudioIntensity.
  destruct (audioStarted a) eqn:Es; cbn [negb audioStarted fading];
    rewrite ?Es; destruct (fading a) eqn:Ef; cbn [negb andb fading];
    rewrite ?Ef; reflexivity.
Qed.

Lemma fading_rises_when_engulfed (random : nat -> R) (e : event) (w : World) :
  fading (audio w) = false ->
  fading (audio (handle random e w)) = true ->
  hasCollided w = false /\ hasCollided (handle random e w) = true.
Proof.
  intros Hf Hf'. destruct e as [code | code | time now].
  - exfalso. cbn [handle keydown audio] in Hf'. unfold startAudio in Hf'.
    destruct (startAudioListener w); [| congruence].
    destruct (audioStarted (audio w)); cbn [fading] in Hf'; congruence.
  - exfalso. cbn [handle keyup audio] in Hf'. congruence.
  - rewrite handle_frame_flag.
    cbn [handle] in Hf'. rewrite animate_audio in Hf'.
    cbn [hasCollided audio] in Hf'.
    change (sphereDistance (mkWorld _ _ (spherePosition w) _ _ _ _ _ _ _ _))
      with (sphereDistance w) in Hf'.
    destruct (hasCollided w); cbn [negb andb orb] in *.
    + exfalso. rewrite smoothGain_setAudioIntensity_fading in Hf'.
      apply runPendingSteps_fading in Hf'. congruence.
    + destruct (JS.lt (sphereDistance w) #1); [auto |].
      exfalso. rewrite smoothGain_setAudioIntensity_fading in Hf'.
      apply runPendingSteps_fading in Hf'. congruence.
Qed.

Lemma fades_started_le_collisions (random : nat -> R) (es : list event)
    (w : World) :
  (risingEdges (map (fun w' => fading (audio w')) (trace random es w))
   <= risingEdges (map hasCollided (trace random es w)))%nat.
Proof.
  revert w. induction es as [| e rest IH]; intros w.
  - cbn [trace map]. rewrite !risingEdges_single. lia.
  - cbn [trace map]. specialize (IH (handle random e w)).
    destruct (trace_head random rest (handle random e w)) as (l & El).
    rewrite El in *. cbn [map] in *. rewrite !risingEdges_cons.
    set (F := risingEdges (fading (audio (handle random e w)) :: _)) in *.
    set (G := risingEdges (hasCollided (handle random e w) :: _)) in *.
    destruct (fading (audio w)) eqn:Ef; cbn [negb andb]; [lia |].
    destruct (fading (audio (handle random e w))) eqn:Ef'; [| lia].
    destruct (fading_rises_when_engulfed random e w Ef Ef') as [Hc Hc'].
    rewrite Hc, Hc'. cbn [negb andb]. lia.
Qed.

(** * Further properties of the code *)

(** ** The values written for the renderer *)

(** X1.  For every finite time the pulsation scale of the sphere stays in
    [[0.91, 1.09]].  For every distance [dist >= 0] the lens strength lies
    in [[0.14, 0.53]], does not increase with the distance and sits on its
    floor 0.14 from [dist = 78/7] on; the lens radius lies in
    [[0.18, 0.49]], does not increase and sits on 0.18 from [dist = 155/7]
    on; the chromatic offset is 0.005 below distance 10 and 0.0006 from 10
    on. *)
Theorem lens_and_scale_ranges :
  (forall t : R, exists s : R, scale #t = #s /\ 0.91 <= s <= 1.09) /\
  (forall d : R, 0 <= d ->
     exists s r : R,
       lensStrength #d = #s /\ 0.14 <= s <= 0.53 /\
       lensRadius #d = #r /\ 0.18 <= r <= 0.49) /\
  (forall d1 d2 : R, d1 <= d2 ->
     exists s1 s2 r1 r2 : R,
       lensStrength #d1 = #s1 /\ lensStrength #d2 = #s2 /\ s2 <= s1 /\
       lensRadius #d1 = #r1 /\ lensRadius #d2 = #r2 /\ r2 <= r1) /\
  (forall d : R, 78 / 7 <= d -> lensStrength #d = #0.14) /\
  (forall d : R, 155 / 7 <= d -> lensRadius #d = #0.18) /\
  (forall d : R, d < 10 -> chromaAmount #d = #0.005) /\
  (forall d : R, 10 <= d -> chromaAmount #d = #0.0006).
Proof.
  assert (Hs : forall d : R,
            lensStrength #d = #(Rmax 0.14 (0.53 + - (d * 0.035)))).
  { intros d. reflexivity. }
  assert (Hr : forall d : R,
            lensRadius #d = #(0.18 + Rmax 0 (0.31 + - (d * 0.014)))).
  { intros d. reflexivity. }
  split; [| split; [| split; [| split; [| split; [| split]]]]].
  - intros t. unfold scale. js_unfold. eexists. split; [reflexivity |].
    pose proof (SIN_bound (t * 0.002)). lra.
  - intros d Hd. do 2 eexists.
    split; [apply Hs |]. split; [minmax; lra |].
    split; [apply Hr | minmax; lra].
  - intros d1 d2 Hd. do 4 eexists.
    split; [apply Hs |]. split; [apply Hs |]. split; [minmax; lra |].
    split; [apply Hr |]. split; [apply Hr | minmax; lra].
  - intros d Hd. rewrite Hs. f_equal. minmax; lra.
  - intros d Hd. rewrite Hr. f_equal. minmax; lra.
  - intros d Hd. unfold chromaAmount. now rewrite lt_num_true.
  - intros d Hd. unfold chromaAmount. now rewrite lt_num_false.
Qed.

Lemma lens_and_scale_ranges_witness :
  lensStrength #20 = #0.14 /\ lensRadius #30 = #0.18 /\
  chromaAmount #3 = #0.005.
Proof.
  split; [| split].
  - apply (proj1 (proj2 (proj2 (proj2 lens_and_scale_ranges)))). lra.
  - apply (proj1 (proj2 (proj2 (proj2 (proj2 lens_and_scale_ranges))))). lra.
  - apply (proj1 (proj2 (proj2 (proj2 (proj2 (proj2 lens_and_scale_ranges)))))).
    lra.
Defined.

(** X2.  For every finite time, every particle index and every distance
    [d >= 0], the size written for a particle lies in [[0.6, 1.455]] and
    its alpha in [[0.13, 0.57]]: sizes are positive and alphas are
    opacities above the material's alpha test 0.03.  From distance 8 on the
    size depends on the distance no more, and from distance 280/9 on
    neither does the alpha. *)
Theorem particle_size_alpha_ranges :
  (forall (t d : R) (i : nat), 0 <= d ->
     exists s a : R,
       size #t #d i = #s /\ 0.6 <= s <= 1.455 /\
       alpha #t #d i = #a /\ 0.13 <= a <= 0.57) /\
  (forall (t d : R) (i : nat), 8 <= d ->
     size #t #d i = #(0.8 + 0.20 * sin (t * 0.001 + INR i * 0.07))) /\
  (forall (t d : R) (i : nat), 280 / 9 <= d ->
     alpha #t #d i
     = #(0.21 + 0.08 * sin (INR i * 0.07 * 3)
                * sin (t * 0.001 * 0.9 + INR i * 0.07))).
Proof.
  assert (Hsize : forall (t d : R) (i : nat),
            size #t #d i
            = #(0.8 + Rmin 3.5 (Rmax 0 (8 + - d)) * 0.13
                + 0.20 * sin (t * 0.001 + INR i * 0.07))).
  { intros. reflexivity. }
  assert (Halpha : forall (t d : R) (i : nat),
            alpha #t #d i
            = #(0.11 + Rmax 0 (0.28 + - (d * 0.009)) + 0.10
                + 0.08 * sin (INR i * 0.07 * 3)
                  * sin (t * 0.001 * 0.9 + INR i * 0.07))).
  { intros. reflexivity. }
  split; [| split].
  - intros t d i Hd. do 2 eexists.
    split; [apply Hsize |].
    pose proof (SIN_bound (t * 0.001 + INR i * 0.07)) as H1.
    split; [minmax; lra |].
    split; [apply Halpha |].
    pose proof (SIN_bound (INR i * 0.07 * 3)) as H2.
    pose proof (SIN_bound (t * 0.001 * 0.9 + INR i * 0.07)) as H3.
    assert (Hp : -1 <= sin (INR i * 0.07 * 3)
                       * sin (t * 0.001 * 0.9 + INR i * 0.07) <= 1) by nra.
    rewrite Rmult_assoc. minmax; lra.
  - intros t d i Hd. rewrite Hsize. f_equal. minmax; lra.
  - intros t d i Hd. rewrite Halpha. f_equal. minmax; lra.
Qed.

Lemma particle_size_alpha_ranges_witness :
  exists s a : R,
    size #0 #5 3 = #s /\ 0.6 <= s <= 1.455 /\
    alpha #0 #5 3 = #a /\ 0.13 <= a <= 0.57.
Proof.
  apply (proj1 particle_size_alpha_ranges). lra.
Defined.

(** ** The sphere: noise, input, speed and the pull far from the vortex *)

Lemma sqrt_le_bound (s b : R) : 0 <= b -> s <= b * b -> sqrt s <= b.
Proof.
  intros Hb Hs. rewrite <- (sqrt_square b Hb). now apply sqrt_le_1_alt.
Qed.

Lemma square_le_1 (u : R) : -1 <= u <= 1 -> u * u <= 1.
Proof. intros H. nra. Qed.

(** X3.  For every finite time and every distance [dist >= 0] the noise
    amplitude lies in [[0.0005, 0.005]] (it is 0.0005 from distance 90 on),
    the three components of the noise vector are bounded by the amplitude,
    by 0.55 times it and by the amplitude, and the vector is shorter than
    0.008. *)
Theorem noise_is_small :
  (forall t d : R, 0 <= d ->
     exists A nx ny nz l : R,
       noiseAmplitude #d = #A /\ 0.0005 <= A <= 0.005 /\
       noise #t #d = Vector3.make #nx #ny #nz /\
       Rabs nx <= A /\ Rabs ny <= 0.55 * A /\ Rabs nz <= A /\
       Vector3.length (noise #t #d) = #l /\ l <= 0.008) /\
  (forall d : R, 90 <= d -> noiseAmplitude #d = #0.0005).
Proof.
  assert (HA : forall d : R,
            noiseAmplitude #d = #(0.005 * Rmax 0.1 (1 + - (d / 100)))).
  { intros d. unfold noiseAmplitude. rewrite div_num by lra. reflexivity. }
  split.
  - intros t d Hd.
    set (A := 0.005 * Rmax 0.1 (1 + - (d / 100))).
    assert (HAr : 0.0005 <= A <= 0.005) by (unfold A; minmax; lra).
    set (angle := sin (t * 0.0017) * PI * 2 + cos (t * 0.00113)).
    assert (En : noise #t #d
                 = Vector3.make #(sin (angle + 0.6) * A)
                     #(sin (angle - 0.3) * A * 0.55)
                     #(cos (angle + 0.3) * A)).
    { unfold noise. rewrite HA. reflexivity. }
    pose proof (SIN_bound (angle + 0.6)) as H1.
    pose proof (SIN_bound (angle - 0.3)) as H2.
    pose proof (COS_bound (angle + 0.3)) as H3.
    pose proof (square_le_1 _ H1) as Q1.
    pose proof (square_le_1 _ H2) as Q2.
    pose proof (square_le_1 _ H3) as Q3.
    exists A, (sin (angle + 0.6) * A), (sin (angle - 0.3) * A * 0.55),
      (cos (angle + 0.3) * A).
    eexists.
    split; [apply HA |]. split; [exact HAr |]. split; [exact En |].
    split; [apply Rabs_le; nra |].
    split; [apply Rabs_le; nra |].
    split; [apply Rabs_le; nra |].
    rewrite En, length_num. split; [reflexivity |].
    apply sqrt_le_bound; [lra |].
    assert (HAA : A * A <= 0.000025) by nra.
    assert (HA0 : 0 <= A * A) by nra.
    nra.
  - intros d Hd. rewrite HA. f_equal. minmax; lra.
Qed.

Lemma noise_is_small_witness : noiseAmplitude #100 = #0.0005.
Proof. apply (proj2 noise_is_small). lra. Defined.

Lemma length_scaled (a b c f : R) :
  0 <= f ->
  sqrt (a * f * (a * f) + b * f * (b * f) + c * f * (c * f))
  = f * sqrt (a * a + b * b + c * c).
Proof.
  intros Hf.
  replace (a * f * (a * f) + b * f * (b * f) + c * f * (c * f))
    with (f * f * (a * a + b * b + c * c)) by ring.
  rewrite sqrt_mult by nra. now rewrite sqrt_square.
Qed.

Lemma frame_speed (random : nat -> R) (time now : number)
    (w : World) :
  JS.isFinite time = true ->
  Vector3.isFinite (spherePosition w) = true ->
  Vector3.isFinite (sphereVelocity w) = true ->
  JS.isFinite (moveX (moveTarget w)) = true ->
  JS.isFinite (moveZ (moveTarget w)) = true ->
  spherePosition w <> vortexPos ->
  exists s : R,
    Vector3.length (sphereVelocity (animate random time now w)) = #s /\
    s <= 1.3392 /\
    Vector3.length
      (Vector3.sub (spherePosition (animate random time now w))
         (spherePosition w)) = #s.
Proof.
  intros Ht Hp Hv Hx Hz Hne.
  destruct (isFinite_num _ Ht) as (t & ->).
  destruct (finite_vector _ Hp) as (px & py & pz & Ep).
  destruct (finite_vector _ Hv) as (vx & vy & vz & Ev).
  destruct (isFinite_num _ Hx) as (mx & Ex).
  destruct (isFinite_num _ Hz) as (mz & Ez).
  assert (Em : moveTarget w = mkMoveTarget #mx #mz).
  { destruct (moveTarget w). cbn in Ex, Ez. now subst. }
  unfold animate.
  destruct (updateParticles random (particles w) (randomCalls w)) as [qs k'].
  cbn [sphereVelocity spherePosition].
  rewrite Em, Ep, Ev. rewrite Ep in Hne.
  destruct (accelerate_finite t mx mz px py pz vx vy vz Hne)
    as (a & b & c & ->).
  rewrite clampSpeed_num.
  set (l := sqrt (a * a + b * b + c * c)).
  assert (Hl0 : 0 <= l) by apply sqrt_pos.
  destruct (Rlt_dec 1.35 l) as [Hl | Hl].
  - exists (0.992 * 1.35). unfold applyFriction, friction, Vector3.multiplyScalar.
    cbn [Vector3.x Vector3.y Vector3.z JS.mul].
    assert (E : sqrt (a * (1 / l) * 1.35 * 0.992 * (a * (1 / l) * 1.35 * 0.992)
                      + b * (1 / l) * 1.35 * 0.992 * (b * (1 / l) * 1.35 * 0.992)
                      + c * (1 / l) * 1.35 * 0.992 * (c * (1 / l) * 1.35 * 0.992))
                = 0.992 * 1.35).
    { rewrite (length_scaled (a * (1 / l) * 1.35) (b * (1 / l) * 1.35)
                 (c * (1 / l) * 1.35) 0.992) by lra.
      pose proof (rescaled_length a b c 1.35) as Hr. cbv zeta in Hr.
      fold l in Hr. rewrite Hr; [reflexivity | lra | lra]. }
    split; [rewrite length_num; f_equal; exact E |].
    split; [lra |].
    unfold Vector3.add, Vector3.sub.
    cbn [Vector3.x Vector3.y Vector3.z JS.add JS.sub JS.neg].
    rewrite length_num. f_equal. rewrite <- E. f_equal. ring.
  - exists (0.992 * l). unfold applyFriction, friction, Vector3.multiplyScalar.
    cbn [Vector3.x Vector3.y Vector3.z JS.mul].
    pose proof (length_scaled a b c 0.992 ltac:(lra)) as E. fold l in E.
    split; [rewrite length_num; f_equal; exact E |].
    split; [lra |].
    unfold Vector3.add, Vector3.sub.
    cbn [Vector3.x Vector3.y Vector3.z JS.add JS.sub JS.neg].
    rewrite length_num. f_equal. rewrite <- E. f_equal. ring.
Qed.

(** X4.  After a frame that starts within the working range (position and
    velocity within [workingRange], a key state of the handlers, the sphere
    at least [nearestDistance] from the vortex) and with a finite time, the
    speed of the sphere is at most [friction * maxSpeed] = 1.3392, however
    strong the forces were; the new position is the old one plus the new
    velocity, so the sphere has moved by at most 1.3392. *)
Theorem sphere_speed_after_frame (random : nat -> R) (time now : number)
    (w : World) :
  JS.isFinite time = true ->
  inWorkingRange w ->
  (exists s : R,
     Vector3.length (sphereVelocity (animate random time now w)) = #s /\
     s <= 1.3392) /\
  spherePosition (animate random time now w)
  = Vector3.add (spherePosition w) (sphereVelocity (animate random time now w)) /\
  (exists s : R,
     Vector3.length
       (Vector3.sub (spherePosition (animate random time now w))
          (spherePosition w)) = #s /\
     s <= 1.3392).
Proof.
  intros Ht Hw.
  destruct (inWorkingRange_num w Hw)
    as (px & py & pz & vx & vy & vz & mx & mz & Ep & Ev & Em & Hd).
  unfold nearestDistance in Hd.
  destruct (frame_speed random time now w) as (s & Hs & Hle & Hmove).
  - exact Ht.
  - now rewrite Ep.
  - now rewrite Ev.
  - now rewrite Em.
  - now rewrite Em.
  - rewrite Ep. apply off_vortex. lra.
  - split; [exists s; split; [exact Hs | exact Hle] |].
    split; [| exists s; split; [exact Hmove | exact Hle]].
    unfold animate.
    destruct (updateParticles random (particles w) (randomCalls w)).
    reflexivity.
Qed.

Lemma sphere_speed_after_frame_witness :
  exists s : R,
    Vector3.length
      (sphereVelocity (animate (fun _ => 0) #0 #0 (initialWorld (fun _ => 0))))
      = #s /\
    s <= 1.3392.
Proof.
  apply (sphere_speed_after_frame (fun _ => 0) #0 #0 (initialWorld (fun _ => 0))).
  - reflexivity.
  - apply initialWorld_inWorkingRange.
Defined.

(** X5.  From distance 80/9 on the pull [K / dist^2] is never negative and
    never more than 81/640 (about 0.127 per frame), a value it takes at
    distance 160/9; from distance 410 on, where [K] is capped at 1805, it is
    [1805 / dist^2]. *)
Theorem gravity_pull_is_bounded_outside :
  (forall d : R, 80 / 9 <= d ->
     exists g : R, gravStrength #d = #g /\ 0 <= g <= 81 / 640) /\
  gravStrength #(160 / 9) = #(81 / 640) /\
  (forall d : R, 410 <= d -> gravStrength #d = #(1805 / (d * d))).
Proof.
  split; [| split].
  - intros d Hd. eexists. split; [apply gravStrength_num; lra |].
    assert (Hdd : 0 < d * d) by nra.
    split.
    + apply Rmult_le_pos; [minmax; lra |].
      left. now apply Rinv_0_lt_compat.
    + apply Rmult_le_reg_r with (d * d); [exact Hdd |].
      unfold Rdiv at 1. rewrite Rmult_assoc, Rinv_l, Rmult_1_r by lra.
      pose proof (Rle_0_sqr (9 * d - 160)) as Hsq. unfold Rsqr in Hsq.
      minmax; nra.
  - rewrite gravStrength_num by lra. f_equal.
    rewrite Rmin_right by lra. field.
  - intros d Hd. rewrite gravStrength_num by lra. f_equal.
    rewrite Rmin_left by lra. f_equal. lra.
Qed.

Lemma gravity_pull_is_bounded_outside_witness :
  exists g : R, gravStrength #1018 = #g /\ 0 <= g <= 81 / 640.
Proof. apply (proj1 gravity_pull_is_bounded_outside). lra. Defined.



(** ** The key state *)

Lemma keydown_axisValue (code : string) (w : World) :
  axisValue (moveX (moveTarget w)) -> axisValue (moveZ (moveTarget w)) ->
  axisValue (moveX (moveTarget (keydown code w))) /\
  axisValue (moveZ (moveTarget (keydown code w))).
Proof.
  intros Hx Hz. unfold keydown. cbn [moveTarget].
  destruct (String.eqb code "ArrowLeft"), (String.eqb code "ArrowRight"),
    (String.eqb code "ArrowUp"), (String.eqb code "ArrowDown");
    cbn [moveX moveZ]; unfold axisValue in *; auto.
Qed.

Lemma keyup_axisValue (code : string) (w : World) :
  axisValue (moveX (moveTarget w)) -> axisValue (moveZ (moveTarget w)) ->
  axisValue (moveX (moveTarget (keyup code w))) /\
  axisValue (moveZ (moveTarget (keyup code w))).
Proof.
  intros Hx Hz. unfold keyup. cbn [moveTarget].
  destruct (String.eqb code "ArrowLeft" || String.eqb code "ArrowRight"),
    (String.eqb code "ArrowUp" || String.eqb code "ArrowDown");
    cbn [moveX moveZ]; unfold axisValue in *; auto.
Qed.

Lemma animate_moveTarget (random : nat -> R) (time now : number) (w : World) :
  moveTarget (animate random time now w) = moveTarget w.
Proof.
  unfold animate.
  destruct (updateParticles random (particles w) (randomCalls w)).
  reflexivity.
Qed.

Lemma handle_axisValue (random : nat -> R) (e : event) (w : World) :
  axisValue (moveX (moveTarget w)) /\ axisValue (moveZ (moveTarget w)) ->
  axisValue (moveX (moveTarget (handle random e w))) /\
  axisValue (moveZ (moveTarget (handle random e w))).
Proof.
  intros [Hx Hz]. destruct e as [code | code | time now]; cbn [handle].
  - now apply keydown_axisValue.
  - now apply keyup_axisValue.
  - rewrite animate_moveTarget. cbn [moveTarget]. auto.
Qed.

(** X7.  Throughout every session each axis of the key state is -1, 0 or 1
    (so it is always finite).  A key other than the four arrows leaves the
    key state as it is.  Releasing either key of an axis zeroes that axis,
    also when the opposite key is the one still held: after ArrowRight
    down, ArrowLeft down, ArrowLeft up the x axis is 0, not 1. *)
Theorem key_state_values (random : nat -> R) :
  (forall es : list event,
     axisValue (moveX (moveTarget (run random es (initialWorld random)))) /\
     axisValue (moveZ (moveTarget (run random es (initialWorld random))))) /\
  (forall (code : string) (w : World),
     code <> "ArrowLeft"%string -> code <> "ArrowRight"%string ->
     code <> "ArrowUp"%string -> code <> "ArrowDown"%string ->
     moveTarget (keydown code w) = moveTarget w /\
     moveTarget (keyup code w) = moveTarget w) /\
  (forall w : World,
     moveX (moveTarget (keyup "ArrowLeft" w)) = #0 /\
     moveX (moveTarget (keyup "ArrowRight" w)) = #0 /\
     moveZ (moveTarget (keyup "ArrowUp" w)) = #0 /\
     moveZ (moveTarget (keyup "ArrowDown" w)) = #0) /\
  (forall w : World,
     moveX (moveTarget
              (keyup "ArrowLeft"
                 (keydown "ArrowLeft" (keydown "ArrowRight" w)))) = #0).
Proof.
  split; [| split; [| split]].
  - intros es. induction es as [| e es IH] using rev_ind.
    + cbn. unfold axisValue. auto.
    + rewrite run_snoc. now apply handle_axisValue.
  - intros code w H1 H2 H3 H4.
    apply String.eqb_neq in H1, H2, H3, H4.
    unfold keydown, keyup. cbn [moveTarget]. rewrite H1, H2, H3, H4.
    cbn [orb]. split; reflexivity.
  - intros w. repeat split; reflexivity.
  - intros w. reflexivity.
Qed.

Lemma key_state_values_witness :
  moveTarget (keydown "Space" (initialWorld (fun _ => 0)))
  = moveTarget (initialWorld (fun _ => 0)).
Proof.
  apply (proj1 (proj2 (key_state_values (fun _ => 0)))); discriminate.
Defined.

(** ** The life of the audio *)

(** While the audio is not started and no closure is pending, only
    [startAudio] changes the envelope. *)
Lemma idle_call (c : audioCall) (a : Audio) :
  audioStarted a = false -> pendingSteps a = [] -> c <> CallStartAudio ->
  call c a = a.
Proof.
  intros Hs Hp Hc. destruct a as [st tg cg fd gv ff pl ps].
  cbn [audioStarted pendingSteps] in Hs, Hp. subst st ps.
  destruct c as [| v | | d now | now]; [congruence | | | |]; reflexivity.
Qed.

Lemma idle_calls (cs : list audioCall) (a : Audio) :
  audioStarted a = false -> pendingSteps a = [] ->
  Forall (fun c => c <> CallStartAudio) cs ->
  calls cs a = a.
Proof.
  intros Hs Hp Hcs. induction Hcs as [| c cs Hc _ IH]; [reflexivity |].
  cbn [calls fold_left]. rewrite idle_call by assumption. exact IH.
Qed.

Lemma frame_calls_no_start (time now : number) (w : World) :
  Forall (fun c => c <> CallStartAudio)
    (audioCallsOf (AnimationFrame time now) w).
Proof.
  cbn [audioCallsOf].
  destruct (negb (hasCollided w) && JS.lt (sphereDistance w) #1);
    repeat constructor; discriminate.
Qed.

Lemma running_keeps_running (c : audioCall) (a : Audio) :
  audioRunning a ->
  (forall now, c <> CallAnimationFrame now) ->
  audioRunning (call c a).
Proof.
  intros (Hs & Hp & Hf) Hc.
  pose proof (call_singleFade c a Hf) as Hf'.
  split; [| split; [| exact Hf']]; clear Hf'.
  - destruct c as [| v | | d now | now]; cbn [call].
    + unfold startAudio. now rewrite Hs.
    + unfold setAudioIntensity. now rewrite Hs.
    + unfold smoothGain. destruct (audioStarted a && negb (fading a)); assumption.
    + unfold fadeOutAudio.
      destruct (negb (audioStarted a) || fading a); assumption.
    + exfalso. now apply (Hc now).
  - destruct c as [| v | | d now | now]; cbn [call].
    + unfold startAudio. now rewrite Hs.
    + unfold setAudioIntensity. now rewrite Hs.
    + unfold smoothGain. destruct (audioStarted a && negb (fading a)); assumption.
    + unfold fadeOutAudio.
      destruct (negb (audioStarted a) || fading a); assumption.
    + exfalso. now apply (Hc now).
Qed.

Lemma running_frame (now : number) (a : Audio) :
  audioRunning a ->
  audioRunning (runPendingSteps now a) \/
  (audioStopped (runPendingSteps now a) /\ fading a = true).
Proof.
  intros (Hs & Hp & Hf).
  pose proof (runPendingSteps_singleFade now a Hf) as Hf'.
  destruct Hf as [Hlen Hnil].
  unfold runPendingSteps in *.
  destruct (pendingSteps a) as [| c [| c' rest]] eqn:Ep.
  - left. cbn [fold_left] in *. repeat split; try assumption; apply Hf'.
  - cbn [fold_left] in *. unfold step in *.
    destruct (JS.lt (fadeProgress c now) #1).
    + left. repeat split; try assumption; apply Hf'.
    + right. split; [repeat split |].
      destruct (fading a); [reflexivity |].
      now specialize (Hnil eq_refl).
  - cbn [List.length] in Hlen. lia.
Qed.

Lemma animate_listener (random : nat -> R) (time now : number) (w : World) :
  startAudioListener (animate random time now w) = startAudioListener w.
Proof.
  unfold animate.
  destruct (updateParticles random (particles w) (randomCalls w)).
  reflexivity.
Qed.

Lemma stopped_frozen (random : nat -> R) (e : event) (w : World) :
  startAudioListener w = false -> audioStarted (audio w) = false ->
  pendingSteps (audio w) = [] ->
  audio (handle random e w) = audio w /\
  startAudioListener (handle random e w) = false.
Proof.
  intros Hl Hs Hp. split.
  - rewrite audio_handle.
    destruct e as [code | code | time now]; cbn [audioCallsOf].
    + now rewrite Hl.
    + reflexivity.
    + apply idle_calls; try assumption.
      apply (frame_calls_no_start time now w).
  - destruct e as [code | code | time now]; cbn [handle].
    + reflexivity.
    + exact Hl.
    + now rewrite animate_listener.
Qed.

Lemma handle_phase (random : nat -> R) (e : event) (w : World) :
  phase w -> phase (handle random e w).
Proof.
  intros [Hl Ha | Hl Hr Hc | Hl Hst Hc].
  - destruct e as [code | code | time now].
    + apply Running.
      * reflexivity.
      * cbn [handle keydown audio]. rewrite Hl, Ha.
        repeat split; cbn; try reflexivity; lia.
      * cbn [handle keydown audio]. rewrite Hl, Ha. discriminate.
    + apply NotStarted; [exact Hl | exact Ha].
    + apply NotStarted.
      * cbn [handle]. now rewrite animate_listener.
      * rewrite audio_handle, Ha.
        apply idle_calls; try reflexivity.
        apply (frame_calls_no_start time now w).
  - assert (Hlatch : hasCollided w = true ->
                     hasCollided (handle random e w) = true)
      by apply (handle_flag random e w).
    assert (Hlink : audioRunning (audio (handle random e w)) ->
                    startAudioListener (handle random e w) = false ->
                    phase (handle random e w)).
    { intros Hr' Hl'. apply Running; [exact Hl' | exact Hr' |].
      intros Hf'. destruct (fading (audio w)) eqn:Ef.
      - apply Hlatch, Hc. reflexivity.
      - now apply (fading_rises_when_engulfed random e w Ef Hf'). }
    destruct e as [code | code | time now].
    + apply Hlink; [| reflexivity].
      cbn [handle keydown audio]. now rewrite Hl.
    + apply Hlink; [exact Hr | exact Hl].
    + assert (Hl' : startAudioListener
                      (handle random (AnimationFrame time now) w) = false).
      { cbn [handle]. now rewrite animate_listener. }
      assert (Ea : audio (handle random (AnimationFrame time now) w)
                   = calls
                       ([CallSetAudioIntensity
                           (proximityIntensity (sphereDistance w));
                         CallSmoothGain]
                        ++ (if negb (hasCollided w)
                               && JS.lt (sphereDistance w) #1
                            then [CallFadeOutAudio defaultDuration now]
                            else []))
                       (runPendingSteps time (audio w))).
      { rewrite audio_handle. reflexivity. }
      destruct (running_frame time (audio w) Hr) as [Hr0 | [Hs0 Hf]].
      * apply Hlink; [| exact Hl']. rewrite Ea.
        destruct (negb (hasCollided w) && JS.lt (sphereDistance w) #1);
          cbn [app calls fold_left];
          repeat (apply running_keeps_running; [| discriminate]);
          exact Hr0.
      * apply Stopped; [exact Hl' | | apply Hlatch, Hc, Hf].
        rewrite Ea. pose proof Hs0 as (Hs0' & Hf0 & Hp0 & Hrest).
        rewrite idle_calls; [exact Hs0 | assumption | assumption |].
        destruct (negb (hasCollided w) && JS.lt (sphereDistance w) #1);
          repeat constructor; discriminate.
  - destruct Hst as (Hs & Hf & Hp & Hrest).
    destruct (stopped_frozen random e w Hl Hs Hp) as [Ea Hl'].
    apply Stopped; [exact Hl' | | now apply (handle_flag random e w)].
    rewrite Ea. repeat split; tauto.
Qed.

(** ** Smoothing: the gain and the camera *)

Lemma frames_gain (r g : R) (a : Audio) (n : nat) :
  audioStarted a = true -> fading a = false -> currentGain a = #g ->
  audioStarted
    (Nat.iter n (fun a0 => smoothGain (setAudioIntensity #r a0)) a) = true /\
  fading
    (Nat.iter n (fun a0 => smoothGain (setAudioIntensity #r a0)) a) = false /\
  currentGain
    (Nat.iter n (fun a0 => smoothGain (setAudioIntensity #r a0)) a)
  = #(0.13 + 0.95 * Rmax 0 (Rmin 1.2 r)
      + (g - (0.13 + 0.95 * Rmax 0 (Rmin 1.2 r))) * 0.96 ^ n).
Proof.
  intros Hs Hf Hg. induction n as [| n IH].
  - cbn [Nat.iter nat_rect]. repeat split; try assumption.
    rewrite Hg. f_equal. cbn [pow]. lra.
  - rewrite Nat.iter_succ. destruct IH as (Hs' & Hf' & Hg').
    set (b := Nat.iter n _ a) in *. clearbody b.
    unfold setAudioIntensity. rewrite Hs'. cbn [negb].
    unfold smoothGain. cbn [audioStarted fading currentGain targetGain].
    rewrite ?Hs', ?Hf', ?Hg'.
    cbn [negb andb audioStarted fading currentGain].
    repeat split.
    rewrite clampedIntensity_num. cbn [JS.mul JS.add JS.sub JS.neg].
    f_equal. cbn [pow].
    set (tg := 0.13 + 0.95 * Rmax 0 (Rmin 1.2 r)).
    replace ((g - tg) * (0.96 * 0.96 ^ n)) with (0.96 * ((g - tg) * 0.96 ^ n))
      by ring.
    set (p := (g - tg) * 0.96 ^ n). lra.
Qed.

Lemma pow_096_146 : 0.96 ^ 146 <= 0.0026.
Proof.
  assert (H2 : 0 <= 0.96 ^ 2 <= 0.9216) by (cbn [pow]; lra).
  assert (H4 : 0 <= 0.96 ^ 4 <= 0.8494).
  { replace (0.96 ^ 4) with (0.96 ^ 2 * 0.96 ^ 2) by (cbn [pow]; ring). nra. }
  assert (H8 : 0 <= 0.96 ^ 8 <= 0.7215).
  { replace (0.96 ^ 8) with (0.96 ^ 4 * 0.96 ^ 4) by (rewrite <- pow_add; reflexivity). nra. }
  assert (H16 : 0 <= 0.96 ^ 16 <= 0.5206).
  { replace (0.96 ^ 16) with (0.96 ^ 8 * 0.96 ^ 8) by (rewrite <- pow_add; reflexivity). nra. }
  assert (H32 : 0 <= 0.96 ^ 32 <= 0.2711).
  { replace (0.96 ^ 32) with (0.96 ^ 16 * 0.96 ^ 16) by (rewrite <- pow_add; reflexivity). nra. }
  assert (H64 : 0 <= 0.96 ^ 64 <= 0.0735).
  { replace (0.96 ^ 64) with (0.96 ^ 32 * 0.96 ^ 32) by (rewrite <- pow_add; reflexivity). nra. }
  assert (H128 : 0 <= 0.96 ^ 128 <= 0.00541).
  { replace (0.96 ^ 128) with (0.96 ^ 64 * 0.96 ^ 64) by (rewrite <- pow_add; reflexivity). nra. }
  assert (H144 : 0 <= 0.96 ^ 144 <= 0.002817).
  { replace (0.96 ^ 144) with (0.96 ^ 128 * 0.96 ^ 16) by (rewrite <- pow_add; reflexivity). nra. }
  replace (0.96 ^ 146) with (0.96 ^ 144 * 0.96 ^ 2) by (rewrite <- pow_add; reflexivity).
  nra.
Qed.

(** X9.  While the audio plays and no fade is in progress, [n] frames at a
    fixed finite intensity bring the gain from [g] to
    [tg + (g - tg) * 0.96^n] with [tg = 0.13 + 0.95 * clamped intensity]: the
    gap to the target shrinks by 4% per frame, so the gain converges to the
    target and never crosses it.  From the start-up gain 0.7, at intensity
    1, the gain is within 0.001 of the target 1.08 after 146 frames and
    stays so. *)
Theorem gain_converges_geometrically :
  (forall (r g : R) (a : Audio) (n : nat),
     audioStarted a = true -> fading a = false -> currentGain a = #g ->
     currentGain
       (Nat.iter n (fun a0 => smoothGain (setAudioIntensity #r a0)) a)
     = #(0.13 + 0.95 * Rmax 0 (Rmin 1.2 r)
         + (g - (0.13 + 0.95 * Rmax 0 (Rmin 1.2 r))) * 0.96 ^ n)) /\
  (forall (r g : R) (a : Audio) (eps : R),
     audioStarted a = true -> fading a = false -> currentGain a = #g ->
     0 < eps ->
     exists N : nat,
       forall n : nat, (N <= n)%nat ->
       exists g' : R,
         currentGain
           (Nat.iter n (fun a0 => smoothGain (setAudioIntensity #r a0)) a)
         = #g' /\
         Rabs (g' - (0.13 + 0.95 * Rmax 0 (Rmin 1.2 r))) < eps) /\
  (forall n : nat, (146 <= n)%nat ->
     exists g' : R,
       currentGain
         (Nat.iter n (fun a0 => smoothGain (setAudioIntensity #1 a0))
            (startAudio initialAudio))
       = #g' /\
       Rabs (g' - 1.08) < 0.001).
Proof.
  split; [| split].
  - intros r g a n Hs Hf Hg. now apply (frames_gain r g a n Hs Hf Hg).
  - intros r g a eps Hs Hf Hg Heps.
    set (tg := 0.13 + 0.95 * Rmax 0 (Rmin 1.2 r)).
    assert (Hx : Rabs 0.96 < 1) by (rewrite Rabs_pos_eq; lra).
    assert (Hy : 0 < eps / (1 + Rabs (g - tg))).
    { apply Rdiv_lt_0_compat; [exact Heps |].
      pose proof (Rabs_pos (g - tg)). lra. }
    destruct (pow_lt_1_zero 0.96 Hx _ Hy) as (N & HN).
    exists N. intros n Hn. eexists.
    split; [apply (frames_gain r g a n Hs Hf Hg) |].
    fold tg.
    replace (tg + (g - tg) * 0.96 ^ n - tg) with ((g - tg) * 0.96 ^ n) by ring.
    rewrite Rabs_mult.
    specialize (HN n ltac:(lia)).
    pose proof (Rabs_pos (g - tg)) as Hp.
    pose proof (Rabs_pos (0.96 ^ n)) as Hq.
    assert (Hb : Rabs (g - tg) * Rabs (0.96 ^ n)
                 <= Rabs (g - tg) * (eps / (1 + Rabs (g - tg)))).
    { apply Rmult_le_compat_l; lra. }
    assert (Hc : Rabs (g - tg) * (eps / (1 + Rabs (g - tg))) < eps).
    { unfold Rdiv. rewrite <- Rmult_assoc.
      apply Rmult_lt_reg_r with (1 + Rabs (g - tg)); [lra |].
      rewrite Rmult_assoc, Rinv_l by lra. nra. }
    lra.
  - intros n Hn. eexists.
    split; [apply (frames_gain 1 0.7 (startAudio initialAudio) n);
            reflexivity |].
    assert (E : Rmax 0 (Rmin 1.2 1) = 1) by (minmax; lra).
    rewrite E.
    replace (0.13 + 0.95 * 1 + (0.7 - (0.13 + 0.95 * 1)) * 0.96 ^ n - 1.08)
      with (- (0.38 * 0.96 ^ n)) by lra.
    rewrite Rabs_Ropp.
    assert (Hpow : 0 <= 0.96 ^ n <= 0.96 ^ 146).
    { split; [apply pow_le; lra |].
      replace n with (146 + (n - 146))%nat by lia.
      rewrite pow_add.
      assert (H1 : 0 <= 0.96 ^ (n - 146) <= 1).
      { split; [apply pow_le; lra |].
        rewrite <- (pow1 (n - 146)). apply pow_incr. lra. }
      pose proof pow_096_146. assert (0 <= 0.96 ^ 146) by (apply pow_le; lra).
      nra. }
    pose proof pow_096_146.
    rewrite Rabs_pos_eq by lra. lra.
Qed.

Lemma gain_converges_geometrically_witness :
  currentGain
    (Nat.iter 3 (fun a0 => smoothGain (setAudioIntensity #1 a0))
       (startAudio initialAudio))
  = #(0.13 + 0.95 * Rmax 0 (Rmin 1.2 1)
      + (0.7 - (0.13 + 0.95 * Rmax 0 (Rmin 1.2 1))) * 0.96 ^ 3).
Proof.
  apply (proj1 gain_converges_geometrically); reflexivity.
Defined.

Lemma cameraFollow_num (cx cy cz px py pz : R) :
  cameraFollow (Vector3.make #cx #cy #cz) (Vector3.make #px #py #pz)
  = Vector3.make #(px + 0 + (cx - (px + 0)) * 0.87)
      #(py + 2 + (cy - (py + 2)) * 0.87)
      #(pz + 5 + (cz - (pz + 5)) * 0.87).
Proof.
  unfold cameraFollow, camLag, Vector3.lerp, Vector3.add.
  cbn [Vector3.x Vector3.y Vector3.z JS.add JS.sub JS.neg JS.mul].
  f_equal; f_equal; lra.
Qed.

Lemma cameraFollow_iter (cx cy cz px py pz : R) (n : nat) :
  Nat.iter n (fun c => cameraFollow c (Vector3.make #px #py #pz))
    (Vector3.make #cx #cy #cz)
  = Vector3.make #(px + 0 + (cx - (px + 0)) * 0.87 ^ n)
      #(py + 2 + (cy - (py + 2)) * 0.87 ^ n)
      #(pz + 5 + (cz - (pz + 5)) * 0.87 ^ n).
Proof.
  induction n as [| n IH].
  - cbn [Nat.iter nat_rect pow]. f_equal; f_equal; lra.
  - rewrite Nat.iter_succ, IH, cameraFollow_num. cbn [pow].
    f_equal; f_equal; ring.
Qed.

(** X10.  The camera follows the point 2 above and 5 behind the sphere: one
    frame moves each of its coordinates 13% of the way to that target, so
    the remaining offset is 0.87 times the old one and the camera never
    passes the target.  With the sphere at rest, after [n] frames the
    offset is [0.87^n] times the initial one and the distance to the target
    is [0.87^n] times the initial distance. *)
Theorem camera_closes_in (cx cy cz px py pz : R) :
  let c := Vector3.make #cx #cy #cz in
  let p := Vector3.make #px #py #pz in
  let target := Vector3.make #(px + 0) #(py + 2) #(pz + 5) in
  Vector3.add p (Vector3.make #0 #2 #5) = target /\
  Vector3.sub target (cameraFollow c p)
    = Vector3.make #(0.87 * (px + 0 - cx)) #(0.87 * (py + 2 - cy))
        #(0.87 * (pz + 5 - cz)) /\
  (forall n : nat,
     Vector3.sub target (Nat.iter n (fun c' => cameraFollow c' p) c)
       = Vector3.make #(0.87 ^ n * (px + 0 - cx)) #(0.87 ^ n * (py + 2 - cy))
           #(0.87 ^ n * (pz + 5 - cz)) /\
     Vector3.length
       (Vector3.sub target (Nat.iter n (fun c' => cameraFollow c' p) c))
     = #(0.87 ^ n
         * sqrt ((px + 0 - cx) * (px + 0 - cx) + (py + 2 - cy) * (py + 2 - cy)
                 + (pz + 5 - cz) * (pz + 5 - cz)))).
Proof.
  intros c p target. split; [reflexivity |]. split.
  - unfold c, p, target. rewrite cameraFollow_num.
    unfold Vector3.sub.
    cbn [Vector3.x Vector3.y Vector3.z JS.add JS.sub JS.neg].
    f_equal; f_equal; lra.
  - intros n.
    assert (E : Vector3.sub target (Nat.iter n (fun c' => cameraFollow c' p) c)
                = Vector3.make #((px + 0 - cx) * 0.87 ^ n)
                    #((py + 2 - cy) * 0.87 ^ n) #((pz + 5 - cz) * 0.87 ^ n)).
    { unfold c, p, target. rewrite cameraFollow_iter.
      unfold Vector3.sub.
      cbn [Vector3.x Vector3.y Vector3.z JS.add JS.sub JS.neg].
      f_equal; f_equal; ring. }
    split.
    + rewrite E. f_equal; f_equal; ring.
    + rewrite E, length_num. f_equal.
      apply length_scaled. apply pow_le. lra.
Qed.

(** ** The particle pool over a session *)

Lemma updateParticle_cases (random : nat -> R) (px py pz vx vy vz : R) (k : nat) :
  let tx := 0 - px in
  let ty := 0 - py in
  let tz := -18 - pz in
  let d := sqrt (tx * tx + ty * ty + tz * tz) in
  let A := Rmax 0.015 (Rmin 0.07 (0.011 + 0.18 / (d * d)))
           * (if Rlt_dec d 23 then 1.6 else 1) in
  fst (updateParticle random
         (mkParticle (Vector3.make #px #py #pz) (Vector3.make #vx #vy #vz)) k)
  = (if Rlt_dec d 3.5
     then mkParticle (spawn random k) (Vector3.make #0 #0 #0)
     else mkParticle
            (Vector3.make #(px + (vx + tx * (1 / d) * A) * 0.97)
                          #(py + (vy + ty * (1 / d) * A) * 0.97)
                          #(pz + (vz + tz * (1 / d) * A) * 0.97))
            (Vector3.make #((vx + tx * (1 / d) * A) * 0.97)
                          #((vy + ty * (1 / d) * A) * 0.97)
                          #((vz + tz * (1 / d) * A) * 0.97))).
Proof.
  intros tx ty tz d A. destruct (Rlt_dec d 3.5) as [Hd | Hd].
  - now rewrite updateParticle_recycles.
  - rewrite updateParticle_moves by (fold tx ty tz d; lra). reflexivity.
Qed.

Lemma spawn_num (random : nat -> R) (k : nat) :
  spawn random k
  = Vector3.make #((random k - 0.5) * 1500)
      #((random (k + 1)%nat - 0.5) * 1500 * 0.5)
      #((random (k + 2)%nat - 0.5) * 1500 - 10).
Proof. reflexivity. Qed.


Lemma updateParticles_Forall (random : nat -> R) (P : Particle -> Prop) :
  (forall q k, P q -> P (fst (updateParticle random q k))) ->
  forall (qs : list Particle) (k : nat),
    Forall P qs -> Forall P (fst (updateParticles random qs k)).
Proof.
  intros Hstep qs. induction qs as [| q rest IH]; intros k Hqs.
  - constructor.
  - inversion Hqs as [| ? ? Hq Hrest]; subst.
    cbn [updateParticles].
    pose proof (Hstep q k Hq) as Hq'.
    destruct (updateParticle random q k) as [q' k'].
    specialize (IH k' Hrest).
    destruct (updateParticles random rest k') as [rest' k''].
    cbn [fst] in *. now constructor.
Qed.

Lemma initialParticles_Forall (random : nat -> R) (P : Particle -> Prop) :
  (forall k, P (mkParticle (spawn random k) (Vector3.make #0 #0 #0))) ->
  forall n k, Forall P (initialParticles random n k).
Proof.
  intros HP n. induction n as [| n IH]; intros k; cbn [initialParticles].
  - constructor.
  - constructor; [apply HP | apply IH].
Qed.

Lemma run_particles_Forall (random : nat -> R) (P : Particle -> Prop) :
  (forall q k, P q -> P (fst (updateParticle random q k))) ->
  forall (es : list event) (w : World),
    Forall P (particles w) -> Forall P (particles (run random es w)).
Proof.
  intros Hstep es. induction es as [| e es IH] using rev_ind; intros w Hw.
  - exact Hw.
  - rewrite run_snoc. specialize (IH w Hw).
    destruct e as [code | code | time now]; cbn [handle].
    + exact IH.
    + exact IH.
    + rewrite animate_particles. cbn [particles].
      now apply updateParticles_Forall.
Qed.



Lemma dot_le_lengths (a b c x y z : R) :
  a * x + b * y + c * z
  <= sqrt (a * a + b * b + c * c) * sqrt (x * x + y * y + z * z).
Proof.
  set (L1 := sqrt (a * a + b * b + c * c)).
  set (L2 := sqrt (x * x + y * y + z * z)).
  assert (H1 : 0 <= L1) by apply sqrt_pos.
  assert (H2 : 0 <= L2) by apply sqrt_pos.
  pose proof (sum_squares_sqrt a b c) as E1. fold L1 in E1.
  pose proof (sum_squares_sqrt x y z) as E2. fold L2 in E2.
  destruct (Rle_dec (a * x + b * y + c * z) 0) as [Hn | Hp]; [nra |].
  assert (Hcs : (a * x + b * y + c * z) * (a * x + b * y + c * z)
                <= (L1 * L2) * (L1 * L2)).
  { replace (L1 * L2 * (L1 * L2)) with ((L1 * L1) * (L2 * L2)) by ring.
    rewrite E1, E2.
    pose proof (Rle_0_sqr (a * y - b * x)) as S1.
    pose proof (Rle_0_sqr (a * z - c * x)) as S2.
    pose proof (Rle_0_sqr (b * z - c * y)) as S3.
    unfold Rsqr in *. nra. }
  assert (H12 : 0 <= L1 * L2) by nra.
  nra.
Qed.

Lemma length_triangle (a b c x y z : R) :
  sqrt ((a + x) * (a + x) + (b + y) * (b + y) + (c + z) * (c + z))
  <= sqrt (a * a + b * b + c * c) + sqrt (x * x + y * y + z * z).
Proof.
  pose proof (dot_le_lengths a b c x y z) as Hd.
  set (L1 := sqrt (a * a + b * b + c * c)) in *.
  set (L2 := sqrt (x * x + y * y + z * z)) in *.
  assert (H1 : 0 <= L1) by apply sqrt_pos.
  assert (H2 : 0 <= L2) by apply sqrt_pos.
  pose proof (sum_squares_sqrt a b c) as E1. fold L1 in E1.
  pose proof (sum_squares_sqrt x y z) as E2. fold L2 in E2.
  apply sqrt_le_bound; [lra |]. nra.
Qed.

Lemma updateParticle_slower (random : nat -> R) (q : Particle) (k : nat) :
  particleSlowerThan 3.622 q ->
  particleSlowerThan 3.622 (fst (updateParticle random q k)).
Proof.
  intros (px & py & pz & vx & vy & vz & -> & Hv).
  rewrite updateParticle_cases.
  set (tx := 0 - px). set (ty := 0 - py). set (tz := -18 - pz).
  set (d := sqrt (tx * tx + ty * ty + tz * tz)).
  set (A := Rmax 0.015 (Rmin 0.07 (0.011 + 0.18 / (d * d)))
            * (if Rlt_dec d 23 then 1.6 else 1)).
  destruct (Rlt_dec d 3.5) as [Hd | Hd].
  - rewrite spawn_num. do 3 eexists. exists 0, 0, 0.
    split; [reflexivity |].
    replace (0 * 0 + 0 * 0 + 0 * 0) with 0 by lra. rewrite sqrt_0. lra.
  - do 6 eexists. split; [reflexivity |].
    assert (HA : 0 <= A <= 0.112).
    { unfold A. pose proof (attract_range d).
      destruct (Rlt_dec d 23); lra. }
    rewrite (length_scaled (vx + tx * (1 / d) * A) (vy + ty * (1 / d) * A)
               (vz + tz * (1 / d) * A) 0.97) by lra.
    pose proof (length_triangle vx vy vz (tx * (1 / d) * A)
                  (ty * (1 / d) * A) (tz * (1 / d) * A)) as Ht.
    pose proof (rescaled_length tx ty tz A) as Hr. cbv zeta in Hr.
    fold d in Hr. rewrite Hr in Ht by lra.
    lra.
Qed.

(** X12.  No particle is ever faster than 3.622: a step adds a pull of
    magnitude at most 0.112 and then takes 97% of the result, so a speed of
    at most 3.622 gives a speed of at most 0.97 * (3.622 + 0.112) < 3.622,
    and a recycled particle starts at rest.  Particles start at rest, hence
    the bound holds for every particle at every moment of every session. *)
Theorem particles_speed_bounded (random : nat -> R) :
  (forall (q : Particle) (k : nat),
     particleSlowerThan 3.622 q ->
     particleSlowerThan 3.622 (fst (updateParticle random q k))) /\
  (forall es : list event,
     Forall (particleSlowerThan 3.622)
       (particles (run random es (initialWorld random)))).
Proof.
  split; [apply updateParticle_slower |].
  intros es. apply run_particles_Forall; [apply updateParticle_slower |].
  cbn [initialWorld particles]. apply initialParticles_Forall.
  intros k. rewrite spawn_num. do 3 eexists. exists 0, 0, 0.
  split; [reflexivity |].
  replace (0 * 0 + 0 * 0 + 0 * 0) with 0 by lra. rewrite sqrt_0. lra.
Qed.

Lemma particles_speed_bounded_witness :
  particleSlowerThan 3.622
    (fst (updateParticle (fun _ => 0)
            (mkParticle (Vector3.make #0 #0 #0) (Vector3.make #3 #0 #0)) 0)).
Proof.
  apply (proj1 (particles_speed_bounded (fun _ => 0))).
  exists 0, 0, 0, 3, 0, 0. split; [reflexivity |].
  replace (3 * 3 + 0 * 0 + 0 * 0) with (3 * 3) by lra.
  rewrite sqrt_square; lra.
Defined.

(** ** The earlier variant, [src/main.js] *)

Lemma main_force_num (d : R) :
  d <> 0 ->
  Main.gravitationalForce #d
  = #(Rmax 0.008 (Rmin 0.035 (0.006 + 0.09 / (d * d)))
      * (if Rlt_dec d 30 then 1.3 else 1)).
Proof.
  intros Hd. unfold Main.gravitationalForce. cbn [JS.mul].
  rewrite div_num by nra. cbn [JS.add JS.min JS.max JS.lt].
  destruct (Rlt_dec d 30); cbn [JS.mul]; f_equal; lra.
Qed.

Lemma main_force_zero : Main.gravitationalForce #0 = #(0.035 * 1.3).
Proof.
  unfold Main.gravitationalForce. cbn [JS.mul].
  replace (0 * 0) with 0 by lra. rewrite div_zero_pos by lra.
  cbn [JS.add JS.min JS.max JS.lt]. js_cases. cbn [JS.mul]. f_equal.
  minmax; lra.
Qed.

Lemma main_force_range (d : R) :
  exists f : R, Main.gravitationalForce #d = #f /\ 0.008 <= f <= 0.0455.
Proof.
  destruct (Req_dec_T d 0) as [-> | Hd].
  - eexists. split; [apply main_force_zero | lra].
  - eexists. split; [apply main_force_num, Hd |].
    destruct (Rlt_dec d 30); minmax; lra.
Qed.

(** X13.  In [src/main.js] the pull on the sphere is a finite number in
    [[0.008, 0.0455]] at every distance, zero included (there the quotient
    is [Infinity] and the clamp returns 0.035, then boosted to 0.0455).  It
    is the floor 0.008 from distance 30 on and the boosted floor 0.0104 at
    the distances below 30 whose square is at least 45. *)
Theorem main_force_is_clamped :
  (forall d : R,
     exists f : R, Main.gravitationalForce #d = #f /\ 0.008 <= f <= 0.0455) /\
  Main.gravitationalForce #0 = #0.0455 /\
  (forall d : R, 30 <= d -> Main.gravitationalForce #d = #0.008) /\
  (forall d : R, 0 < d < 30 -> 45 <= d * d ->
     Main.gravitationalForce #d = #0.0104).
Proof.
  split; [exact main_force_range |]. split; [| split].
  - rewrite main_force_zero. f_equal. lra.
  - intros d Hd. rewrite main_force_num by lra.
    destruct (Rlt_dec d 30); [lra |]. f_equal.
    assert (H : 0.09 / (d * d) <= 0.002).
    { apply Rmult_le_reg_r with (d * d); [nra |].
      unfold Rdiv. rewrite Rmult_assoc, Rinv_l by nra. nra. }
    minmax; lra.
  - intros d Hd Hsq. rewrite main_force_num by lra.
    destruct (Rlt_dec d 30); [| lra]. f_equal.
    assert (H : 0.09 / (d * d) <= 0.002).
    { apply Rmult_le_reg_r with (d * d); [nra |].
      unfold Rdiv. rewrite Rmult_assoc, Rinv_l by nra. nra. }
    minmax; lra.
Qed.

Lemma main_force_is_clamped_witness : Main.gravitationalForce #500 = #0.008.
Proof. apply (proj1 (proj2 (proj2 main_force_is_clamped))). lra. Defined.




Lemma main_steer_num (v t : R) :
  Main.steer #v #t = #((v + (t - v) * 0.07) * 0.987).
Proof. reflexivity. Qed.

Lemma Rabs_bounds (x b : R) : Rabs x <= b -> - b <= x <= b.
Proof. unfold Rabs. destruct (Rcase_abs x); lra. Qed.

Lemma main_steer_steered (v t : number) :
  Main.steered v -> Main.targetValue t -> Main.steered (Main.steer v t).
Proof.
  intros (r & -> & Hr) Ht.
  assert (Hb : exists u : R, t = #u /\ Rabs u <= 0.54).
  { destruct Ht as [-> | [-> | ->]]; eexists; (split; [reflexivity |]);
      apply Rabs_le; lra. }
  destruct Hb as (u & -> & Hu).
  rewrite main_steer_num. eexists. split; [reflexivity |].
  apply Rabs_le. apply Rabs_bounds in Hr, Hu. lra.
Qed.

Lemma main_animate_velocity (random : nat -> R) (s : Main.State) :
  Main.velocity (Main.animate random s)
    = Main.mkXZ (Main.steer (Main.x (Main.velocity s)) (Main.x (Main.target s)))
        (Main.steer (Main.z (Main.velocity s)) (Main.z (Main.target s))) /\
  Main.target (Main.animate random s) = Main.target s.
Proof.
  unfold Main.animate.
  destruct (updateParticles random (Main.particles s) _).
  split; reflexivity.
Qed.

Lemma main_handle_steering (random : nat -> R) (e : Main.event) (s : Main.State) :
  Main.steering s -> Main.steering (Main.handle random e s).
Proof.
  intros (Hx & Hz & Hvx & Hvz).
  assert (Hm : Main.targetValue (JS.neg Main.maxSpeed) /\
               Main.targetValue Main.maxSpeed /\ Main.targetValue #0).
  { unfold Main.targetValue, Main.maxSpeed. cbn [JS.neg].
    split; [left; f_equal; lra | split; auto]. }
  destruct Hm as (Hm1 & Hm2 & Hm0).
  destruct e as [code | code |]; cbn [Main.handle].
  - unfold Main.keydown, Main.steering. cbn [Main.target Main.velocity].
    destruct (String.eqb code "ArrowLeft"), (String.eqb code "ArrowRight"),
      (String.eqb code "ArrowUp"), (String.eqb code "ArrowDown");
      cbn [Main.x Main.z]; auto.
  - unfold Main.keyup, Main.steering. cbn [Main.target Main.velocity].
    destruct (String.eqb code "ArrowLeft" || String.eqb code "ArrowRight"),
      (String.eqb code "ArrowUp" || String.eqb code "ArrowDown");
      cbn [Main.x Main.z]; auto.
  - destruct (main_animate_velocity random s) as [Ev Et].
    unfold Main.steering. rewrite Ev, Et. cbn [Main.x Main.z].
    repeat split; try assumption; now apply main_steer_steered.
Qed.

Lemma main_steer_iter (v t : R) (n : nat) :
  Nat.iter n (fun a => Main.steer a #t) #v
  = #(t * (6909 / 8209) + (v - t * (6909 / 8209)) * 0.91791 ^ n).
Proof.
  induction n as [| n IH].
  - cbn [Nat.iter nat_rect pow]. f_equal. lra.
  - rewrite Nat.iter_succ, IH, main_steer_num. f_equal. cbn [pow].
    set (p := 0.91791 ^ n).
    replace ((v - t * (6909 / 8209)) * (0.91791 * p))
      with (0.91791 * (v * p) - 0.91791 * (6909 / 8209) * (t * p)) by ring.
    replace ((v - t * (6909 / 8209)) * p)
      with (v * p - (6909 / 8209) * (t * p)) by ring.
    set (vp := v * p). set (tp := t * p). lra.
Qed.

(** X15.  In [src/main.js] each axis of the planar velocity goes, per frame,
    7% of the way to its target and then loses 1.3%.  Over every session
    the targets are [-maxSpeed], 0 or [maxSpeed] and the magnitude of each
    velocity axis never exceeds [friction * maxSpeed] = 0.53298.  With a
    target held for [n] frames the axis is
    [u + (v - u) * 0.91791^n] with [u = target * 6909 / 8209]: holding a
    key, the speed tends to about 0.4545, never to [maxSpeed]. *)
Theorem main_steering_bounds (random : nat -> R) :
  (forall es : list Main.event,
     Main.steering (Main.run random es (Main.initialState random))) /\
  (forall (v t : R) (n : nat),
     Nat.iter n (fun a => Main.steer a #t) #v
     = #(t * (6909 / 8209) + (v - t * (6909 / 8209)) * 0.91791 ^ n)) /\
  (forall n : nat,
     exists v : R,
       Nat.iter n (fun a => Main.steer a Main.maxSpeed) #0 = #v /\
       0 <= v < 0.4545).
Proof.
  split; [| split].
  - intros es. induction es as [| e es IH] using rev_ind.
    + unfold Main.steering, Main.targetValue, Main.steered. cbn.
      repeat split; auto; exists 0; (split; [reflexivity |]);
        rewrite Rabs_R0; lra.
    + unfold Main.run. rewrite fold_left_app. cbn [fold_left].
      now apply main_handle_steering.
  - exact main_steer_iter.
  - intros n. unfold Main.maxSpeed. rewrite main_steer_iter.
    eexists. split; [reflexivity |].
    assert (Hp : 0 < 0.91791 ^ n <= 1).
    { split; [apply pow_lt; lra |].
      rewrite <- (pow1 n). apply pow_incr. lra. }
    nra.
Qed.





(** ** The sphere over a session *)

Lemma animate_sphere_finite (random : nat -> R) (t : R) (now : number)
    (w : World) :
  sphereFinite w ->
  axisValue (moveX (moveTarget w)) -> axisValue (moveZ (moveTarget w)) ->
  spherePosition w <> vortexPos ->
  sphereFinite (animate random #t now w).
Proof.
  intros [Hp Hv] Hx Hz Hne.
  destruct (finite_vector _ Hp) as (px & py & pz & Ep).
  destruct (finite_vector _ Hv) as (vx & vy & vz & Ev).
  assert (Em : exists mx mz : R, moveTarget w = mkMoveTarget #mx #mz).
  { destruct (moveTarget w) as [a b]. cbn [moveX moveZ] in Hx, Hz.
    destruct Hx as [-> | [-> | ->]], Hz as [-> | [-> | ->]];
      do 2 eexists; reflexivity. }
  destruct Em as (mx & mz & Em).
  unfold sphereFinite, animate.
  destruct (updateParticles random (particles w) (randomCalls w)) as [qs k'].
  cbn [sphereVelocity spherePosition].
  rewrite Em, Ep, Ev. rewrite Ep in Hne.
  destruct (accelerate_finite t mx mz px py pz vx vy vz Hne)
    as (a & b & c & ->).
  rewrite clampSpeed_num.
  destruct (Rlt_dec 1.35 (sqrt (a * a + b * b + c * c))); split; reflexivity.
Qed.

Lemma trace_sphere_finite (random : nat -> R) (es : list event) (w : World) :
  sphereFinite w ->
  axisValue (moveX (moveTarget w)) /\ axisValue (moveZ (moveTarget w)) ->
  Forall finiteTimestamp es ->
  Forall (fun w' => spherePosition w' <> vortexPos) (trace random es w) ->
  Forall sphereFinite (trace random es w).
Proof.
  revert w. induction es as [| e es IH]; intros w Hw Hk Ht Hoff.
  - cbn [trace]. constructor; [exact Hw | constructor].
  - cbn [trace] in *. inversion Ht as [| ? ? Hte Htes]; subst.
    inversion Hoff as [| ? ? Hw_off Hrest]; subst.
    constructor; [exact Hw |].
    apply IH; try assumption.
    + destruct e as [code | code | time now]; cbn [handle].
      * exact Hw.
      * exact Hw.
      * cbn [finiteTimestamp] in Hte.
        destruct (isFinite_num _ Hte) as (t & ->).
        apply animate_sphere_finite; cbn [spherePosition sphereVelocity moveTarget];
          try tauto; exact Hw.
    + now apply handle_axisValue.
Qed.

(** X17.  In a session whose frame timestamps are finite and in which no
    frame starts with the sphere exactly on the vortex, the position and the
    velocity of the sphere are finite in every state the session goes
    through. *)
Theorem sphere_finite_off_vortex (random : nat -> R) (es : list event) :
  Forall finiteTimestamp es ->
  Forall (fun w => spherePosition w <> vortexPos)
    (trace random es (initialWorld random)) ->
  Forall sphereFinite (trace random es (initialWorld random)).
Proof.
  intros Ht Hoff. apply trace_sphere_finite; try assumption.
  - split; reflexivity.
  - split; unfold axisValue; cbn; auto.
Qed.

Lemma sphere_finite_off_vortex_witness :
  Forall sphereFinite
    (trace (fun _ => 0) [AnimationFrame #0 #0] (initialWorld (fun _ => 0))).
Proof.
  assert (H0 : Vector3.make #0 #0 #1000 <> vortexPos).
  { unfold vortexPos. intros E. injection E as E. lra. }
  apply sphere_finite_off_vortex.
  - constructor; [reflexivity | constructor].
  - cbn [trace]. constructor; [exact H0 |]. constructor; [| constructor].
    cbn [handle].
    set (w0 := mkWorld _ _ _ _ _ _ _ _ _ _ _).
    destruct (frame_speed (fun _ => 0) #0 #0 w0) as (s & _ & Hs & Hd);
      try reflexivity; try exact H0.
    intros E. rewrite E in Hd. unfold w0, initialWorld in Hd.
    cbn [spherePosition] in Hd.
    unfold vortexPos, Vector3.sub in Hd.
    cbn [Vector3.x Vector3.y Vector3.z JS.sub JS.neg JS.add] in Hd.
    rewrite length_num in Hd. injection Hd as Hd.
    assert (H : 1018 <= s).
    { rewrite <- Hd, <- (sqrt_square 1018) by lra. apply sqrt_le_1_alt. lra. }
    lra.
Defined.

(** ** C2: the sphere is never engulfed *)

(** The direction [t / |t|] of a vector that is not zero has length 1, and
    [t] itself has component [|t|] along it. *)
Lemma unit_direction (a b c : R) :
  let l := sqrt (a * a + b * b + c * c) in
  l <> 0 ->
  a * (1 / l) * (a * (1 / l)) + b * (1 / l) * (b * (1 / l))
  + c * (1 / l) * (c * (1 / l)) = 1.
Proof.
  intros l Hl.
  replace (a * (1 / l) * (a * (1 / l)) + b * (1 / l) * (b * (1 / l))
           + c * (1 / l) * (c * (1 / l)))
    with ((a * a + b * b + c * c) / (l * l)) by (field; exact Hl).
  rewrite <- (sum_squares_sqrt a b c). fold l. field. exact Hl.
Qed.

Lemma dot_direction (a b c : R) :
  let l := sqrt (a * a + b * b + c * c) in
  l <> 0 ->
  a * (a * (1 / l)) + b * (b * (1 / l)) + c * (c * (1 / l)) = l.
Proof.
  intros l Hl.
  replace (a * (a * (1 / l)) + b * (b * (1 / l)) + c * (c * (1 / l)))
    with ((a * a + b * b + c * c) / l) by (field; exact Hl).
  rewrite <- (sum_squares_sqrt a b c). fold l. field. exact Hl.
Qed.

(** The component of a vector along a unit vector is at most its length. *)
Lemma dot_unit (a b c ux uy uz : R) :
  ux * ux + uy * uy + uz * uz = 1 ->
  a * ux + b * uy + c * uz <= sqrt (a * a + b * b + c * c).
Proof.
  intros Hu. pose proof (dot_le_lengths a b c ux uy uz) as H.
  rewrite Hu, sqrt_1, Rmult_1_r in H. exact H.
Qed.

(** One frame seen along the direction of the vortex.  [t] is the vector
    from the sphere to the vortex, [v] the velocity, [n] the noise, [q] the
    key push, [g] the force and [k] the positive factor the clamp and the
    friction leave.  From distance 3 on, the sphere, no faster than
    [frameSpeed], cannot get nearer than [closestApproach]; below 3 the
    repulsion makes the new velocity point away from the vortex, and the
    distance does not decrease. *)
Lemma approach_bound (tx ty tz vx vy vz nx ny nz qx qy qz g k : R) :
  let d := sqrt (tx * tx + ty * ty + tz * tz) in
  let ax := vx + tx * (1 / d) * g + nx + qx in
  let ay := vy + ty * (1 / d) * g + ny + qy in
  let az := vz + tz * (1 / d) * g + nz + qz in
  closestApproach <= d ->
  sqrt (vx * vx + vy * vy + vz * vz) <= frameSpeed ->
  sqrt (nx * nx + ny * ny + nz * nz) <= 0.008 ->
  sqrt (qx * qx + qy * qy + qz * qz) <= 0.13 ->
  (d < 3 -> g <= -2.9) ->
  0 < k ->
  sqrt (k * ax * (k * ax) + k * ay * (k * ay) + k * az * (k * az))
  <= frameSpeed ->
  closestApproach
  <= sqrt ((tx - k * ax) * (tx - k * ax) + (ty - k * ay) * (ty - k * ay)
           + (tz - k * az) * (tz - k * az)).
Proof.
  intros d ax ay az Hd Hv Hn Hq Hg Hk Hv'.
  unfold closestApproach, frameSpeed in *.
  assert (Hd0 : d <> 0) by lra.
  pose proof (unit_direction tx ty tz Hd0) as Huu.
  pose proof (dot_direction tx ty tz Hd0) as Htu.
  fold d in Huu, Htu.
  set (ux := tx * (1 / d)) in *. set (uy := ty * (1 / d)) in *.
  set (uz := tz * (1 / d)) in *.
  pose proof (dot_unit vx vy vz ux uy uz Huu) as Hvu.
  pose proof (dot_unit nx ny nz ux uy uz Huu) as Hnu.
  pose proof (dot_unit qx qy qz ux uy uz Huu) as Hqu.
  pose proof (dot_unit (k * ax) (k * ay) (k * az) ux uy uz Huu) as Hv'u.
  pose proof (dot_unit (tx - k * ax) (ty - k * ay) (tz - k * az) ux uy uz Huu)
    as Hd'.
  set (d' := sqrt _) in Hd' |- *.
  set (S := ax * ux + ay * uy + az * uz).
  assert (ES : S = (vx * ux + vy * uy + vz * uz)
                   + g * (ux * ux + uy * uy + uz * uz)
                   + (nx * ux + ny * uy + nz * uz)
                   + (qx * ux + qy * uy + qz * uz)).
  { unfold S, ax, ay, az. ring. }
  rewrite Huu in ES.
  assert (EW : (tx - k * ax) * ux + (ty - k * ay) * uy + (tz - k * az) * uz
               = d - k * S).
  { rewrite <- Htu. unfold S. ring. }
  assert (EV : k * ax * ux + k * ay * uy + k * az * uz = k * S).
  { unfold S. ring. }
  rewrite EW in Hd'. rewrite EV in Hv'u.
  destruct (Rlt_dec d 3) as [Hlt | Hge].
  - specialize (Hg Hlt).
    assert (HS : S <= 0) by lra.
    assert (HkS : k * S <= 0) by nra.
    lra.
  - lra.
Qed.

(** The three things the frame adds to the velocity. *)
Lemma noise_short (t d : R) :
  0 <= d ->
  exists nx ny nz : R,
    noise #t #d = Vector3.make #nx #ny #nz /\
    sqrt (nx * nx + ny * ny + nz * nz) <= 0.008.
Proof.
  intros Hd.
  set (A := 0.005 * Rmax 0.1 (1 + - (d / 100))).
  assert (HAr : 0.0005 <= A <= 0.005) by (unfold A; minmax; lra).
  set (angle := sin (t * 0.0017) * PI * 2 + cos (t * 0.00113)).
  exists (sin (angle + 0.6) * A), (sin (angle - 0.3) * A * 0.55),
    (cos (angle + 0.3) * A).
  split.
  - unfold noise, noiseAmplitude. rewrite div_num by lra. reflexivity.
  - pose proof (square_le_1 _ (SIN_bound (angle + 0.6))) as Q1.
    pose proof (square_le_1 _ (SIN_bound (angle - 0.3))) as Q2.
    pose proof (square_le_1 _ (COS_bound (angle + 0.3))) as Q3.
    apply sqrt_le_bound; [lra |].
    assert (HAA : A * A <= 0.000025) by nra.
    assert (HA0 : 0 <= A * A) by nra.
    nra.
Qed.

Lemma moveVec_short (mx mz : R) :
  exists qx qy qz : R,
    Vector3.multiplyScalar
      (Vector3.normalize (Vector3.make #mx #0 #mz)) playerAccel
    = Vector3.make #qx #qy #qz /\
    sqrt (qx * qx + qy * qy + qz * qz) <= 0.13.
Proof.
  set (n := sqrt (mx * mx + 0 * 0 + mz * mz)).
  destruct (Req_dec_T n 0) as [E | E].
  - assert (Hsum : mx * mx + 0 * 0 + mz * mz = 0).
    { apply sqrt_eq_0; [nra | exact E]. }
    assert (Hx : mx = 0) by nra. assert (Hz : mz = 0) by nra.
    exists (0 * (1 / 1) * 0.13), (0 * (1 / 1) * 0.13), (0 * (1 / 1) * 0.13).
    split.
    + unfold Vector3.normalize. rewrite length_num. fold n. rewrite E.
      unfold JS.orElse, JS.truthy.
      destruct (Req_dec_T 0 0) as [_ | F]; [| exfalso; lra].
      unfold Vector3.divideScalar. rewrite div_num by lra.
      rewrite Hx, Hz. reflexivity.
    + apply sqrt_le_bound; lra.
  - exists (mx * (1 / n) * 0.13), (0 * (1 / n) * 0.13), (mz * (1 / n) * 0.13).
    split.
    + rewrite (normalize_num mx 0 mz) by exact E. reflexivity.
    + pose proof (rescaled_length mx 0 mz 0.13) as Hr. cbv zeta in Hr.
      fold n in Hr. rewrite Hr; lra.
Qed.

Lemma accelerate_num (t mx mz px py pz vx vy vz : R) :
  let tx := 0 - px in
  let ty := 0 - py in
  let tz := -18 - pz in
  let d := sqrt (tx * tx + ty * ty + tz * tz) in
  let g := (5 + 1800 * Rmin 1 ((d - 10) / 400)) / (d * d) in
  0 < d ->
  exists nx ny nz qx qy qz : R,
    sqrt (nx * nx + ny * ny + nz * nz) <= 0.008 /\
    sqrt (qx * qx + qy * qy + qz * qz) <= 0.13 /\
    accelerate #t (mkMoveTarget #mx #mz) (Vector3.make #px #py #pz)
      (Vector3.make #vx #vy #vz)
    = Vector3.make #(vx + tx * (1 / d) * g + nx + qx)
        #(vy + ty * (1 / d) * g + ny + qy)
        #(vz + tz * (1 / d) * g + nz + qz).
Proof.
  intros tx ty tz d g Hd.
  destruct (noise_short t d ltac:(lra)) as (nx & ny & nz & En & Hn).
  destruct (moveVec_short mx mz) as (qx & qy & qz & Eq & Hq).
  unfold accelerate. rewrite toVortex_num, length_num.
  fold tx ty tz. fold d.
  rewrite (normalize_num tx ty tz) by (fold d; lra). fold d.
  rewrite gravStrength_num by lra. fold g.
  rewrite En. cbn [moveX moveZ]. rewrite Eq.
  destruct (JS.strictNotEqual #mx #0 || JS.strictNotEqual #mz #0).
  - exists nx, ny, nz, qx, qy, qz. split; [exact Hn |]. split; [exact Hq |].
    reflexivity.
  - exists nx, ny, nz, 0, 0, 0. split; [exact Hn |].
    split.
    + replace (0 * 0 + 0 * 0 + 0 * 0) with 0 by lra. rewrite sqrt_0. lra.
    + unfold Vector3.addScaledVector, Vector3.add.
      cbn [Vector3.x Vector3.y Vector3.z JS.add JS.mul].
      f_equal; f_equal; lra.
Qed.

Lemma repulsion_below_3 (d : R) :
  closestApproach <= d -> d < 3 ->
  (5 + 1800 * Rmin 1 ((d - 10) / 400)) / (d * d) <= -2.9.
Proof.
  unfold closestApproach. intros Hd Hlt.
  assert (Hdd : 0 < d * d) by nra.
  apply Rmult_le_reg_r with (d * d); [exact Hdd |].
  unfold Rdiv. rewrite Rmult_assoc, Rinv_l, Rmult_1_r by lra.
  minmax; nra.
Qed.

(** A frame keeps the sphere away from the vortex. *)
Lemma animate_keptAway (random : nat -> R) (t : R) (now : number) (w : World) :
  keptAway w ->
  axisValue (moveX (moveTarget w)) -> axisValue (moveZ (moveTarget w)) ->
  keptAway (animate random #t now w).
Proof.
  intros (px & py & pz & vx & vy & vz & Ep & Ev & Hv & Hd) Hx Hz.
  destruct (moveTarget_num _ Hx Hz) as (mx & mz & Em).
  assert (Hd0 : 0 < sqrt ((0 - px) * (0 - px) + (0 - py) * (0 - py)
                          + (-18 - pz) * (-18 - pz)))
    by (unfold closestApproach in Hd; lra).
  destruct (accelerate_num t mx mz px py pz vx vy vz Hd0)
    as (nx & ny & nz & qx & qy & qz & Hn & Hq & Ea).
  pose proof (repulsion_below_3 _ Hd) as Hg.
  pose proof (approach_bound (0 - px) (0 - py) (-18 - pz) vx vy vz
                nx ny nz qx qy qz) as Hb.
  cbv zeta in Ea, Hb.
  set (d := sqrt ((0 - px) * (0 - px) + (0 - py) * (0 - py)
                  + (-18 - pz) * (-18 - pz))) in *.
  set (g := (5 + 1800 * Rmin 1 ((d - 10) / 400)) / (d * d)) in *.
  set (ax := vx + (0 - px) * (1 / d) * g + nx + qx) in *.
  set (ay := vy + (0 - py) * (1 / d) * g + ny + qy) in *.
  set (az := vz + (-18 - pz) * (1 / d) * g + nz + qz) in *.
  unfold keptAway, animate.
  destruct (updateParticles random (particles w) (randomCalls w)) as [qs k'].
  cbn [sphereVelocity spherePosition].
  rewrite Em, Ep, Ev, Ea, clampSpeed_num.
  set (l := sqrt (ax * ax + ay * ay + az * az)).
  assert (Hl0 : 0 <= l) by apply sqrt_pos.
  unfold applyFriction, friction, Vector3.multiplyScalar, Vector3.add.
  assert (Hk : exists k : R,
            0 < k /\
            sqrt (k * ax * (k * ax) + k * ay * (k * ay) + k * az * (k * az))
            <= frameSpeed /\
            (if Rlt_dec 1.35 l
             then Vector3.make #(ax * (1 / l) * 1.35) #(ay * (1 / l) * 1.35)
                    #(az * (1 / l) * 1.35)
             else Vector3.make #ax #ay #az)
            = Vector3.make #(k * ax / 0.992) #(k * ay / 0.992) #(k * az / 0.992)).
  { unfold frameSpeed. destruct (Rlt_dec 1.35 l) as [Hl | Hl].
    - exists (1 / l * 1.35 * 0.992).
      split; [apply Rmult_lt_0_compat; [apply Rmult_lt_0_compat |]; try lra;
              apply Rdiv_lt_0_compat; lra |].
      split.
      + replace (1 / l * 1.35 * 0.992 * ax) with (ax * (1 / l) * (0.992 * 1.35))
          by (set (f := 0.992); set (m := 1.35); ring).
        replace (1 / l * 1.35 * 0.992 * ay) with (ay * (1 / l) * (0.992 * 1.35))
          by (set (f := 0.992); set (m := 1.35); ring).
        replace (1 / l * 1.35 * 0.992 * az) with (az * (1 / l) * (0.992 * 1.35))
          by (set (f := 0.992); set (m := 1.35); ring).
        pose proof (rescaled_length ax ay az (0.992 * 1.35)) as Hr.
        cbv zeta in Hr. fold l in Hr. rewrite Hr; lra.
      + f_equal; f_equal; field; lra.
    - exists 0.992. split; [lra |]. split.
      + replace (0.992 * ax * (0.992 * ax) + 0.992 * ay * (0.992 * ay)
                 + 0.992 * az * (0.992 * az))
          with (ax * 0.992 * (ax * 0.992) + ay * 0.992 * (ay * 0.992)
                + az * 0.992 * (az * 0.992))
          by (set (f := 0.992); ring).
        rewrite length_scaled by lra. fold l. lra.
      + f_equal; f_equal; lra. }
  destruct Hk as (k & Hk0 & Hks & ->).
  cbn [Vector3.x Vector3.y Vector3.z JS.mul JS.add].
  exists (px + k * ax / 0.992 * 0.992), (py + k * ay / 0.992 * 0.992),
    (pz + k * az / 0.992 * 0.992),
    (k * ax / 0.992 * 0.992), (k * ay / 0.992 * 0.992),
    (k * az / 0.992 * 0.992).
  split; [reflexivity |]. split; [reflexivity |].
  replace (k * ax / 0.992 * 0.992) with (k * ax) by (field; lra).
  replace (k * ay / 0.992 * 0.992) with (k * ay) by (field; lra).
  replace (k * az / 0.992 * 0.992) with (k * az) by (field; lra).
  split; [exact Hks |].
  replace (0 - (px + k * ax)) with (0 - px - k * ax) by ring.
  replace (0 - (py + k * ay)) with (0 - py - k * ay) by ring.
  replace (-18 - (pz + k * az)) with (-18 - pz - k * az) by ring.
  apply Hb; try assumption.
Qed.

Lemma handle_keptAway (random : nat -> R) (e : event) (w : World) :
  finiteTimestamp e -> keptAway w ->
  axisValue (moveX (moveTarget w)) -> axisValue (moveZ (moveTarget w)) ->
  keptAway (handle random e w).
Proof.
  intros Ht Hw Hx Hz. destruct e as [code | code | time now]; cbn [handle].
  - exact Hw.
  - exact Hw.
  - cbn [finiteTimestamp] in Ht. destruct (isFinite_num _ Ht) as (t & ->).
    apply animate_keptAway; assumption.
Qed.

Lemma keptAway_distance (w : World) :
  keptAway w ->
  (exists d : R, sphereDistance w = #d /\ closestApproach <= d) /\
  JS.lt (sphereDistance w) #1 = false.
Proof.
  intros (px & py & pz & vx & vy & vz & Ep & _ & _ & Hd).
  rewrite (sphereDistance_num w px py pz Ep).
  split; [eexists; split; [reflexivity | exact Hd] |].
  apply lt_num_false. unfold closestApproach in Hd. lra.
Qed.

Lemma initialWorld_keptAway (random : nat -> R) : keptAway (initialWorld random).
Proof.
  exists 0, 0, 1000, 0, 0, 0. unfold frameSpeed, closestApproach.
  split; [reflexivity |]. split; [reflexivity |]. split.
  - replace (0 * 0 + 0 * 0 + 0 * 0) with 0 by lra. rewrite sqrt_0. lra.
  - replace ((0 - 0) * (0 - 0) + (0 - 0) * (0 - 0) + (-18 - 1000) * (-18 - 1000))
      with (1018 * 1018) by lra.
    rewrite sqrt_square; lra.
Qed.

Lemma handle_console (random : nat -> R) (e : event) (w : World) :
  hasCollided (handle random e w) = hasCollided w ->
  console (handle random e w) = console w.
Proof.
  destruct e as [code | code | time now]; cbn [handle]; try reflexivity.
  set (w0 := mkWorld _ _ _ _ _ _ _ _ _ _ _).
  destruct (animate_fields random time now w0) as (Hc & _ & _ & Hl & _).
  rewrite Hc, Hl. cbn [w0 hasCollided console].
  destruct (hasCollided w); cbn [negb andb]; [reflexivity |].
  destruct (JS.lt (sphereDistance w0) #1); [discriminate | reflexivity].
Qed.

(** A session that starts with the sphere kept away never measures a
    distance below 1: the branch of the engulfment never runs. *)
Lemma run_keptAway (random : nat -> R) (es : list event) (w : World) :
  Forall finiteTimestamp es ->
  keptAway w ->
  axisValue (moveX (moveTarget w)) /\ axisValue (moveZ (moveTarget w)) ->
  keptAway (run random es w) /\
  hasCollided (run random es w) = hasCollided w /\
  console (run random es w) = console w.
Proof.
  intros Ht. revert w. induction Ht as [| e es He _ IH]; intros w Hw Hk.
  - cbn. auto.
  - unfold run. cbn [fold_left]. fold (run random es (handle random e w)).
    assert (Hw' : keptAway (handle random e w))
      by (apply handle_keptAway; tauto).
    assert (Hc : hasCollided (handle random e w) = hasCollided w).
    { destruct e as [code | code | time now]; try reflexivity.
      rewrite handle_frame_flag, (proj2 (keptAway_distance w Hw)).
      apply orb_false_r. }
    destruct (IH _ Hw' (handle_axisValue random e w Hk)) as (H1 & H2 & H3).
    split; [exact H1 |]. split; [congruence |].
    rewrite H3. now apply handle_console.
Qed.

Lemma sphereOnVortex_distance (w : World) :
  spherePosition w = vortexPos -> JS.lt (sphereDistance w) #1 = true.
Proof.
  intros Ep. rewrite (sphereDistance_num w 0 0 (-18)) by exact Ep.
  replace ((0 - 0) * (0 - 0) + (0 - 0) * (0 - 0) + (-18 - -18) * (-18 - -18))
    with 0 by lra.
  rewrite sqrt_0. apply lt_num_true. lra.
Qed.

(** C2.  The branch of the engulfment does what is asked of it: in a frame
    that starts not collided and measures [dist < 1] the flag is set, the
    line is logged and [fadeOutAudio()] is called, which starts the fade
    (sets [fading] and queues one closure that captured the gain, the time
    and 1900) when the audio is started and not fading, and changes nothing
    otherwise; a frame that starts collided or does not measure [dist < 1]
    leaves the flag and the log as they are and calls nothing; once set the
    flag stays set, nothing is logged again and no fade starts, so along
    any run the flag and [fading] rise at most once; the position is the
    old one plus the new velocity, never reset.  But no session reaches the
    branch: from the initial state, under every sequence of key events and
    frames with finite timestamps, the sphere stays at least
    [closestApproach] = 1.66 from the vortex ([K] is negative below 80/9
    and, below distance 3, the repulsion outweighs the greatest speed, the
    noise and the key push together), so the flag is never set, nothing is
    logged and no fade ever starts. *)
Theorem sphere_never_engulfed (random : nat -> R) :
  (forall (time now : number) (w : World),
     hasCollided w = false -> JS.lt (sphereDistance w) #1 = true ->
     let w' := handle random (AnimationFrame time now) w in
     let a := smoothGain
                (setAudioIntensity (proximityIntensity (sphereDistance w))
                   (runPendingSteps time (audio w))) in
     hasCollided w' = true /\
     console w' = console w ++ ["Boule engloutie !"%string] /\
     spherePosition w'
     = Vector3.add (spherePosition w) (sphereVelocity w') /\
     (audioStarted a = true -> fading a = false ->
      audio w'
      = mkAudio true (targetGain a) (currentGain a) true (gainValue a)
          (filterFrequency a) (playing a)
          (pendingSteps a ++ [mkFadeStep (currentGain a) now #1900])) /\
     (audioStarted a = false \/ fading a = true -> audio w' = a)) /\
  (forall (time now : number) (w : World),
     hasCollided w = true \/ JS.lt (sphereDistance w) #1 = false ->
     let w' := handle random (AnimationFrame time now) w in
     hasCollided w' = hasCollided w /\
     console w' = console w /\
     audio w'
     = smoothGain
         (setAudioIntensity (proximityIntensity (sphereDistance w))
            (runPendingSteps time (audio w)))) /\
  (forall (e : event) (w : World),
     hasCollided w = true ->
     hasCollided (handle random e w) = true /\
     console (handle random e w) = console w /\
     (fading (audio w) = false -> fading (audio (handle random e w)) = false)) /\
  (forall (es : list event) (w : World),
     (risingEdges (map hasCollided (trace random es w)) <= 1)%nat /\
     (risingEdges (map (fun w' => fading (audio w')) (trace random es w))
      <= 1)%nat) /\
  (forall es : list event,
     Forall finiteTimestamp es ->
     let w := run random es (initialWorld random) in
     (exists d : R, sphereDistance w = #d /\ closestApproach <= d) /\
     JS.lt (sphereDistance w) #1 = false /\
     hasCollided w = false /\
     console w = [] /\
     fading (audio w) = false /\
     pendingSteps (audio w) = []).
Proof.
  split; [| split; [| split; [| split]]].
  - intros time now w Hc Hd w' a.
    assert (Ha : audio w' = fadeOutAudio defaultDuration now a).
    { unfold w'. cbn [handle]. rewrite animate_audio.
      cbn [hasCollided audio].
      change (sphereDistance (mkWorld _ _ (spherePosition w) _ _ _ _ _ _ _ _))
        with (sphereDistance w).
      rewrite Hc, Hd. reflexivity. }
    split; [unfold w'; rewrite handle_frame_flag, Hd; apply orb_true_r |].
    split.
    { unfold w'. cbn [handle].
      set (w0 := mkWorld _ _ _ _ _ _ _ _ _ _ _).
      destruct (animate_fields random time now w0) as (_ & _ & _ & Hl & _).
      rewrite Hl. cbn [w0 hasCollided console].
      change (sphereDistance w0) with (sphereDistance w).
      now rewrite Hc, Hd. }
    split.
    { unfold w'. cbn [handle].
      set (w0 := mkWorld _ _ _ _ _ _ _ _ _ _ _).
      destruct (animate_fields random time now w0) as (_ & _ & _ & _ & _ & Hp).
      exact Hp. }
    rewrite Ha. unfold fadeOutAudio, defaultDuration. split.
    + intros Hs Hf. now rewrite Hs, Hf.
    + intros [Hs | Hf]; [now rewrite Hs |].
      rewrite Hf. now rewrite orb_true_r.
  - intros time now w Hno w'.
    assert (He : negb (hasCollided w) && JS.lt (sphereDistance w) #1 = false).
    { destruct Hno as [-> | ->]; [reflexivity | apply andb_false_r]. }
    assert (Hc : hasCollided w' = hasCollided w).
    { unfold w'. rewrite handle_frame_flag.
      destruct Hno as [-> | ->]; [reflexivity | apply orb_false_r]. }
    split; [exact Hc |].
    split; [now apply handle_console |].
    unfold w'. cbn [handle]. rewrite animate_audio.
    cbn [hasCollided audio].
    change (sphereDistance (mkWorld _ _ (spherePosition w) _ _ _ _ _ _ _ _))
      with (sphereDistance w).
    now rewrite He.
  - intros e w Hc.
    pose proof (proj1 (handle_flag random e w) Hc) as Hc'.
    split; [exact Hc' |].
    split; [apply handle_console; congruence |].
    intros Hf. destruct (fading (audio (handle random e w))) eqn:Ef';
      [| reflexivity].
    destruct (fading_rises_when_engulfed random e w Hf Ef'). congruence.
  - intros es w.
    pose proof (proj1 (risingEdges_at_most_one random es w)) as H1.
    pose proof (fades_started_le_collisions random es w) as H2.
    split; [exact H1 | lia].
  - intros es Ht w.
    destruct (run_keptAway random es (initialWorld random) Ht
                (initialWorld_keptAway random)) as (Hk & Hc & Hl).
    { split; right; now left. }
    destruct (keptAway_distance _ Hk) as [Hd Hlt].
    assert (Hno : noFadeYet w).
    { apply run_noFadeYet. intros _. split; reflexivity. }
    fold w in Hc, Hl. cbn [initialWorld hasCollided console] in Hc, Hl.
    destruct (Hno Hc) as [Hf Hp].
    repeat split; assumption.
Qed.

Lemma sphere_never_engulfed_witness :
  let random := fun _ : nat => 0 in
  let approach :=
    [KeyDown "ArrowUp"; AnimationFrame #0 #0; AnimationFrame #16 #16;
     AnimationFrame #33 #33] in
  (hasCollided (run random approach (initialWorld random)) = false /\
   fading (audio (run random approach (initialWorld random))) = false) /\
  (hasCollided (handle random (AnimationFrame #0 #5) sphereOnVortexPlaying)
   = true /\
   fading (audio (handle random (AnimationFrame #0 #5) sphereOnVortexPlaying))
   = true /\
   exists g : number,
     pendingSteps
       (audio (handle random (AnimationFrame #0 #5) sphereOnVortexPlaying))
     = [mkFadeStep g #5 #1900]).
Proof.
  intros random approach.
  split.
  - destruct (proj2 (proj2 (proj2 (proj2 (sphere_never_engulfed random))))
                approach)
      as (_ & _ & Hc & _ & Hf & _).
    { repeat constructor. }
    split; [exact Hc | exact Hf].
  - destruct (proj1 (sphere_never_engulfed random) #0 #5 sphereOnVortexPlaying)
      as (Hc & _ & _ & Ha & _).
    { reflexivity. }
    { apply sphereOnVortex_distance. reflexivity. }
    split; [exact Hc |].
    rewrite Ha; [| reflexivity | reflexivity].
    split; [reflexivity |]. eexists. reflexivity.
Defined.

(** ** The life of the audio over a session *)

(** The phases are closed under the events. *)
Lemma run_phase (random : nat -> R) (es : list event) (w : World) :
  phase w -> phase (run random es w).
Proof.
  revert w. induction es as [| e es IH]; intros w Hw; [exact Hw |].
  unfold run. cbn [fold_left]. apply IH, handle_phase, Hw.
Qed.

Lemma run_stopped_frozen (random : nat -> R) (es : list event) (w : World) :
  startAudioListener w = false -> audioStarted (audio w) = false ->
  pendingSteps (audio w) = [] ->
  audio (run random es w) = audio w.
Proof.
  revert w. induction es as [| e es IH]; intros w Hl Hs Hp; [reflexivity |].
  unfold run. cbn [fold_left]. fold (run random es (handle random e w)).
  destruct (stopped_frozen random e w Hl Hs Hp) as [Ea Hl'].
  rewrite IH; rewrite ?Ea; auto.
Qed.

(** The last call of a fade closure: at or after the end of the ramp it
    stops the audio. *)
Lemma fade_completes (random : nat -> R) (now : number) (w : World)
    (s t0 d t : R) :
  pendingSteps (audio w) = [mkFadeStep #s #t0 #d] ->
  0 < d -> d <= t - t0 ->
  audio (handle random (AnimationFrame #t now) w)
  = mkAudio false (targetGain (audio w)) #0 false (Some #0)
      (filterFrequency (audio w)) false [].
Proof.
  intros Hp Hd Ht.
  assert (E : runPendingSteps #t (audio w)
              = mkAudio false (targetGain (audio w)) #0 false (Some #0)
                  (filterFrequency (audio w)) false []).
  { unfold runPendingSteps. rewrite Hp. cbn [fold_left].
    unfold step. rewrite fadeProgress_num by lra.
    rewrite Rmin_left.
    - rewrite lt_num_false by lra. reflexivity.
    - apply quotient_ge_1; lra. }
  cbn [handle]. rewrite animate_audio. cbn [audio hasCollided]. rewrite E.
  destruct (negb (hasCollided w) && JS.lt _ #1); reflexivity.
Qed.

Lemma handle_listener (random : nat -> R) (e : event) (w : World) :
  startAudioListener (handle random e w)
  = match e with KeyDown _ => false | _ => startAudioListener w end.
Proof.
  destruct e as [code | code | time now]; cbn [handle]; try reflexivity.
  now rewrite animate_listener.
Qed.

Lemma run_listener (random : nat -> R) (es : list event) (w : World) :
  startAudioListener w = true ->
  (startAudioListener (run random es w) = true <->
   forall code : string, ~ In (KeyDown code) es).
Proof.
  intros Hw. induction es as [| e es IH] using rev_ind.
  - cbn. split; [intros _ code H; exact H | intros _; exact Hw].
  - rewrite run_snoc, handle_listener. split.
    + intros H code Hin. apply in_app_or in Hin.
      destruct e as [c | c | time now]; try discriminate H.
      * destruct Hin as [Hin | [E | []]]; [| discriminate E].
        now apply (proj1 IH H code).
      * destruct Hin as [Hin | [E | []]]; [| discriminate E].
        now apply (proj1 IH H code).
    + intros H.
      assert (Hes : forall code, ~ In (KeyDown code) es).
      { intros code Hin. apply (H code), in_or_app. now left. }
      destruct e as [c | c | time now].
      * exfalso. apply (H c), in_or_app. right. now left.
      * now apply IH.
      * now apply IH.
Qed.

(** X8.  The audio goes through three phases and never back: a state in
    one of them (before the first key, playing, stopped) stays in one of
    them under every session.  The first key press, of any key, starts the
    audio at gain 0.7 with the filter at 10000.  The call of the closure of
    a fade at or after the end of its ramp stops the audio: gain 0, paused,
    not started, nothing pending.  Once stopped, no later event changes the
    envelope: the audio cannot be restarted.  In the sessions of the scene
    itself, from the initial state and with finite timestamps, the key
    listener is still attached exactly when no key has been pressed, the
    envelope is then the initial one, and afterwards the audio is started
    and playing with no fade in progress: since the sphere is never
    engulfed, these sessions never fade and never stop the audio. *)
Theorem audio_lifecycle (random : nat -> R) :
  phase (initialWorld random) /\
  (forall (es : list event) (w : World), phase w -> phase (run random es w)) /\
  (forall (code : string) (w : World),
     startAudioListener w = true -> audio w = initialAudio ->
     audio (handle random (KeyDown code) w)
     = mkAudio true #0.7 #0.7 false (Some #0.7) (Some #10000) true []) /\
  (forall (now : number) (w : World) (s t0 d t : R),
     pendingSteps (audio w) = [mkFadeStep #s #t0 #d] ->
     0 < d -> d <= t - t0 ->
     audio (handle random (AnimationFrame #t now) w)
     = mkAudio false (targetGain (audio w)) #0 false (Some #0)
         (filterFrequency (audio w)) false [] /\
     audioStopped (audio (handle random (AnimationFrame #t now) w))) /\
  (forall (es : list event) (w : World),
     startAudioListener w = false -> audioStopped (audio w) ->
     audio (run random es w) = audio w) /\
  (forall es : list event,
     Forall finiteTimestamp es ->
     let w := run random es (initialWorld random) in
     (startAudioListener w = true <->
      forall code : string, ~ In (KeyDown code) es) /\
     (startAudioListener w = true -> audio w = initialAudio) /\
     (startAudioListener w = false ->
      audioStarted (audio w) = true /\ playing (audio w) = true /\
      fading (audio w) = false /\ pendingSteps (audio w) = [])).
Proof.
  split; [apply NotStarted; reflexivity |].
  split; [intros es w; apply run_phase |].
  split; [| split; [| split]].
  - intros code w Hl Ha. cbn [handle keydown audio]. rewrite Hl, Ha.
    reflexivity.
  - intros now w s t0 d t Hp Hd Ht.
    rewrite (fade_completes random now w s t0 d t Hp Hd Ht).
    split; [reflexivity | repeat split].
  - intros es w Hl (Hs & _ & Hp & _). now apply run_stopped_frozen.
  - intros es Ht w.
    destruct (run_keptAway random es (initialWorld random) Ht
                (initialWorld_keptAway random)) as (_ & Hc & _).
    { split; right; now left. }
    fold w in Hc. cbn [initialWorld hasCollided] in Hc.
    split; [apply run_listener; reflexivity |].
    assert (Hph : phase w)
      by (apply run_phase, NotStarted; reflexivity).
    destruct Hph as [Hl Ha | Hl (Hs & Hpl & Hlen & Hnil) Hf | _ _ Hc'];
      [| | congruence].
    + split; [intros _; exact Ha | congruence].
    + split; [congruence |]. intros _.
      assert (Hfad : fading (audio w) = false).
      { destruct (fading (audio w)); [| reflexivity].
        specialize (Hf eq_refl). congruence. }
      auto.
Qed.

Lemma audio_lifecycle_witness :
  let random := fun _ : nat => 0 in
  audio (handle random (KeyDown "Space") (initialWorld random))
  = mkAudio true #0.7 #0.7 false (Some #0.7) (Some #10000) true [] /\
  phase (run random [AnimationFrame #950 #950; AnimationFrame #1900 #1900]
           fadeInFlight) /\
  audio (handle random (AnimationFrame #1900 #1900) fadeInFlight)
  = mkAudio false #1.08 #0 false (Some #0) (Some #800) false [] /\
  audio (run random [KeyDown "Space"; AnimationFrame #1916 #1916]
           (handle random (AnimationFrame #1900 #1900) fadeInFlight))
  = audio (handle random (AnimationFrame #1900 #1900) fadeInFlight) /\
  fading
    (audio (run random [KeyDown "ArrowUp"; AnimationFrame #0 #0]
              (initialWorld random))) = false.
Proof.
  intros random.
  pose proof (audio_lifecycle random) as (_ & Hrun & Hkey & Hend & Hfrozen & Hreal).
  assert (Hph : phase fadeInFlight).
  { apply Running; [reflexivity | | reflexivity].
    split; [reflexivity |]. split; [reflexivity |].
    split; [cbn; lia | discriminate]. }
  destruct (Hend #1900 fadeInFlight 0.7 0 1900 1900 eq_refl) as [Ea Hs];
    [lra | lra |].
  split; [apply Hkey; reflexivity |].
  split; [apply Hrun; exact Hph |].
  split; [exact Ea |].
  split.
  - apply Hfrozen; [| exact Hs].
    cbn [handle]. now rewrite animate_listener.
  - destruct (Hreal [KeyDown "ArrowUp"; AnimationFrame #0 #0]) as (_ & _ & H).
    { repeat constructor. }
    destruct H as (_ & _ & Hf & _); [| exact Hf].
    unfold run. cbn [fold_left handle]. rewrite animate_listener.
    reflexivity.
Defined.
